(** * python-crawler: the crawl orchestration of [crawler.py]

    A shallow embedding of [crawler.py]: the [Link] dataclass, the two
    module-level URL sets, the work queue, the networkx graph and the
    [consume] / [produce] / [crawl] coroutines, followed by the properties
    of the crawl that the specification states.

    Conventions.
    - Python [int] is [Z]; [str] is [string]; a value that may be [None]
      is an [option]; a Python [set] of strings is a [gset string]; the
      node table of the [DiGraph] is a [gmap].
    - A Python exception is a value of [exn]; code that may raise returns
      a [result].  Code that also mutates the shared objects runs in the
      monad [M], which keeps the mutations made before an exception.
    - The event loop is cooperative: a coroutine runs until it suspends.
      One [consume_step] is the code a consumer runs between two
      suspensions; a run of the crawl is a list of consumer indices, the
      order in which the loop resumes the consumers.
    - The calls on the external collaborators ([queue.put], [queue.get],
      [queue.task_done], [session.get]) are recorded in [trace].
    - [urllib.parse], [re] and the HTTP session are not part of the
      repository: they are variables of the section [Crawl].  The
      pattern of [--url-regex] is any [str]: the variable [url_regex] is
      its match function, or [None] when it is not a regular expression
      and [re.match] raises [re.error].  Logging is left out. *)

From Stdlib Require Import ZArith Ascii Permutation Lia.
From stdpp Require Import base option list gmap strings fin_maps sets.

Local Open Scope Z_scope.

(** ** Exceptions and results *)

Inductive exn : Type :=
| FetchError   (* aiohttp.ClientError, asyncio.TimeoutError, decoding errors *)
| ValueError
| TypeError
| KeyError
| ReError.     (* re.error: the pattern is not a regular expression *)

#[global] Instance exn_eq_dec : EqDecision exn.
Proof. solve_decision. Defined.

Inductive result (A : Type) : Type :=
| Ok (a : A)
| Raise (e : exn).
Arguments Ok {A} a.
Arguments Raise {A} e.

Definition rbind {A B} (r : result A) (k : A → result B) : result B :=
  match r with
  | Ok a => k a
  | Raise e => Raise e
  end.

Definition raises {A} (r : result A) : Prop := ∃ e, r = Raise e.

(** [[f(x) for x in l]], stopping at the first exception. *)
Fixpoint rmap {A B} (f : A → result B) (l : list A) : result (list B) :=
  match l with
  | [] => Ok []
  | x :: l' =>
      rbind (f x) (λ y, rbind (rmap f l') (λ ys, Ok (y :: ys)))
  end.

(** ** Link (crawler.py, lines 11-17) *)

Record Link : Type := mkLink { depth : Z; url : string }.

#[global] Instance Link_eq_dec : EqDecision Link.
Proof. solve_decision. Defined.

(** [dataclass(eq=True)]: [__eq__] compares the tuples of fields. *)
Definition Link_eqb (a b : Link) : bool :=
  (depth a =? depth b) && String.eqb (url a) (url b).

(** [dataclass(order=True)]: [__lt__] compares the tuples of fields; a
    tuple comparison looks for the first position where the two differ
    and compares there. *)
Definition Link_ltb (a b : Link) : bool :=
  if negb (depth a =? depth b) then depth a <? depth b
  else if negb (String.eqb (url a) (url b)) then String.ltb (url a) (url b)
  else false.

(** The other comparisons that [order=True] generates, again on the
    tuples of fields: the first position where the two differ decides;
    equal tuples are [<=] and [>=] but not [>]. *)
Definition Link_leb (a b : Link) : bool :=
  if negb (depth a =? depth b) then depth a <=? depth b
  else if negb (String.eqb (url a) (url b)) then String.leb (url a) (url b)
  else true.

Definition Link_gtb (a b : Link) : bool :=
  if negb (depth a =? depth b) then depth a >? depth b
  else if negb (String.eqb (url a) (url b))
       then negb (String.leb (url a) (url b))
  else false.

Definition Link_geb (a b : Link) : bool :=
  if negb (depth a =? depth b) then depth a >=? depth b
  else if negb (String.eqb (url a) (url b))
       then negb (String.ltb (url a) (url b))
  else true.

(** [__str__], line 17. *)
Definition Link_str (a : Link) : string := url a.

(** ** networkx.DiGraph, as far as the crawler uses it

    A node is keyed by its URL and carries an attribute dictionary, of
    which only the key [depth] is ever written: [Some d] is [{depth: d}]
    and [None] is the empty dictionary. *)

Record DiGraph : Type := mkGraph {
  nodes : gmap string (option Z);
  edges : gset (string * string)
}.

Definition empty_graph : DiGraph := {| nodes := ∅; edges := ∅ |}.

(** [G.add_node(n, depth=d)]: creates the node or updates its attributes. *)
Definition nx_add_node (n : string) (d : Z) (g : DiGraph) : DiGraph :=
  {| nodes := <[n := Some d]> (nodes g); edges := edges g |}.

(** A node that [G.add_edge] has to create gets no attribute. *)
Definition nx_touch (n : string) (m : gmap string (option Z)) :
    gmap string (option Z) :=
  match m !! n with
  | Some _ => m
  | None => <[n := None]> m
  end.

(** [G.add_edge(u, v)]. *)
Definition nx_add_edge (u v : string) (g : DiGraph) : DiGraph :=
  {| nodes := nx_touch v (nx_touch u (nodes g));
     edges := {[ (u, v) ]} ∪ edges g |}.

(** ** The shared objects *)

Inductive event : Type :=
| QPut (l : Link)              (* queue.put(link) *)
| QGet (consumer_id : nat) (l : Link)   (* queue.get() returned link *)
| QDone (consumer_id : nat)    (* queue.task_done() *)
| HttpGet (u : string).        (* session.get(url) *)

#[global] Instance event_eq_dec : EqDecision event.
Proof. solve_decision. Defined.

Record world : Type := mkWorld {
  visited_urls : gset string;
  urls_to_visit : gset string;
  queue : list Link;          (* the items of the asyncio.Queue, oldest first *)
  unfinished : Z;             (* the queue's count of unfinished tasks *)
  graph : DiGraph;
  trace : list event          (* newest first *)
}.

Definition empty_world : world :=
  {| visited_urls := ∅; urls_to_visit := ∅; queue := []; unfinished := 0;
     graph := empty_graph; trace := [] |}.

Definition set_visited_urls (f : gset string → gset string) (s : world) :=
  {| visited_urls := f (visited_urls s); urls_to_visit := urls_to_visit s;
     queue := queue s; unfinished := unfinished s; graph := graph s;
     trace := trace s |}.
Definition set_urls_to_visit (f : gset string → gset string) (s : world) :=
  {| visited_urls := visited_urls s; urls_to_visit := f (urls_to_visit s);
     queue := queue s; unfinished := unfinished s; graph := graph s;
     trace := trace s |}.
Definition set_queue (f : list Link → list Link) (s : world) :=
  {| visited_urls := visited_urls s; urls_to_visit := urls_to_visit s;
     queue := f (queue s); unfinished := unfinished s; graph := graph s;
     trace := trace s |}.
Definition set_unfinished (f : Z → Z) (s : world) :=
  {| visited_urls := visited_urls s; urls_to_visit := urls_to_visit s;
     queue := queue s; unfinished := f (unfinished s); graph := graph s;
     trace := trace s |}.
Definition set_graph (f : DiGraph → DiGraph) (s : world) :=
  {| visited_urls := visited_urls s; urls_to_visit := urls_to_visit s;
     queue := queue s; unfinished := unfinished s; graph := f (graph s);
     trace := trace s |}.
Definition emit (e : event) (s : world) :=
  {| visited_urls := visited_urls s; urls_to_visit := urls_to_visit s;
     queue := queue s; unfinished := unfinished s; graph := graph s;
     trace := e :: trace s |}.

(** ** Code that mutates the shared objects and may raise *)

Definition M (A : Type) : Type := world → result A * world.

Definition ret {A} (a : A) : M A := λ s, (Ok a, s).
Definition raise {A} (e : exn) : M A := λ s, (Raise e, s).
Definition bind {A B} (m : M A) (k : A → M B) : M B :=
  λ s, match m s with
       | (Ok a, s') => k a s'
       | (Raise e, s') => (Raise e, s')
       end.
Definition lift {A} (r : result A) : M A := λ s, (r, s).
Definition modify (f : world → world) : M unit := λ s, (Ok (), f s).
Definition gets {A} (f : world → A) : M A := λ s, (Ok (f s), s).

Declare Scope crawl_scope.
Delimit Scope crawl_scope with crawl.
Notation "'let*' x ':=' m 'in' k" := (bind m (λ x, k))
  (at level 10, x name, m at level 100, k at level 200,
   only parsing) : crawl_scope.
Notation "m >> k" := (bind m (λ _, k))
  (at level 100, k at level 200, right associativity,
   only parsing) : crawl_scope.
Local Open Scope crawl_scope.

(** [for x in l: body(x)] *)
Fixpoint for_each {A} (l : list A) (body : A → M unit) : M unit :=
  match l with
  | [] => ret ()
  | x :: l' => body x >> for_each l' body
  end.

(** *** asyncio.Queue (unbounded) *)

(** [queue.put(link)]: never blocks on an unbounded queue. *)
Definition queue_put (link : Link) : M unit :=
  modify (λ s, emit (QPut link)
                 (set_unfinished (λ n, n + 1)
                    (set_queue (λ q, q ++ [link]) s))).

(** [queue.task_done()] *)
Definition queue_task_done (consumer_id : nat) : M unit :=
  let* n := gets unfinished in
  if n <=? 0 then raise ValueError
  else modify (λ s, emit (QDone consumer_id)
                      (set_unfinished (λ n, n - 1) s)).

(** *** Lines 33-37, 57-72 *)

Definition is_url_to_visit (u : string) : M bool :=
  gets (λ s, bool_decide (u ∈ urls_to_visit s)).

Definition is_url_visited (u : string) : M bool :=
  gets (λ s, bool_decide (u ∈ visited_urls s)).

Definition add_node (link : Link) : M unit :=
  modify (set_graph (nx_add_node (url link) (depth link))).

Definition add_edge (link next_link : Link) : M unit :=
  modify (set_graph (nx_add_edge (url link) (url next_link))).

Definition produce (link : Link) : M unit :=
  modify (set_urls_to_visit (λ t, {[ url link ]} ∪ t)) >>
  queue_put link.

(** Lines 101-102: [urls_to_visit.remove(u); visited_urls.add(u)].
    [set.remove] raises [KeyError] when the element is absent. *)
Definition mark_visited (u : string) : M unit :=
  let* present := is_url_to_visit u in
  if present then
    modify (set_urls_to_visit (λ t, t ∖ {[ u ]})) >>
    modify (set_visited_urls (λ v, {[ u ]} ∪ v))
  else raise KeyError.

(** The value of [urlparse(x).netloc]: a [str] for a [str] argument, the
    empty [bytes] for [None]. *)
Inductive netloc_val : Type :=
| NetStr (s : string)
| NetBytes (b : string).

(** [d == str()]: a [bytes] value never equals a [str]. *)
Definition netloc_is_empty_str (d : netloc_val) : bool :=
  match d with
  | NetStr s => String.eqb s EmptyString
  | NetBytes _ => false
  end.

(** [d in allowed_domains], for a list of [str]. *)
Definition netloc_in (d : netloc_val) (allowed_domains : list string) : bool :=
  match d with
  | NetStr s => bool_decide (s ∈ allowed_domains)
  | NetBytes _ => false
  end.

(** The state of a consumer task. *)
Inductive task : Type :=
| Waiting                 (* suspended in [await queue.get()] *)
| Fetching (link : Link)  (* suspended in [await fetch_links(link.url, _)] *)
| Failed (e : exn).       (* the coroutine ended with an exception *)

Record config : Type := mkConfig {
  shared : world;
  consumers : list task
}.

(** ** Reading the trace *)

Definition put_of (e : event) : option Link :=
  match e with QPut l => Some l | _ => None end.
Definition get_of (e : event) : option Link :=
  match e with QGet _ l => Some l | _ => None end.
Definition request_of (e : event) : option string :=
  match e with HttpGet u => Some u | _ => None end.
Definition done_of (e : event) : option nat :=
  match e with QDone i => Some i | _ => None end.

(** The links put on the queue, the links taken from it and the URLs
    requested, newest first. *)
Definition enqueued (s : world) : list Link := omap put_of (trace s).
Definition dequeued (s : world) : list Link := omap get_of (trace s).
Definition requested (s : world) : list string := omap request_of (trace s).

(** The consumers that have called [queue.task_done], one entry for each
    call, newest first. *)
Definition finished (s : world) : list nat := omap done_of (trace s).

(** The consumers that hold an item of the queue: the ones that are not
    waiting in [queue.get()]. *)
Definition holds_item (t : task) : Z :=
  match t with Waiting => 0 | _ => 1 end.
Definition busy (ts : list task) : Z := foldr (λ t n, holds_item t + n) 0 ts.

(** ** What one call changes

    The ways in which the crawl changes the shared objects, and the
    outcomes of the end of an iteration (lines 101-103). *)

(** Lines 93-94: the candidate [u] of [link] is recorded in the graph. *)
Definition discovered (link : Link) (u : string) (s : world) : world :=
  set_graph (nx_add_edge (url link) u)
    (set_graph (nx_add_node u (depth link + 1)) s).

(** [produce(l)] *)
Definition produced (l : Link) (s : world) : world :=
  emit (QPut l)
    (set_unfinished (λ n, n + 1)
       (set_queue (λ q, q ++ [l])
          (set_urls_to_visit (λ t, {[ url l ]} ∪ t) s))).

(** Lines 101-102 *)
Definition moved (u : string) (s : world) : world :=
  set_visited_urls (λ v, {[ u ]} ∪ v)
    (set_urls_to_visit (λ t, t ∖ {[ u ]}) s).

(** Line 103 *)
Definition task_done (i : nat) (s : world) : world :=
  emit (QDone i) (set_unfinished (λ n, n - 1) s).

(** Lines 78-82: [link] leaves the queue and becomes a node. *)
Definition taken (i : nat) (link : Link) (q : list Link) (s : world) : world :=
  set_graph (nx_add_node (url link) (depth link))
    (emit (QGet i link) (set_queue (λ _, q) s)).

Inductive finish_outcome (i : nat) (link : Link) (s : world) :
    result unit → world → Prop :=
| fo_key_error :
    url link ∉ urls_to_visit s →
    finish_outcome i link s (Raise KeyError) s
| fo_value_error :
    url link ∈ urls_to_visit s → unfinished s ≤ 0 →
    finish_outcome i link s (Raise ValueError) (moved (url link) s)
| fo_done :
    url link ∈ urls_to_visit s → 0 < unfinished s →
    finish_outcome i link s (Ok ()) (task_done i (moved (url link) s)).

(** ** Predicates on the shared objects *)

Definition frontier_ok (s : world) : Prop :=
  urls_to_visit s ## visited_urls s.

(** [s'] is a later state of [s]: every URL visited in [s] is still
    visited, and the trace of [s'] continues the one of [s] without
    producing a URL that was visited in [s]. *)
Definition later (s s' : world) : Prop :=
  visited_urls s ⊆ visited_urls s' ∧
  ∃ evs, trace s' = evs ++ trace s ∧
         ∀ l, QPut l ∈ evs → url l ∉ visited_urls s.

Definition load (s : world) : Z := unfinished s - Z.of_nat (length (queue s)).

Definition done_by {A} (r : result A) : Z :=
  match r with Ok _ => 1 | Raise _ => 0 end.

(** ** The first iteration *)

Definition start_link (start_url : string) : Link := mkLink 0 start_url.

(** The shared objects once a consumer has taken the start link. *)
Definition start_taken (i : nat) (start_url : string) : world :=
  taken i (start_link start_url) []
    (produced (start_link start_url) empty_world).

(** The crawl after consumer [i] has taken the start link and sent the
    request for it. *)
Definition crawl_fetching (i : nat) (start_url : string) (parallelism : Z) :
    config :=
  {| shared := emit (HttpGet start_url) (start_taken i start_url);
     consumers :=
       <[i := Fetching (start_link start_url)]>
         (replicate (Z.to_nat parallelism) Waiting) |}.

(** The crawl after consumer [i] has taken the start link and marked it
    visited without a request. *)
Definition crawl_done (i : nat) (start_url : string) (parallelism : Z) :
    config :=
  {| shared := task_done i (moved start_url (start_taken i start_url));
     consumers := replicate (Z.to_nat parallelism) Waiting |}.

(** ** Further predicates on the shared objects *)

(** The queue is first in, first out: in the order of the calls, the
    links put are the links taken followed by the links still queued. *)
Definition fifo (s : world) : Prop :=
  rev (enqueued s) = rev (dequeued s) ++ queue s.

(** The two sets hold exactly the URLs that were put on the queue. *)
Definition frontier_exact (s : world) : Prop :=
  ∀ u, u ∈ urls_to_visit s ∪ visited_urls s ↔ u ∈ url <$> enqueued s.

(** No consumer has ended with an exception. *)
Definition no_failed (ts : list task) : Prop :=
  ∀ i e, ts !! i ≠ Some (Failed e).

(** [s'] keeps everything that [s] has recorded: the visited URLs, the
    URLs in one of the two sets, the edges and the nodes of the graph,
    and the calls on the queue and the session. *)
Definition extends (s s' : world) : Prop :=
  visited_urls s ⊆ visited_urls s' ∧
  urls_to_visit s ∪ visited_urls s ⊆ urls_to_visit s' ∪ visited_urls s' ∧
  edges (graph s) ⊆ edges (graph s') ∧
  dom (nodes (graph s)) ⊆ dom (nodes (graph s')) ∧
  trace s `suffix_of` trace s'.

(** ** The coroutines *)

Section Crawl.

(** [urlparse(u).netloc] for a [str]; [ValueError] on a malformed URL. *)
Variable urlparse_netloc : string → result string.
(** [urljoin(base, ref)] for two [str]. *)
Variable urljoin : string → string → result string.
(** The fetcher: [session.get(url)], [response.text()] and the [href]
    of every [a] element of the parsed page ([None] when the element
    has none), or the exception of the request. *)
Variable http_get : string → result (list (option string)).

Variable allowed_domains : list string.
Variable max_depth : Z.
(** The pattern of [--url-regex], which is any [str]: [None] when it is
    not a regular expression, and otherwise whether
    [re.match(url_regex, u)] finds a match in the [str] [u]. *)
Variable url_regex : option (string → bool).

(** Line 88: [re.match(url_regex, x)] is not [None].  [re.match] compiles
    the pattern first, and raises [re.error] when it cannot; matching a
    compiled pattern against [None] raises [TypeError]. *)
Definition re_match (x : option string) : result bool :=
  match url_regex with
  | None => Raise ReError
  | Some matches =>
      match x with
      | None => Raise TypeError
      | Some u => Ok (matches u)
      end
  end.

(** Lines 24-31. *)
Definition get_domain (x : option string) : result netloc_val :=
  match x with
  | Some u => rbind (urlparse_netloc u) (λ d, Ok (NetStr d))
  | None => Ok (NetBytes EmptyString)
  end.

Definition has_valid_domain (x : option string) : result bool :=
  rbind (get_domain x) (λ d, Ok (netloc_in d allowed_domains)).

Definition is_relative_url (x : option string) : result bool :=
  rbind (get_domain x) (λ d, Ok (netloc_is_empty_str d)).

(** [urljoin(base, x)]; a false [x] gives the base. *)
Definition py_urljoin (base : string) (x : option string) :
    result (option string) :=
  match x with
  | Some ref => rbind (urljoin base ref) (λ r, Ok (Some r))
  | None => Ok (Some base)
  end.

(** Lines 47-53: the body of the loop over the anchors. *)
Definition resolve_href (base : string) (next_link : option string) :
    result (option string) :=
  rbind (is_relative_url next_link) (λ rel,
    if rel then py_urljoin base next_link else Ok next_link).

(** Lines 39-55, from the response on.  The request itself is sent by
    the step that dequeues the link (event [HttpGet]). *)
Definition fetch_links (u : string) : result (list (option string)) :=
  rbind (http_get u) (λ hrefs, rmap (resolve_href u) hrefs).

(** Lines 88-99: the body of the loop over [next_links]. *)
Definition process_candidate (link : Link) (next_link : option string) :
    M unit :=
  let* matched := lift (re_match next_link) in
  if negb matched then ret ()
  else
    match next_link with
    | None => ret ()                    (* [re.match] has raised *)
    | Some u =>
        let next_link_obj := mkLink (depth link + 1) u in
        add_node next_link_obj >>
        add_edge link next_link_obj >>
        let* valid := lift (has_valid_domain next_link) in
        if valid then
          let* visited := is_url_visited u in
          if negb visited then
            let* queued := is_url_to_visit u in
            if negb queued then produce next_link_obj else ret ()
          else ret ()
        else ret ()
    end.

(** Lines 101-103. *)
Definition finish_item (consumer_id : nat) (link : Link) : M unit :=
  mark_visited (url link) >>
  queue_task_done consumer_id.

(** Lines 78-85, once [queue.get()] has returned [link]: up to the
    suspension on the response, or to the end of the iteration when
    the depth bound is reached.  Returns whether the consumer is now
    suspended in [fetch_links]. *)
Definition consume_begin (consumer_id : nat) (link : Link) : M bool :=
  modify (emit (QGet consumer_id link)) >>
  add_node link >>
  if depth link <? max_depth then
    modify (emit (HttpGet (url link))) >>
    ret true
  else
    finish_item consumer_id link >>
    ret false.

(** Lines 85-103, from the arrival of the response. *)
Definition consume_resume (consumer_id : nat) (link : Link) : M unit :=
  let* next_links := lift (fetch_links (url link)) in
  for_each next_links (process_candidate link) >>
  finish_item consumer_id link.

Definition set_task (i : nat) (t : task) (c : config) (s : world) : config :=
  {| shared := s; consumers := <[i := t]> (consumers c) |}.

(** What consumer [i] does when the event loop resumes it. *)
Definition consume_step (i : nat) (c : config) : config :=
  match consumers c !! i with
  | Some Waiting =>
      match queue (shared c) with
      | [] => c                         (* [queue.get()] keeps waiting *)
      | link :: q =>
          match consume_begin i link (set_queue (λ _, q) (shared c)) with
          | (Ok true, s) => set_task i (Fetching link) c s
          | (Ok false, s) => set_task i Waiting c s
          | (Raise e, s) => set_task i (Failed e) c s
          end
      end
  | Some (Fetching link) =>
      match consume_resume i link (shared c) with
      | (Ok _, s) => set_task i Waiting c s
      | (Raise e, s) => set_task i (Failed e) c s
      end
  | Some (Failed _) | None => c
  end.

(** Lines 108-113: the consumers are created, the start link is
    produced, and [crawl] suspends in [queue.join()]. *)
Definition crawl_init (start_url : string) (parallelism : Z) : config :=
  {| shared := (produce (mkLink 0 start_url) empty_world).2;
     consumers := replicate (Z.to_nat parallelism) Waiting |}.

(** The configuration after the event loop has resumed the consumers
    in the order [schedule]. *)
Definition run (schedule : list nat) (c : config) : config :=
  foldl (λ c i, consume_step i c) c schedule.

(** [queue.join()] returns when no task is unfinished. *)
Definition joined (c : config) : bool := unfinished (shared c) =? 0.

Definition reachable (start_url : string) (parallelism : Z) (c : config) :
    Prop :=
  ∃ schedule, c = run schedule (crawl_init start_url parallelism).

(** *** Outcomes and invariants *)

Inductive candidate_outcome (link : Link) (s : world) :
    option string → result unit → world → Prop :=
| co_match_error x e :
    re_match x = Raise e →
    candidate_outcome link s x (Raise e) s
| co_no_match u :
    re_match (Some u) = Ok false →
    candidate_outcome link s (Some u) (Ok ()) s
| co_domain_error u e :
    re_match (Some u) = Ok true →
    has_valid_domain (Some u) = Raise e →
    candidate_outcome link s (Some u) (Raise e) (discovered link u s)
| co_recorded u :
    re_match (Some u) = Ok true →
    has_valid_domain (Some u) = Ok false
      ∨ has_valid_domain (Some u) = Ok true
        ∧ (u ∈ visited_urls s ∨ u ∈ urls_to_visit s) →
    candidate_outcome link s (Some u) (Ok ()) (discovered link u s)
| co_enqueued u :
    re_match (Some u) = Ok true →
    has_valid_domain (Some u) = Ok true →
    u ∉ visited_urls s → u ∉ urls_to_visit s →
    candidate_outcome link s (Some u) (Ok ())
      (produced (mkLink (depth link + 1) u) (discovered link u s)).

Inductive step_kind (i : nat) (c : config) : config → Prop :=
| sk_idle : step_kind i c c
| sk_begin link q r s' :
    consumers c !! i = Some Waiting →
    queue (shared c) = link :: q →
    consume_begin i link (set_queue (λ _, q) (shared c)) = (r, s') →
    step_kind i c
      (set_task i (match r with
                   | Ok true => Fetching link
                   | Ok false => Waiting
                   | Raise e => Failed e
                   end) c s')
| sk_resume link r s' :
    consumers c !! i = Some (Fetching link) →
    consume_resume i link (shared c) = (r, s') →
    step_kind i c
      (set_task i (match r with Ok _ => Waiting | Raise e => Failed e end)
         c s').

(** The links put on the queue are the ones taken from it and the ones
    still in it; no URL was put twice; every URL put is in one of the two
    sets; a request was sent for each link taken from the queue below the
    depth bound, and for no other. *)
Definition accounted (s : world) : Prop :=
  enqueued s ≡ₚ dequeued s ++ queue s ∧
  NoDup (url <$> enqueued s) ∧
  (∀ l, l ∈ enqueued s → url l ∈ urls_to_visit s ∪ visited_urls s) ∧
  requested s = url <$> filter (λ l, depth l < max_depth) (dequeued s).

(** The links in the queue and the nodes of the graph are within the
    depth bound, and the nodes in [D] are in the graph. *)
Definition depth_bounded (D : gset string) (s : world) : Prop :=
  (∀ l, l ∈ queue s → depth l ≤ max_depth) ∧
  (∀ u o, nodes (graph s) !! u = Some o → ∃ d, o = Some d ∧ d ≤ max_depth) ∧
  D ⊆ dom (nodes (graph s)).

Definition depth_inv (c : config) : Prop :=
  depth_bounded (dom (nodes (graph (shared c)))) (shared c) ∧
  ∀ i link, consumers c !! i = Some (Fetching link) →
            depth link < max_depth ∧
            url link ∈ dom (nodes (graph (shared c))).

(** Every link put on the queue is the start link or has a URL that
    parses, with an allowed domain. *)
Definition enqueued_in_scope (start_url : string) (s : world) : Prop :=
  ∀ l, l ∈ enqueued s →
       l = mkLink 0 start_url ∨
       ∃ d, urlparse_netloc (url l) = Ok d ∧ d ∈ allowed_domains.

(** *** Further outcomes and invariants *)

(** The six ways in which a step of consumer [i] can go. *)
Inductive step_case (i : nat) (c : config) : config → Prop :=
| sc_idle : step_case i c c
| sc_fetch link q :
    consumers c !! i = Some Waiting →
    queue (shared c) = link :: q →
    depth link < max_depth →
    step_case i c
      (set_task i (Fetching link) c
         (emit (HttpGet (url link)) (taken i link q (shared c))))
| sc_leaf link q r s' :
    consumers c !! i = Some Waiting →
    queue (shared c) = link :: q →
    max_depth ≤ depth link →
    finish_outcome i link (taken i link q (shared c)) r s' →
    step_case i c
      (set_task i (match r with Ok _ => Waiting | Raise e => Failed e end)
         c s')
| sc_fetch_error link e :
    consumers c !! i = Some (Fetching link) →
    fetch_links (url link) = Raise e →
    step_case i c (set_task i (Failed e) c (shared c))
| sc_loop_error link cands e s1 :
    consumers c !! i = Some (Fetching link) →
    fetch_links (url link) = Ok cands →
    for_each cands (process_candidate link) (shared c) = (Raise e, s1) →
    step_case i c (set_task i (Failed e) c s1)
| sc_done link cands s1 r s' :
    consumers c !! i = Some (Fetching link) →
    fetch_links (url link) = Ok cands →
    for_each cands (process_candidate link) (shared c) = (Ok (), s1) →
    finish_outcome i link s1 r s' →
    step_case i c
      (set_task i (match r with Ok _ => Waiting | Raise e => Failed e end)
         c s').

(** What the loop over the candidates of [link] has done to the sets, the
    queue and the trace when it has taken [s] to [s1]: it has put the
    links [added], all new, accepted and one level below [link]. *)
Definition grown_frontier (link : Link) (s s1 : world) : Prop :=
  visited_urls s1 = visited_urls s ∧
  dequeued s1 = dequeued s ∧
  requested s1 = requested s ∧
  ∃ added,
    queue s1 = queue s ++ added ∧
    enqueued s1 = rev added ++ enqueued s ∧
    (∀ u, u ∈ urls_to_visit s1 ↔ u ∈ urls_to_visit s ∨ u ∈ url <$> added) ∧
    (∀ l, l ∈ added →
          depth l = depth link + 1 ∧
          (url link, url l) ∈ edges (graph s1) ∧
          (url l ∉ urls_to_visit s) ∧
          (url l ∉ visited_urls s) ∧
          re_match (Some (url l)) = Ok true ∧
          has_valid_domain (Some (url l)) = Ok true).

(** What the same loop has done to the graph: it has added edges from
    [link] to candidates that match the pattern, and it has written no
    node but the targets of these edges, one level below [link]. *)
Definition grown_graph (link : Link) (s s1 : world) : Prop :=
  edges (graph s) ⊆ edges (graph s1) ∧
  dom (nodes (graph s)) ⊆ dom (nodes (graph s1)) ∧
  (∀ e, e ∈ edges (graph s1) →
        e ∈ edges (graph s) ∨
        ∃ u, e = (url link, u) ∧ re_match (Some u) = Ok true ∧
             u ∈ dom (nodes (graph s1))) ∧
  (∀ u o, nodes (graph s1) !! u = Some o →
          nodes (graph s) !! u = Some o ∨
          (o = Some (depth link + 1) ∧ (url link, u) ∈ edges (graph s1))).

(** The bookkeeping of the links in flight: the URL of a link that is
    queued or held by a consumer is in [urls_to_visit]; a held link was
    taken from the queue below the depth bound and requested; no two
    consumers hold the same URL; every visited URL was taken from the
    queue; and, as long as no consumer has failed, [urls_to_visit] holds
    nothing else. *)
Definition holding (c : config) : Prop :=
  (∀ l, l ∈ queue (shared c) → url l ∈ urls_to_visit (shared c)) ∧
  (∀ i l, consumers c !! i = Some (Fetching l) →
          url l ∈ urls_to_visit (shared c) ∧
          l ∈ dequeued (shared c) ∧
          url l ∈ requested (shared c) ∧
          depth l < max_depth) ∧
  (∀ i j l l', i ≠ j →
               consumers c !! i = Some (Fetching l) →
               consumers c !! j = Some (Fetching l') →
               url l ≠ url l') ∧
  (∀ u, u ∈ visited_urls (shared c) → u ∈ url <$> dequeued (shared c)) ∧
  (no_failed (consumers c) →
   ∀ u, u ∈ urls_to_visit (shared c) →
        u ∈ url <$> queue (shared c) ∨
        ∃ i l, consumers c !! i = Some (Fetching l) ∧ url l = u).

(** The graph and the queue: every node carries a depth, which is not
    negative; the two ends of an edge are nodes and its source was
    requested; every node is the start URL or the target of an edge;
    every link put on the queue is the start link or one level below a
    link that was taken from the queue below the depth bound, with an
    edge from it; the URL of a link held by a consumer is a node. *)
Definition graph_sound (start_url : string) (c : config) : Prop :=
  (∀ u o, nodes (graph (shared c)) !! u = Some o → ∃ d, o = Some d ∧ 0 ≤ d) ∧
  (∀ p u, (p, u) ∈ edges (graph (shared c)) →
          p ∈ dom (nodes (graph (shared c))) ∧
          u ∈ dom (nodes (graph (shared c))) ∧
          p ∈ requested (shared c) ∧
          re_match (Some u) = Ok true) ∧
  (∀ u, u ∈ dom (nodes (graph (shared c))) →
        u = start_url ∨ ∃ p, (p, u) ∈ edges (graph (shared c))) ∧
  (∀ l, l ∈ enqueued (shared c) →
        0 ≤ depth l ∧
        (l = mkLink 0 start_url ∨
         ∃ parent, parent ∈ dequeued (shared c) ∧
                   depth parent < max_depth ∧
                   depth l = depth parent + 1 ∧
                   (url parent, url l) ∈ edges (graph (shared c)))) ∧
  (∀ i l, consumers c !! i = Some (Fetching l) →
          url l ∈ dom (nodes (graph (shared c)))).

(** What a candidate that matches the pattern has got once the loop body
    has handled it. *)
Definition handled (link : Link) (x : option string) (s : world) : Prop :=
  ∀ v, x = Some v → re_match (Some v) = Ok true →
       (url link, v) ∈ edges (graph s) ∧
       (has_valid_domain (Some v) = Ok true →
        v ∈ urls_to_visit s ∪ visited_urls s).

(** The pages of the visited links below the depth bound have been
    explored: the page was fetched, none of its candidates is absent,
    every candidate that matches the pattern has its edge, and every
    candidate that is also in an allowed domain is in one of the two
    sets. *)
Definition explored (c : config) : Prop :=
  ∀ l, l ∈ dequeued (shared c) →
       url l ∈ visited_urls (shared c) →
       depth l < max_depth →
       ∃ cands,
         fetch_links (url l) = Ok cands ∧
         (None ∉ cands) ∧
         ∀ v, Some v ∈ cands → re_match (Some v) = Ok true →
              (url l, v) ∈ edges (graph (shared c)) ∧
              (has_valid_domain (Some v) = Ok true →
               v ∈ urls_to_visit (shared c) ∪ visited_urls (shared c)).

End Crawl.

(** ** Two settings of the filters *)

(** The pattern [url_regex] with the allowed domains [allowed], and the
    pattern [url_regex'] with [allowed'], give the same answers on every
    candidate of every page: [re.match] returns or raises the same, and
    where it finds a match the domain check does. *)
Definition filters_agree
    (urlparse_netloc : string → result string)
    (urljoin : string → string → result string)
    (http_get : string → result (list (option string)))
    (allowed allowed' : list string)
    (url_regex url_regex' : option (string → bool)) : Prop :=
  ∀ u cands x,
    fetch_links urlparse_netloc urljoin http_get u = Ok cands →
    x ∈ cands →
    re_match url_regex x = re_match url_regex' x ∧
    (re_match url_regex x = Ok true →
     has_valid_domain urlparse_netloc allowed x
       = has_valid_domain urlparse_netloc allowed' x).

(** ** The command line (lines 121-154) *)

(** The namespace that [get_args] returns. *)
Record Args : Type := mkArgs {
  arg_start_url : string;
  arg_url_regex : option (string → bool);
  arg_output : string;
  arg_parallelism : Z;
  arg_max_depth : Z
}.

(** [crawl_main]: the allowed domains are the single network location of
    the start URL, which is computed before the event loop is started
    and may raise; the result is the configuration that the event loop
    has reached after [schedule] ([run_until_complete] returns once
    [queue.join()] has returned).  A network location that is not a
    [str] equals no network location of a [str]. *)
Definition crawl_main
    (urlparse_netloc : string → result string)
    (urljoin : string → string → result string)
    (http_get : string → result (list (option string)))
    (args : Args) (schedule : list nat) : result config :=
  rbind (get_domain urlparse_netloc (Some (arg_start_url args))) (λ d,
    let allowed_domains :=
      match d with NetStr s => [s] | NetBytes _ => [] end in
    Ok (run urlparse_netloc urljoin http_get allowed_domains
          (arg_max_depth args) (arg_url_regex args) schedule
          (crawl_init (arg_start_url args) (arg_parallelism args)))).

(** ** A concrete library, for running the crawl on small sites

    [py_netloc] follows [urllib.parse.urlsplit] on a [str] without
    leading blanks or control characters: an optional scheme up to the
    first colon, then, after a double slash, the network location up to
    the next slash, question mark or hash; a network location with an
    unmatched square bracket is refused with [ValueError]. *)

Module PyLib.

Definition is_alpha (c : ascii) : bool :=
  let n := nat_of_ascii c in
  ((65 <=? n) && (n <=? 90) || (97 <=? n) && (n <=? 122))%nat.

Definition is_scheme_char (c : ascii) : bool :=
  let n := nat_of_ascii c in
  (is_alpha c || (48 <=? n) && (n <=? 57)
   || (n =? 43) || (n =? 45) || (n =? 46))%nat.

Fixpoint all_chars (p : ascii → bool) (s : string) : bool :=
  match s with
  | EmptyString => true
  | String c s' => p c && all_chars p s'
  end.

Fixpoint has_char (c : ascii) (s : string) : bool :=
  match s with
  | EmptyString => false
  | String c' s' => Ascii.eqb c c' || has_char c s'
  end.

(** The part of [s] before the first character satisfying [p], and the
    rest. *)
Fixpoint break_at (p : ascii → bool) (s : string) : string * string :=
  match s with
  | EmptyString => (EmptyString, EmptyString)
  | String c s' =>
      if p c then (EmptyString, s)
      else let '(a, b) := break_at p s' in (String c a, b)
  end.

(** The URL without its scheme and colon, when it has a scheme. *)
Definition strip_scheme (u : string) : string :=
  match u with
  | String c _ =>
      let '(a, b) := break_at (Ascii.eqb ":") u in
      match b with
      | String _ rest =>
          if is_alpha c && all_chars is_scheme_char a then rest else u
      | EmptyString => u
      end
  | EmptyString => u
  end.

Definition is_delim (c : ascii) : bool :=
  Ascii.eqb c "/" || Ascii.eqb c "?" || Ascii.eqb c "#".

Definition py_netloc (u : string) : result string :=
  match strip_scheme u with
  | String "/" (String "/" rest) =>
      let netloc := (break_at is_delim rest).1 in
      if xorb (has_char "[" netloc) (has_char "]" netloc)
      then Raise ValueError
      else Ok netloc
  | _ => Ok EmptyString
  end.

(** The scheme, the double slash and the network location of [u]. *)
Definition origin (u : string) : string :=
  let rest := strip_scheme u in
  let scheme := String.substring 0 (String.length u - String.length rest) u in
  match rest with
  | String "/" (String "/" rest') =>
      scheme +:+ "//" +:+ (break_at is_delim rest').1
  | _ => scheme
  end.

(** [urllib.parse.urljoin], for the two kinds of reference used below:
    the empty reference, which gives the base, and a reference that
    starts with a single slash, which replaces the path of the base.
    Any other reference is returned as it is, which is what [urljoin]
    does for a reference with a scheme of its own. *)
Definition py_urljoin_str (base ref : string) : result string :=
  match ref with
  | EmptyString => Ok base
  | String "/" (String "/" _) => Ok ref
  | String "/" _ => Ok (origin base +:+ ref)
  | _ => Ok ref
  end.

(** [re.match] with the default of [--url-regex]: the URL starts with
    the scheme http or https and a double slash. *)
Definition default_regex (u : string) : bool :=
  String.prefix "http://" u || String.prefix "https://" u.

(** The default of [--url-regex] is a regular expression. *)
Definition default_pattern : option (string → bool) := Some default_regex.

End PyLib.

(** ** Two small sites

    [site_scenario] is the site of the specification's scenario;
    [site_links] is a table of pages for the other examples: a request
    for a URL outside the table fails. *)

Module Sites.
Import PyLib.

Definition page_table : Type := list (string * list (option string)).

Fixpoint site_links (t : page_table) (u : string) :
    result (list (option string)) :=
  match t with
  | [] => Raise FetchError
  | (u', hrefs) :: t' =>
      if String.eqb u u' then Ok hrefs else site_links t' u
  end.

(** A crawl of the site [t] from [start_url], with the filters of
    [crawl_main]: the allowed domain is the one of the start URL (the
    empty list when it cannot be parsed, where [crawl_main] stops
    before the crawl), the pattern is the default one. *)
Definition crawl_site (t : page_table) (start_url : string)
    (parallelism max_depth : Z) (schedule : list nat) : config :=
  let allowed :=
    match py_netloc start_url with Ok d => [d] | Raise _ => [] end in
  run py_netloc py_urljoin_str (site_links t) allowed max_depth
    default_pattern schedule (crawl_init start_url parallelism).

Definition site_scenario : page_table :=
  [ ("https://a.test/",
      [Some "/b"; Some "https://a.test/c"; Some "https://other.test/x"]);
    ("https://a.test/b", []);
    ("https://a.test/c", []) ].

Definition a_test : string := "https://a.test/".

(** The crawl of the site [t] from [a_test], as [crawl_main] sets it up. *)
Definition crawl_a_test (t : page_table) (parallelism max_depth : Z)
    (schedule : list nat) : config :=
  run py_netloc py_urljoin_str (site_links t) ["a.test"] max_depth
    default_pattern schedule (crawl_init a_test parallelism).

(** A URL linked from two pages of the same depth: one node, two edges,
    one [queue.put], one request. *)
Definition site_two_parents : page_table :=
  [ (a_test, [Some "/p"; Some "/q"]);
    ("https://a.test/p", [Some "/x"]);
    ("https://a.test/q", [Some "/x"]);
    ("https://a.test/x", []) ].

(** A start page with one link, to a page of the same domain. *)
Definition site_one_child : page_table :=
  [ (a_test, [Some "https://a.test/b"]); ("https://a.test/b", []) ].

(** A start page whose second anchor has no [href]. *)
Definition site_absent_href : page_table :=
  [ (a_test, [Some "/b"; None; Some "/c"]) ].

(** A start page whose second anchor has an [href] that [urlparse]
    refuses. *)
Definition site_unparsable_href : page_table :=
  [ (a_test, [Some "/b"; Some "http://["; Some "/c"]) ].

(** A start URL that the default pattern does not match. *)
Definition ftp_start : string := "ftp://files.test/".

(** Its page, with one link into another domain. *)
Definition site_ftp : page_table :=
  [ (ftp_start, [Some "https://a.test/b"]) ].

(** A pattern that also matches the start URL of [site_ftp]. *)
Definition with_ftp (u : string) : bool :=
  default_regex u || String.prefix "ftp://" u.

End Sites.

(** * Properties *)

(** ** Link *)

Lemma string_ltb_irrefl (s : string) : String.ltb s s = false.
Proof.
  unfold String.ltb.
  pose proof (String.compare_antisym s s) as H.
  destruct (String.compare s s); cbn in H; congruence.
Qed.

(** C9. Two links are equal exactly when their depths and their URLs are
    equal, which is also what the generated [__eq__] decides; the
    generated [__lt__] is the lexicographic order, by depth and then by
    URL. *)
Theorem Link_eq_and_order (a b : Link) :
  (a = b ↔ depth a = depth b ∧ url a = url b) ∧
  (Link_eqb a b = true ↔ depth a = depth b ∧ url a = url b) ∧
  (Link_ltb a b = true ↔
     depth a < depth b ∨
     (depth a = depth b ∧ String.ltb (url a) (url b) = true)).
Proof.
  destruct a as [da ua], b as [db ub]; cbn [depth url].
  unfold Link_eqb, Link_ltb; cbn [depth url].
  split; [|split].
  - split; [by intros [= -> ->] | by intros [-> ->]].
  - rewrite andb_true_iff, Z.eqb_eq, String.eqb_eq. tauto.
  - destruct (Z.eqb_spec da db) as [->|Hne]; cbn [negb].
    + destruct (String.eqb_spec ua ub) as [->|Hu]; cbn [negb].
      * rewrite string_ltb_irrefl. split; [done|].
        intros [?|[_ ?]]; [lia | done].
      * split; [by right | intros [?|[_ ?]]; [lia | done]].
    + rewrite Z.ltb_lt. split; [by left | intros [?|[? _]]; [done | lia]].
Qed.

(** ** The frontier sets *)

(** C7. Marking a URL visited raises [KeyError] and changes nothing when
    the URL is not in [urls_to_visit]; otherwise it succeeds, removes the
    URL from [urls_to_visit] and adds it to [visited_urls]. *)
Theorem mark_visited_spec (u : string) (s : world) :
  (u ∉ urls_to_visit s → mark_visited u s = (Raise KeyError, s)) ∧
  (u ∈ urls_to_visit s →
     ∃ s', mark_visited u s = (Ok (), s') ∧
           urls_to_visit s' = urls_to_visit s ∖ {[ u ]} ∧
           visited_urls s' = {[ u ]} ∪ visited_urls s ∧
           (u ∉ urls_to_visit s') ∧ (u ∈ visited_urls s')).
Proof.
  unfold mark_visited, is_url_to_visit, bind, gets, modify, raise.
  split; intros Hu.
  - rewrite bool_decide_eq_false_2; done.
  - rewrite bool_decide_eq_true_2 by done.
    eexists; split; [done|]. cbn. set_solver.
Qed.

Lemma mark_visited_spec_witness :
  ∃ s', mark_visited "u" (set_urls_to_visit (λ _, {[ "u" ]}) empty_world)
          = (Ok (), s') ∧
        ("u" ∉ urls_to_visit s') ∧ ("u" ∈ visited_urls s').
Proof.
  destruct (proj2 (mark_visited_spec "u"
                     (set_urls_to_visit (λ _, {[ "u" ]}) empty_world)))
    as (s' & Hrun & _ & _ & Hout & Hin).
  - cbn. by apply elem_of_singleton.
  - exists s'. split; [exact Hrun | split; [exact Hout | exact Hin]].
Defined.

(** ** The graph *)

(** C4, as the claim states it, fails: adding a link whose URL is already
    a node replaces the recorded depth. *)
Lemma add_node_first_wins_fails :
  ¬ (∀ (s : world) (link : Link) (d0 : Z),
       nodes (graph s) !! url link = Some (Some d0) →
       nodes (graph (add_node link s).2) !! url link = Some (Some d0)).
Proof.
  intros H.
  specialize (H (add_node (mkLink 1 "u") empty_world).2 (mkLink 2 "u") 1).
  cbn in H. rewrite !lookup_insert_eq in H.
  specialize (H eq_refl). discriminate H.
Qed.

(** C4, amended. [add_node] records the depth of the link it is given,
    whether or not the URL is already a node (the last recording wins);
    it creates no second node and changes no other node and no edge. *)
Theorem add_node_last_wins (link : Link) (s : world) :
  ∃ s', add_node link s = (Ok (), s') ∧
        nodes (graph s') !! url link = Some (Some (depth link)) ∧
        dom (nodes (graph s')) = {[ url link ]} ∪ dom (nodes (graph s)) ∧
        (∀ u, u ≠ url link → nodes (graph s') !! u = nodes (graph s) !! u) ∧
        edges (graph s') = edges (graph s).
Proof.
  eexists; split; [reflexivity|]. cbn.
  rewrite lookup_insert_eq, dom_insert_L.
  split; [done|]. split; [done|]. split; [|done].
  intros u Hu. by rewrite lookup_insert_ne.
Qed.

Lemma add_node_last_wins_witness :
  ∃ s', add_node (mkLink 2 "u") (add_node (mkLink 1 "u") empty_world).2
          = (Ok (), s') ∧
        nodes (graph s') !! "u" = Some (Some 2).
Proof.
  destruct (add_node_last_wins (mkLink 2 "u")
              (add_node (mkLink 1 "u") empty_world).2)
    as (s' & Hrun & Hdepth & _).
  exists s'. split; [exact Hrun | exact Hdepth].
Defined.

(** ** The end of an iteration *)

Lemma produce_eq l s : produce l s = (Ok (), produced l s).
Proof. reflexivity. Qed.

Lemma finish_item_outcome i link s :
  finish_outcome i link s (finish_item i link s).1 (finish_item i link s).2.
Proof.
  unfold finish_item, mark_visited, queue_task_done, is_url_to_visit,
    bind, gets, modify, raise.
  case_bool_decide as Hin; cbn.
  - destruct (Z.leb_spec (unfinished s) 0) as [Hle|Hlt]; cbn.
    + by apply fo_value_error.
    + by apply fo_done.
  - by apply fo_key_error.
Qed.

Section Properties.

Context (urlparse_netloc : string → result string)
        (urljoin : string → string → result string)
        (http_get : string → result (list (option string)))
        (allowed_domains : list string)
        (max_depth : Z)
        (url_regex : option (string → bool)).

Local Abbreviation has_valid_domain :=
  (has_valid_domain urlparse_netloc allowed_domains).
Local Abbreviation fetch_links := (fetch_links urlparse_netloc urljoin http_get).
Local Abbreviation process_candidate :=
  (process_candidate urlparse_netloc allowed_domains url_regex).
Local Abbreviation consume_begin := (consume_begin max_depth).
Local Abbreviation consume_resume :=
  (consume_resume urlparse_netloc urljoin http_get allowed_domains
     url_regex).
Local Abbreviation consume_step :=
  (consume_step urlparse_netloc urljoin http_get allowed_domains
     max_depth url_regex).
Local Abbreviation run :=
  (run urlparse_netloc urljoin http_get allowed_domains max_depth
     url_regex).
Local Abbreviation reachable :=
  (reachable urlparse_netloc urljoin http_get allowed_domains max_depth
     url_regex).
Local Abbreviation candidate_outcome :=
  (candidate_outcome urlparse_netloc allowed_domains url_regex).
Local Abbreviation step_kind :=
  (step_kind urlparse_netloc urljoin http_get allowed_domains max_depth
     url_regex).
Local Abbreviation sk_begin :=
  (sk_begin urlparse_netloc urljoin http_get allowed_domains max_depth
     url_regex).
Local Abbreviation sk_resume :=
  (sk_resume urlparse_netloc urljoin http_get allowed_domains max_depth
     url_regex).
Local Abbreviation accounted := (accounted max_depth).
Local Abbreviation depth_bounded := (depth_bounded max_depth).
Local Abbreviation depth_inv := (depth_inv max_depth).
Local Abbreviation enqueued_in_scope :=
  (enqueued_in_scope urlparse_netloc allowed_domains).
Local Abbreviation step_case :=
  (step_case urlparse_netloc urljoin http_get allowed_domains max_depth
     url_regex).
Local Abbreviation sc_leaf :=
  (sc_leaf urlparse_netloc urljoin http_get allowed_domains max_depth
     url_regex).
Local Abbreviation sc_done :=
  (sc_done urlparse_netloc urljoin http_get allowed_domains max_depth
     url_regex).
Local Abbreviation grown_frontier :=
  (grown_frontier urlparse_netloc allowed_domains url_regex).
Local Abbreviation grown_graph := (grown_graph url_regex).
Local Abbreviation re_match := (re_match url_regex).
Local Abbreviation handled :=
  (handled urlparse_netloc allowed_domains url_regex).
Local Abbreviation holding := (holding max_depth).
Local Abbreviation graph_sound := (graph_sound max_depth url_regex).
Local Abbreviation explored :=
  (explored urlparse_netloc urljoin http_get allowed_domains max_depth
     url_regex).

(** *** The outcomes of the loop body, lines 88-99 *)

(** [re.match] finds no match in [None]: it raises. *)
Lemma re_match_absent b : re_match None = Ok b → False.
Proof. unfold re_match. by destruct url_regex. Qed.

Lemma re_match_str u b :
  re_match (Some u) = Ok b ↔ ∃ matches, url_regex = Some matches ∧ matches u = b.
Proof.
  unfold re_match. destruct url_regex as [m|].
  - split; [intros [= <-]; by exists m | by intros (? & [= <-] & <-)].
  - split; [done | by intros (? & [=] & _)].
Qed.

Lemma process_candidate_outcome link x s :
  candidate_outcome link s x
    (process_candidate link x s).1 (process_candidate link x s).2.
Proof.
  destruct (process_candidate link x s) as [r s'] eqn:Hrun; cbn [fst snd].
  revert Hrun.
  unfold process_candidate, bind, lift, add_node, add_edge, modify,
    is_url_visited, is_url_to_visit, gets, ret.
  destruct (re_match x) as [matched|e] eqn:Hre;
    [|intros [= <- <-]; by apply co_match_error].
  destruct x as [u|]; [|by apply re_match_absent in Hre].
  destruct matched; cbn [negb]; [|intros [= <- <-]; by apply co_no_match].
  cbn [depth url].
  fold (discovered link u s).
  destruct (has_valid_domain (Some u)) as [[]|e] eqn:Hdom.
  - change (visited_urls (discovered link u s)) with (visited_urls s).
    case_bool_decide as Hv; cbn [negb].
    { intros [= <- <-]. apply co_recorded; auto. }
    change (urls_to_visit (discovered link u s)) with (urls_to_visit s).
    case_bool_decide as Ht; cbn [negb].
    { intros [= <- <-]. apply co_recorded; auto. }
    rewrite produce_eq. intros [= <- <-]. by apply co_enqueued.
  - intros [= <- <-]. apply co_recorded; auto.
  - intros [= <- <-]. by apply co_domain_error.
Qed.

(** A candidate that passes the filters and is in neither set. *)
Lemma process_candidate_new link u s :
  re_match (Some u) = Ok true →
  has_valid_domain (Some u) = Ok true →
  u ∉ visited_urls s → u ∉ urls_to_visit s →
  process_candidate link (Some u) s
    = (Ok (), produced (mkLink (depth link + 1) u) (discovered link u s)).
Proof.
  intros Hre Hdom Hv Ht.
  pose proof (process_candidate_outcome link (Some u) s) as Hout.
  destruct (process_candidate link (Some u) s) as [r s'].
  cbn in Hout.
  inversion Hout as [? ? Hre'|? Hre'|? ? _ Hdom'|? _ Hrec|? _ _ _ _]; subst.
  - congruence.
  - congruence.
  - congruence.
  - destruct Hrec as [?|[_ [?|?]]]; [congruence|done..].
  - done.
Qed.

(** *** Properties kept by every call *)

Lemma for_each_preserves {A} (P : world → Prop) (body : A → M unit) :
  (∀ x s, P s → P (body x s).2) →
  ∀ l s, P s → P (for_each l body s).2.
Proof.
  intros Hbody l. induction l as [|x l IH]; intros s Hs; [done|].
  cbn [for_each]. unfold bind.
  specialize (Hbody x s Hs).
  destruct (body x s) as [[[]|e] s1]; cbn in *; auto.
Qed.

(** A property of the shared objects that the loop body and the end of
    an iteration keep is kept by the second half of an iteration. *)
Lemma consume_resume_preserves (P : world → Prop) i link :
  (∀ x s, P s → P (process_candidate link x s).2) →
  (∀ s, P s → P (finish_item i link s).2) →
  ∀ s, P s → P (consume_resume i link s).2.
Proof.
  intros Hcand Hfin s Hs. unfold consume_resume, bind, lift.
  destruct (fetch_links (url link)) as [next_links|e]; [|done].
  pose proof (for_each_preserves P _ Hcand next_links s Hs) as Hloop.
  destruct (for_each next_links _ s) as [[[]|e] s1]; cbn in *; auto.
Qed.

(** The first half of an iteration. *)
Lemma consume_begin_eq i link q s :
  consume_begin i link (set_queue (λ _, q) s) =
    if depth link <? max_depth
    then (Ok true, emit (HttpGet (url link)) (taken i link q s))
    else match finish_item i link (taken i link q s) with
         | (Ok _, s') => (Ok false, s')
         | (Raise e, s') => (Raise e, s')
         end.
Proof.
  unfold consume_begin, add_node, bind, modify, ret.
  fold (taken i link q s).
  destruct (depth link <? max_depth); [done|].
  by destruct (finish_item i link (taken i link q s)) as [[[]|e] s'].
Qed.

(** *** Induction over the configurations of a crawl *)

Lemma consume_step_kind i c : step_kind i c (consume_step i c).
Proof.
  unfold consume_step.
  destruct (consumers c !! i) as [[|link|e]|] eqn:Hi; try apply sk_idle.
  - destruct (queue (shared c)) as [|link q] eqn:Hq; [apply sk_idle|].
    destruct (consume_begin i link _) as [r s'] eqn:Hrun.
    destruct r as [[]|e];
      exact (sk_begin i c link q _ s' Hi Hq Hrun).
  - destruct (consume_resume i link (shared c)) as [r s'] eqn:Hrun.
    destruct r as [[]|e];
      exact (sk_resume i c link _ s' Hi Hrun).
Qed.

Lemma run_snoc sch i c : run (sch ++ [i]) c = consume_step i (run sch c).
Proof. unfold run. by rewrite foldl_app. Qed.

Lemma run_app sch sch' c : run (sch ++ sch') c = run sch' (run sch c).
Proof. unfold run. by rewrite foldl_app. Qed.

Lemma reachable_ind (start_url : string) (parallelism : Z)
    (P : config → Prop) :
  P (crawl_init start_url parallelism) →
  (∀ i c, reachable start_url parallelism c → P c → P (consume_step i c)) →
  ∀ c, reachable start_url parallelism c → P c.
Proof.
  intros Hinit Hstep c [sch ->].
  induction sch as [|i sch IH] using rev_ind; [done|].
  rewrite run_snoc. apply Hstep; [by exists sch | done].
Qed.

Lemma reachable_run start_url parallelism c sch :
  reachable start_url parallelism c →
  reachable start_url parallelism (run sch c).
Proof. intros [sch0 ->]. exists (sch0 ++ sch). by rewrite run_app. Qed.

(** A property of the shared objects alone holds in every
    configuration of a crawl when it holds after the start link is
    produced and each half of an iteration keeps it. *)
Lemma shared_invariant (start_url : string) (parallelism : Z)
    (P : world → Prop) :
  P (produced (mkLink 0 start_url) empty_world) →
  (∀ i link q s, P s → queue s = link :: q →
     P (consume_begin i link (set_queue (λ _, q) s)).2) →
  (∀ i link s, P s → P (consume_resume i link s).2) →
  ∀ c, reachable start_url parallelism c → P (shared c).
Proof.
  intros Hinit Hbegin Hresume.
  apply reachable_ind; [done|].
  intros i c _ Hc.
  destruct (consume_step_kind i c) as [|link q r s' _ Hq Hrun|link r s' _ Hrun];
    [done| |]; cbn.
  - specialize (Hbegin i link q _ Hc Hq). by rewrite Hrun in Hbegin.
  - specialize (Hresume i link _ Hc). by rewrite Hrun in Hresume.
Qed.

Lemma step_preserves (P : world → Prop) :
  (∀ i link q s, P s → queue s = link :: q →
     P (consume_begin i link (set_queue (λ _, q) s)).2) →
  (∀ i link s, P s → P (consume_resume i link s).2) →
  ∀ i c, P (shared c) → P (shared (consume_step i c)).
Proof.
  intros Hbegin Hresume i c Hc.
  destruct (consume_step_kind i c) as [|link q r s' _ Hq Hrun|link r s' _ Hrun];
    [done| |]; cbn.
  - specialize (Hbegin i link q _ Hc Hq). by rewrite Hrun in Hbegin.
  - specialize (Hresume i link _ Hc). by rewrite Hrun in Hresume.
Qed.

Lemma run_preserves (P : world → Prop) :
  (∀ i link q s, P s → queue s = link :: q →
     P (consume_begin i link (set_queue (λ _, q) s)).2) →
  (∀ i link s, P s → P (consume_resume i link s).2) →
  ∀ sch c, P (shared c) → P (shared (run sch c)).
Proof.
  intros Hbegin Hresume sch c Hc.
  induction sch as [|i sch IH] using rev_ind; [done|].
  rewrite run_snoc. by apply step_preserves.
Qed.

(** The first half of an iteration keeps what taking the link, sending
    the request and the end of an iteration keep. *)
Lemma consume_begin_preserves (P : world → Prop) i link q s :
  P (taken i link q s) →
  (∀ s, P s → P (emit (HttpGet (url link)) s)) →
  (∀ s, P s → P (finish_item i link s).2) →
  P (consume_begin i link (set_queue (λ _, q) s)).2.
Proof.
  intros Htaken Hreq Hfin. rewrite consume_begin_eq.
  destruct (depth link <? max_depth); [by apply Hreq|].
  specialize (Hfin _ Htaken).
  by destruct (finish_item i link (taken i link q s)) as [[[]|e] s'].
Qed.

(** *** The two URL sets *)

Lemma later_refl s : later s s.
Proof. split; [done|]. exists []. split; [done|]. by intros l ?%elem_of_nil. Qed.

(** An event that is not a [QPut] can always be added. *)
Lemma later_emit s0 s e (f : world → world) :
  put_of e = None →
  trace (f s) = e :: trace s →
  visited_urls s ⊆ visited_urls (f s) →
  later s0 s → later s0 (f s).
Proof.
  intros He Htr Hv [Hsub (evs & Hevs & Hput)].
  split; [set_solver|].
  exists (e :: evs). split; [by rewrite Htr, Hevs|].
  intros l [<-|Hin]%elem_of_cons; [done | auto].
Qed.

Lemma later_same s0 s (f : world → world) :
  trace (f s) = trace s →
  visited_urls s ⊆ visited_urls (f s) →
  later s0 s → later s0 (f s).
Proof.
  intros Htr Hv [Hsub (evs & Hevs & Hput)].
  split; [set_solver|].
  exists evs. by rewrite Htr.
Qed.

Lemma frontier_candidate link x s :
  frontier_ok s → frontier_ok (process_candidate link x s).2.
Proof.
  intros Hs. destruct (process_candidate_outcome link x s); try done.
  unfold frontier_ok in *; cbn in *. set_solver.
Qed.

Lemma frontier_finish i link s :
  frontier_ok s → frontier_ok (finish_item i link s).2.
Proof.
  intros Hs. destruct (finish_item_outcome i link s); try done;
    unfold frontier_ok in *; cbn in *; set_solver.
Qed.

Lemma later_candidate s0 link x s :
  later s0 s → later s0 (process_candidate link x s).2.
Proof.
  intros Hs.
  destruct (process_candidate_outcome link x s)
    as [ | | | |u _ _ Hv _]; try done.
  destruct Hs as [Hsub (evs & Hevs & Hput)].
  split; [done|].
  exists (QPut (mkLink (depth link + 1) u) :: evs).
  split; [cbn; by rewrite Hevs|].
  intros l [[= ->]|Hin]%elem_of_cons; [cbn; set_solver | auto].
Qed.

Lemma later_finish s0 i link s :
  later s0 s → later s0 (finish_item i link s).2.
Proof.
  intros Hs. destruct (finish_item_outcome i link s); [done| |].
  - apply (later_same s0 s (moved (url link))); [done|cbn; set_solver|done].
  - apply (later_emit s0 _ (QDone i) (task_done i)); [done..|].
    apply (later_same s0 s (moved (url link))); [done|cbn; set_solver|done].
Qed.

Lemma later_run s0 sch c :
  later s0 (shared c) → later s0 (shared (run sch c)).
Proof.
  apply (run_preserves (later s0)).
  - intros i link q s Hs _. apply consume_begin_preserves.
    + apply (later_emit s0 s (QGet i link) (taken i link q)); done.
    + intros s1 Hs1.
      by apply (later_emit s0 s1 (HttpGet (url link)) (emit _)).
    + intros s1. apply later_finish.
  - intros i link. apply consume_resume_preserves.
    + intros x s. apply later_candidate.
    + intros s. apply later_finish.
Qed.

Lemma frontier_reachable start_url parallelism c :
  reachable start_url parallelism c → frontier_ok (shared c).
Proof.
  apply (shared_invariant start_url parallelism frontier_ok).
  - unfold frontier_ok; cbn. set_solver.
  - intros i link q s Hs _. by apply consume_begin_preserves;
      [|intros s1 Hs1|intros s1; apply frontier_finish].
  - intros i link. apply consume_resume_preserves.
    + intros x s. apply frontier_candidate.
    + intros s. apply frontier_finish.
Qed.

(** C2. Whenever the event loop regains control (after any schedule
    [sch]), [urls_to_visit] and [visited_urls] have no URL in common; and
    a URL that is visited then stays visited, is absent from
    [urls_to_visit] and is not produced again at any later point (after
    any further schedule [sch']).  The sets start empty, as they are when
    the module is loaded; [produce] is the only code that inserts into
    [urls_to_visit], and it puts the link on the queue in the same
    call. *)
Theorem frontier_sets_disjoint (start_url : string) (parallelism : Z)
    (sch sch' : list nat) :
  let c := run sch (crawl_init start_url parallelism) in
  let c' := run sch' c in
  urls_to_visit (shared c) ## visited_urls (shared c) ∧
  ∀ u, u ∈ visited_urls (shared c) →
       u ∈ visited_urls (shared c') ∧
       (u ∉ urls_to_visit (shared c')) ∧
       ∃ evs, trace (shared c') = evs ++ trace (shared c) ∧
              ∀ l, QPut l ∈ evs → url l ≠ u.
Proof.
  intros c c'.
  assert (reachable start_url parallelism c) as Hc by by exists sch.
  split; [by apply (frontier_reachable start_url parallelism)|].
  intros u Hu.
  destruct (later_run (shared c) sch' c (later_refl _))
    as [Hsub (evs & Hevs & Hput)].
  assert (u ∈ visited_urls (shared c')) as Hu' by set_solver.
  split; [done|]. split.
  - pose proof (frontier_reachable start_url parallelism c'
                  (reachable_run _ _ _ sch' Hc)) as Hdisj.
    unfold frontier_ok in Hdisj. set_solver.
  - exists evs. split; [done|].
    intros l Hl Heq. apply (Hput l Hl). by rewrite Heq.
Qed.

(** *** Items taken from the queue and not yet done *)

Lemma busy_cons t ts : busy (t :: ts) = holds_item t + busy ts.
Proof. reflexivity. Qed.

Lemma busy_nonneg ts : 0 ≤ busy ts.
Proof.
  induction ts as [|t ts IH]; [done|].
  rewrite busy_cons. destruct t; cbn [holds_item]; lia.
Qed.

Lemma busy_insert ts i t0 t :
  ts !! i = Some t0 →
  busy (<[i := t]> ts) = busy ts - holds_item t0 + holds_item t.
Proof.
  revert i. induction ts as [|t1 ts IH]; intros [|i] Hi; try done.
  - injection Hi as ->.
    change (<[0%nat := t]> (t0 :: ts)) with (t :: ts).
    rewrite !busy_cons. lia.
  - change (<[S i := t]> (t1 :: ts)) with (t1 :: <[i := t]> ts).
    rewrite !busy_cons, (IH i Hi). lia.
Qed.

Lemma busy_failed ts i e : ts !! i = Some (Failed e) → 1 ≤ busy ts.
Proof.
  revert i. induction ts as [|t ts IH]; intros [|i] Hi; try done;
    rewrite busy_cons.
  - injection Hi as ->. pose proof (busy_nonneg ts). cbn [holds_item]. lia.
  - specialize (IH i Hi). destruct t; cbn [holds_item]; lia.
Qed.

Lemma busy_zero ts i t : busy ts = 0 → ts !! i = Some t → t = Waiting.
Proof.
  revert i. induction ts as [|t1 ts IH]; intros [|i] H0 Hi; try done;
    rewrite busy_cons in H0; pose proof (busy_nonneg ts).
  - injection Hi as ->. destruct t; cbn [holds_item] in H0; [done|lia..].
  - apply (IH i); [destruct t1; cbn [holds_item] in H0; lia | done].
Qed.

Lemma candidate_load link x s : load (process_candidate link x s).2 = load s.
Proof.
  destruct (process_candidate_outcome link x s); try done.
  unfold load; cbn. rewrite length_app; cbn. lia.
Qed.

Lemma finish_load i link s :
  load (finish_item i link s).2 = load s - done_by (finish_item i link s).1.
Proof.
  destruct (finish_item_outcome i link s); unfold load; cbn; lia.
Qed.

Lemma resume_load i link s :
  load (consume_resume i link s).2
    = load s - done_by (consume_resume i link s).1.
Proof.
  unfold consume_resume, bind, lift.
  destruct (fetch_links (url link)) as [next_links|e]; [|cbn; lia].
  pose proof (for_each_preserves (λ s', load s' = load s)
                (process_candidate link) (λ x s' Hs',
                  eq_trans (candidate_load link x s') Hs')
                next_links s eq_refl) as Hloop.
  destruct (for_each next_links _ s) as [[[]|e] s1]; cbn in *; [|lia].
  rewrite finish_load, Hloop. done.
Qed.

Lemma begin_load i link q s :
  queue s = link :: q →
  load (consume_begin i link (set_queue (λ _, q) s)).2
    = load s + 1
      - match (consume_begin i link (set_queue (λ _, q) s)).1 with
        | Ok false => 1
        | _ => 0
        end.
Proof.
  intros Hq. rewrite consume_begin_eq.
  assert (load (taken i link q s) = load s + 1) as Htaken.
  { unfold load; cbn. rewrite Hq; cbn. lia. }
  destruct (depth link <? max_depth); [cbn; unfold load in *; cbn in *; lia|].
  pose proof (finish_load i link (taken i link q s)) as Hfin.
  destruct (finish_item i link (taken i link q s)) as [[[]|e] s'];
    cbn in *; lia.
Qed.

(** The queue counts as unfinished the items that wait in it and one item
    for each consumer that is not waiting in [queue.get()]. *)
Lemma unfinished_accounted start_url parallelism c :
  reachable start_url parallelism c →
  load (shared c) = busy (consumers c).
Proof.
  revert c. apply reachable_ind.
  - unfold load; cbn.
    induction (Z.to_nat parallelism) as [|n IH]; cbn in *; lia.
  - intros i c _ Hc.
    destruct (consume_step_kind i c) as [|link q r s' Hi Hq Hrun|link r s' Hi Hrun];
      [done| |]; cbn.
    + pose proof (begin_load i link q (shared c) Hq) as Hload.
      rewrite Hrun in Hload; cbn in Hload.
      rewrite (busy_insert _ i Waiting) by done.
      destruct r as [[]|e]; cbn; lia.
    + pose proof (resume_load i link (shared c)) as Hload.
      rewrite Hrun in Hload; cbn in Hload.
      rewrite (busy_insert _ i (Fetching link)) by done.
      destruct r as [[]|e]; cbn in *; lia.
Qed.

(** When [queue.join()] returns, the queue is empty and every consumer is
    waiting in [queue.get()]. *)
Lemma joined_idle start_url parallelism c :
  reachable start_url parallelism c →
  joined c = true →
  queue (shared c) = [] ∧ ∀ i t, consumers c !! i = Some t → t = Waiting.
Proof.
  intros Hc Hj. apply Z.eqb_eq in Hj.
  pose proof (unfinished_accounted _ _ _ Hc) as Hload.
  pose proof (busy_nonneg (consumers c)).
  unfold load in Hload.
  assert (length (queue (shared c)) = 0%nat) as Hlen by lia.
  split; [by destruct (queue (shared c))|].
  intros i t. apply busy_zero. lia.
Qed.

Lemma failed_stays i e sch c :
  consumers c !! i = Some (Failed e) →
  consumers (run sch c) !! i = Some (Failed e).
Proof.
  intros Hi. induction sch as [|j sch IH] using rev_ind; [done|].
  rewrite run_snoc.
  destruct (consume_step_kind j (run sch c)) as [|link q r s' Hj _ _|link r s' Hj _];
    [done|..]; cbn.
  all: destruct (decide (i = j)) as [->|Hne]; [congruence|].
  all: by rewrite list_lookup_insert_ne.
Qed.

(** Once a consumer has ended with an exception, [queue.join()] never
    returns: the item it held is never marked done. *)
Lemma failed_never_joined start_url parallelism c i e sch :
  reachable start_url parallelism c →
  consumers c !! i = Some (Failed e) →
  consumers (run sch c) !! i = Some (Failed e) ∧ joined (run sch c) = false.
Proof.
  intros Hc Hi.
  pose proof (failed_stays i e sch c Hi) as Hi'.
  split; [done|].
  pose proof (unfinished_accounted _ _ _ (reachable_run _ _ _ sch Hc)) as Hload.
  pose proof (busy_failed _ _ _ Hi').
  unfold joined, load in *. apply Z.eqb_neq. lia.
Qed.


(** *** Every URL is put on the queue once *)

Lemma accounted_candidate link x s :
  accounted s → accounted (process_candidate link x s).2.
Proof.
  intros Hs.
  destruct (process_candidate_outcome link x s)
    as [ | | | |u _ _ Hv Ht]; try done.
  destruct Hs as (Hperm & Hdup & Hsets & Hreq).
  unfold accounted, enqueued, dequeued, requested in *; cbn in *.
  split; [|split; [|split]].
  - rewrite Hperm, app_assoc. apply Permutation_cons_append.
  - apply NoDup_cons. split; [|done].
    intros (l & Hu & Hl)%list_elem_of_fmap.
    specialize (Hsets l Hl). rewrite <-Hu in Hsets. set_solver.
  - intros l [->|Hl]%elem_of_cons; [cbn; set_solver|].
    specialize (Hsets l Hl). set_solver.
  - done.
Qed.

Lemma accounted_finish i link s :
  accounted s → accounted (finish_item i link s).2.
Proof.
  intros Hs.
  destruct (finish_item_outcome i link s) as [ |Hin _|Hin _]; [done|..].
  all: destruct Hs as (Hperm & Hdup & Hsets & Hreq).
  all: unfold accounted, enqueued, dequeued, requested in *; cbn in *.
  all: split; [done|split; [done|split; [|done]]].
  all: intros l Hl; specialize (Hsets l Hl).
  all: destruct (decide (url l = url link)); set_solver.
Qed.

Lemma accounted_begin i link q s :
  accounted s → queue s = link :: q →
  accounted (consume_begin i link (set_queue (λ _, q) s)).2.
Proof.
  intros (Hperm & Hdup & Hsets & Hreq) Hq. rewrite consume_begin_eq.
  rewrite Hq in Hperm.
  assert (enqueued s ≡ₚ (link :: dequeued s) ++ q) as Hperm'.
  { by rewrite Hperm, <-Permutation_middle. }
  destruct (Z.ltb_spec (depth link) max_depth) as [Hlt|Hge].
  - unfold accounted, enqueued, dequeued, requested in *; cbn in *.
    split; [done|split; [done|split; [done|]]].
    rewrite decide_True by done. cbn. by rewrite Hreq.
  - assert (accounted (taken i link q s)) as Htaken.
    { unfold accounted, enqueued, dequeued, requested in *; cbn in *.
      split; [done|split; [done|split; [done|]]].
      rewrite decide_False by lia. done. }
    pose proof (accounted_finish i link _ Htaken) as Hfin.
    by destruct (finish_item i link (taken i link q s)) as [[[]|e] s'].
Qed.

Lemma accounted_reachable start_url parallelism c :
  reachable start_url parallelism c → accounted (shared c).
Proof.
  apply (shared_invariant start_url parallelism accounted).
  - unfold accounted, enqueued, dequeued, requested; cbn.
    split; [done|]. split; [apply NoDup_singleton|]. split; [|done].
    intros l ->%list_elem_of_singleton. cbn. set_solver.
  - intros i link q s. apply accounted_begin.
  - intros i link. apply consume_resume_preserves.
    + intros x s. apply accounted_candidate.
    + intros s. apply accounted_finish.
Qed.


(** *** The depths recorded in the graph *)

Lemma nx_touch_present n (m : gmap string (option Z)) :
  is_Some (m !! n) → nx_touch n m = m.
Proof. intros [o Ho]. unfold nx_touch. by rewrite Ho. Qed.

Lemma nx_touch_lookup n k o (m : gmap string (option Z)) :
  m !! n = Some o → nx_touch k m !! n = Some o.
Proof.
  intros Hn. unfold nx_touch. destruct (m !! k) eqn:Hk; [done|].
  rewrite lookup_insert_ne; [done | congruence].
Qed.

(** [add_node] then [add_edge] leave the child at the depth of the link
    plus one. *)
Lemma discovered_child link u s :
  nodes (graph (discovered link u s)) !! u = Some (Some (depth link + 1)).
Proof. cbn. do 2 apply nx_touch_lookup. apply lookup_insert_eq. Qed.

(** When the parent is a node, the child is the only node written. *)
Lemma discovered_nodes link u s :
  url link ∈ dom (nodes (graph s)) →
  nodes (graph (discovered link u s))
    = <[u := Some (depth link + 1)]> (nodes (graph s)).
Proof.
  intros Hparent. cbn.
  rewrite (nx_touch_present (url link)).
  - apply nx_touch_present. rewrite lookup_insert_eq. by eexists.
  - apply elem_of_dom. rewrite dom_insert_L. set_solver.
Qed.

Lemma depth_insert D u d s (f : world → world) :
  d ≤ max_depth →
  queue (f s) = queue s →
  nodes (graph (f s)) = <[u := Some d]> (nodes (graph s)) →
  depth_bounded D s → depth_bounded D (f s).
Proof.
  intros Hd Hq Hn (Hqueue & Hnodes & HD).
  unfold depth_bounded. rewrite Hq, Hn, dom_insert_L.
  split; [done|]. split; [|set_solver].
  intros u' o. destruct (decide (u = u')) as [<-|Hne].
  - rewrite lookup_insert_eq. intros [= <-]. by exists d.
  - rewrite lookup_insert_ne by done. apply Hnodes.
Qed.

Lemma depth_candidate D link x s :
  depth link < max_depth → url link ∈ D →
  depth_bounded D s → depth_bounded D (process_candidate link x s).2.
Proof.
  intros Hlt Hlink Hs.
  assert (url link ∈ dom (nodes (graph s))) as Hparent.
  { destruct Hs as (_ & _ & HD). set_solver. }
  destruct (process_candidate_outcome link x s) as [ | |u|u|u]; try done.
  1-2: apply (depth_insert D u (depth link + 1) s (discovered link u));
         [lia | done | by apply discovered_nodes | done].
  assert (depth_bounded D (discovered link u s)) as (Hqueue & Hnodes & HD).
  { apply (depth_insert D u (depth link + 1) s (discovered link u));
      [lia | done | by apply discovered_nodes | done]. }
  split; [|done].
  intros l [Hl|Hl%list_elem_of_singleton]%elem_of_app;
    [auto | subst l; cbn; lia].
Qed.

Lemma depth_finish D i link s :
  depth_bounded D s → depth_bounded D (finish_item i link s).2.
Proof. intros Hs. by destruct (finish_item_outcome i link s). Qed.

Lemma depth_bounded_dom D s :
  depth_bounded D s → depth_bounded (dom (nodes (graph s))) s.
Proof. intros (? & ? & _). by split; [|split]. Qed.

Lemma depth_inv_step i c : depth_inv c → depth_inv (consume_step i c).
Proof.
  intros [Hs Hfetching]. set (D := dom (nodes (graph (shared c)))) in *.
  assert (∀ t s',
    depth_bounded D s' →
    (∀ link, t = Fetching link →
       depth link < max_depth ∧ url link ∈ dom (nodes (graph s'))) →
    depth_inv (set_task i t c s')) as Hset.
  { intros t s' Hs' Ht. split; [by apply (depth_bounded_dom D)|].
    intros j link. cbn. destruct (decide (i = j)) as [<-|Hne].
    - intros Hj. apply Ht.
      apply list_lookup_insert_Some in Hj as [[_ [<- _]]|[? _]]; done.
    - rewrite list_lookup_insert_ne by done. intros Hj.
      destruct (Hfetching j link Hj) as [? ?]. split; [done|].
      destruct Hs' as (_ & _ & HD). set_solver. }
  destruct (consume_step_kind i c) as [|link q r s' Hi Hq Hrun|link r s' Hi Hrun].
  - by split.
  - assert (depth link ≤ max_depth) as Hle.
    { destruct Hs as (Hqueue & _ & _). apply Hqueue. rewrite Hq. by left. }
    assert (depth_bounded D (taken i link q (shared c))) as Htaken.
    { apply (depth_insert D (url link) (depth link) (set_queue (λ _, q)
               (shared c)) (λ s, set_graph _ (emit (QGet i link) s)));
        [done..|].
      destruct Hs as (Hqueue & Hnodes & HD). split; [|done].
      intros l Hl. apply Hqueue. rewrite Hq. by right. }
    rewrite consume_begin_eq in Hrun.
    destruct (Z.ltb_spec (depth link) max_depth) as [Hlt|Hge].
    + injection Hrun as <- <-. apply Hset; [done|].
      intros ? [= <-]. split; [done|]. cbn. rewrite dom_insert_L. set_solver.
    + pose proof (depth_finish D i link _ Htaken) as Hfin.
      destruct (finish_item i link (taken i link q (shared c)))
        as [[[]|e] s1]; injection Hrun as <- <-; by apply Hset.
  - destruct (Hfetching i link Hi) as [Hlt Hparent].
    pose proof (consume_resume_preserves (depth_bounded D) i link
                  (λ x s, depth_candidate D link x s Hlt Hparent)
                  (depth_finish D i link) (shared c) Hs) as Hres.
    rewrite Hrun in Hres.
    destruct r as [[]|e]; by apply Hset.
Qed.

Lemma depth_inv_reachable start_url parallelism c :
  0 ≤ max_depth → reachable start_url parallelism c → depth_inv c.
Proof.
  intros Hmax. revert c. apply reachable_ind.
  - split.
    + split; [|split; [|done]].
      * intros l ->%list_elem_of_singleton. done.
      * intros u o. cbn. by rewrite lookup_empty.
    + intros i link. cbn. intros Hi. by apply lookup_replicate in Hi as [[=] _].
  - intros i c _. apply depth_inv_step.
Qed.

(** C5, amended. When [max_depth] is not negative, every node of the
    graph carries a depth, and that depth is at most [max_depth]: only
    links of a depth below [max_depth] are fetched, and a child is
    recorded one level below its parent. *)
Theorem node_depths_bounded (start_url : string) (parallelism : Z)
    (c : config) :
  0 ≤ max_depth →
  reachable start_url parallelism c →
  (∀ u o, nodes (graph (shared c)) !! u = Some o →
          ∃ d, o = Some d ∧ d ≤ max_depth) ∧
  (∀ i link, consumers c !! i = Some (Fetching link) →
             depth link < max_depth) ∧
  (∀ u, u ∈ requested (shared c) →
        ∃ l, l ∈ dequeued (shared c) ∧ url l = u ∧ depth l < max_depth) ∧
  (∀ link u s,
     nodes (graph (discovered link u s)) !! u = Some (Some (depth link + 1))).
Proof.
  intros Hmax Hc.
  destruct (depth_inv_reachable _ _ _ Hmax Hc) as [(_ & Hnodes & _) Hfetching].
  split; [done|]. split; [intros i link Hi; by apply (Hfetching i)|].
  split; [|apply discovered_child].
  destruct (accounted_reachable _ _ _ Hc) as (_ & _ & _ & Hreq).
  intros u. rewrite Hreq.
  intros (l & -> & [Hl ?]%list_elem_of_filter)%list_elem_of_fmap.
  by exists l.
Qed.

(** *** Candidates that cannot be parsed *)

Lemma rmap_raises {A B} (f : A → result B) (l : list A) (x : A) :
  x ∈ l → raises (f x) → raises (rmap f l).
Proof.
  intros Hx Hf. induction l as [|y l IH]; [by apply elem_of_nil in Hx|].
  cbn. apply elem_of_cons in Hx as [<-|Hx].
  - destruct Hf as [e ->]. by exists e.
  - destruct (f y) as [b|e]; cbn; [|by exists e].
    destruct (IH Hx) as [e ->]. by exists e.
Qed.

Lemma rmap_elem {A B} (f : A → result B) (l : list A) (l' : list B) (x : A) :
  rmap f l = Ok l' → x ∈ l → ∃ y, f x = Ok y ∧ y ∈ l'.
Proof.
  revert l'. induction l as [|a l IH]; intros l' Hmap Hx;
    [by apply elem_of_nil in Hx|].
  cbn in Hmap. destruct (f a) as [b|] eqn:Hfa; [|done]. cbn in Hmap.
  destruct (rmap f l) as [bs|]; [|done]. injection Hmap as <-.
  apply elem_of_cons in Hx as [->|Hx].
  - exists b. split; [done | by left].
  - destruct (IH bs eq_refl Hx) as (y & Hy & Hin).
    exists y. split; [done | by right].
Qed.

Lemma for_each_raises {A} (body : A → M unit) (l : list A) (x : A) :
  x ∈ l → (∀ s, raises (body x s).1) → ∀ s, raises (for_each l body s).1.
Proof.
  intros Hx Hbody. induction l as [|y l IH]; intros s;
    [by apply elem_of_nil in Hx|].
  cbn [for_each]. unfold bind.
  apply elem_of_cons in Hx as [<-|Hx].
  - destruct (Hbody s) as [e He].
    destruct (body x s) as [r s1]; cbn in He; subst r. by exists e.
  - destruct (body y s) as [[[]|e] s1]; [by apply IH | by exists e].
Qed.

(** An absent [href] goes through [fetch_links] as it is:
    [is_relative_url(None)] is false. *)
Lemma resolve_href_none base :
  resolve_href urlparse_netloc urljoin base None = Ok None.
Proof. reflexivity. Qed.

Lemma resolve_href_unparsable base h :
  raises (urlparse_netloc h) →
  raises (resolve_href urlparse_netloc urljoin base (Some h)).
Proof.
  intros [e He]. exists e.
  unfold resolve_href, is_relative_url, get_domain. by rewrite He.
Qed.

Lemma candidate_visited link x s :
  visited_urls (process_candidate link x s).2 = visited_urls s.
Proof. by destruct (process_candidate_outcome link x s). Qed.

(** [re.match] raises on an absent candidate, whatever the pattern. *)
Lemma process_candidate_none link s :
  ∃ e, re_match None = Raise e ∧ process_candidate link None s = (Raise e, s).
Proof.
  unfold process_candidate, bind, lift. unfold re_match.
  destruct url_regex; by eexists.
Qed.

Lemma candidate_none_raises link s : raises (process_candidate link None s).1.
Proof.
  destruct (process_candidate_none link s) as (e & _ & ->). by exists e.
Qed.

(** A page with an absent or unparsable [href] ends the iteration with
    an exception, before the link is marked visited. *)
Lemma consume_resume_bad_href i link hrefs s :
  http_get (url link) = Ok hrefs →
  None ∈ hrefs ∨ (∃ h, Some h ∈ hrefs ∧ raises (urlparse_netloc h)) →
  (∃ e, (consume_resume i link s).1 = Raise e) ∧
  visited_urls (consume_resume i link s).2 = visited_urls s.
Proof.
  intros Hget Hbad.
  unfold consume_resume, fetch_links, bind, lift.
  rewrite Hget. cbn [rbind].
  destruct (rmap _ hrefs) as [cands|e] eqn:Hmap; [|by split; [exists e|]].
  assert (None ∈ cands) as Hnone.
  { destruct Hbad as [Hnone|(h & Hh & Hraise)].
    - destruct (rmap_elem _ _ _ _ Hmap Hnone) as (y & Hy & Hin).
      rewrite resolve_href_none in Hy. by injection Hy as <-.
    - destruct (rmap_raises (resolve_href urlparse_netloc urljoin (url link))
                  hrefs (Some h) Hh
                  (resolve_href_unparsable (url link) h Hraise)) as [e He].
      congruence. }
  pose proof (for_each_raises (process_candidate link) cands None Hnone
                (candidate_none_raises link) s) as [e He].
  pose proof (for_each_preserves (λ s', visited_urls s' = visited_urls s)
                (process_candidate link)
                (λ x s' Hs', eq_trans (candidate_visited link x s') Hs')
                cands s eq_refl) as Hv.
  destruct (for_each cands _ s) as [r s1]; cbn in *; subst r.
  by split; [exists e|].
Qed.

Lemma has_valid_domain_true u :
  has_valid_domain (Some u) = Ok true →
  ∃ d, urlparse_netloc u = Ok d ∧ d ∈ allowed_domains.
Proof.
  unfold has_valid_domain, get_domain.
  destruct (urlparse_netloc u) as [d|e]; cbn; [|done].
  intros [= Hd%bool_decide_eq_true]. by exists d.
Qed.

Lemma in_scope_candidate start_url link x s :
  enqueued_in_scope start_url s →
  enqueued_in_scope start_url (process_candidate link x s).2.
Proof.
  intros Hs.
  destruct (process_candidate_outcome link x s)
    as [ | | | |u _ Hdom _ _]; try done.
  intros l. unfold enqueued; cbn.
  intros [->|Hl]%elem_of_cons; [right; by apply has_valid_domain_true|].
  by apply Hs.
Qed.

Lemma in_scope_finish start_url i link s :
  enqueued_in_scope start_url s →
  enqueued_in_scope start_url (finish_item i link s).2.
Proof. intros Hs. by destruct (finish_item_outcome i link s). Qed.

Lemma in_scope_reachable start_url parallelism c :
  reachable start_url parallelism c →
  enqueued_in_scope start_url (shared c).
Proof.
  apply (shared_invariant start_url parallelism (enqueued_in_scope start_url)).
  - intros l. unfold enqueued; cbn. intros ->%list_elem_of_singleton. by left.
  - intros i link q s Hs _. apply consume_begin_preserves; [done..|].
    intros s1. apply in_scope_finish.
  - intros i link. apply consume_resume_preserves.
    + intros x s. apply in_scope_candidate.
    + intros s. apply in_scope_finish.
Qed.


(** *** The first iteration *)

Lemma finish_item_ok i link s :
  url link ∈ urls_to_visit s → 0 < unfinished s →
  finish_item i link s = (Ok (), task_done i (moved (url link) s)).
Proof.
  intros Hin Hpos.
  unfold finish_item, mark_visited, queue_task_done, is_url_to_visit,
    bind, gets, modify, raise.
  rewrite bool_decide_eq_true_2 by done. cbn.
  by destruct (Z.leb_spec (unfinished s) 0); [lia|].
Qed.

(** The first time a consumer is resumed, it takes the start link, makes
    it a node and, depending on the depth bound alone, requests it or
    marks it visited. *)
Lemma first_step i start_url parallelism :
  consume_step i (crawl_init start_url parallelism) =
    if decide (i < Z.to_nat parallelism)%nat then
      if 0 <? max_depth then crawl_fetching i start_url parallelism
      else crawl_done i start_url parallelism
    else crawl_init start_url parallelism.
Proof.
  unfold consume_step. cbn [crawl_init consumers shared].
  case_decide as Hi.
  - rewrite lookup_replicate_2 by done.
    rewrite produce_eq. cbn [snd queue produced emit set_unfinished set_queue
      set_urls_to_visit empty_world app].
    rewrite (consume_begin_eq i (mkLink 0 start_url) []
               (produced (mkLink 0 start_url) empty_world)).
    cbn [depth].
    destruct (0 <? max_depth); [done|].
    rewrite finish_item_ok; [|cbn; set_solver|cbn; lia].
    unfold set_task, crawl_done, crawl_init. cbn [consumers].
    by rewrite insert_replicate.
  - rewrite (proj1 (lookup_replicate_None _ _ _)); [done|lia].
Qed.

Lemma step_when_done i j start_url parallelism :
  consume_step j (crawl_done i start_url parallelism)
    = crawl_done i start_url parallelism.
Proof.
  unfold consume_step. cbn [crawl_done consumers].
  destruct (replicate _ Waiting !! j) as [t|] eqn:Hj; [|done].
  by apply lookup_replicate in Hj as [-> _].
Qed.

(** With a depth bound of zero or less, a crawl has two configurations:
    the initial one and the final one. *)
Lemma reachable_at_bound start_url parallelism c :
  max_depth ≤ 0 →
  reachable start_url parallelism c →
  c = crawl_init start_url parallelism ∨
  ∃ i, c = crawl_done i start_url parallelism.
Proof.
  intros Hmax. revert c. apply reachable_ind; [by left|].
  intros j c _ [->|[i ->]].
  - rewrite first_step.
    destruct (Z.ltb_spec 0 max_depth); [lia|].
    case_decide; [right; by exists j | by left].
  - right. exists i. apply step_when_done.
Qed.

(** C8. With [max_depth = 0], no request is ever sent and no edge is ever
    recorded; when [queue.join()] returns, the graph has exactly one
    node, the start URL at depth 0; and [queue.join()] does return in
    every run in which a consumer is resumed at least once. *)
Theorem depth_zero_crawl (start_url : string) (parallelism : Z)
    (sch : list nat) :
  max_depth = 0 →
  let c := run sch (crawl_init start_url parallelism) in
  requested (shared c) = [] ∧
  edges (graph (shared c)) = ∅ ∧
  (joined c = true → nodes (graph (shared c)) = {[ start_url := Some 0 ]}) ∧
  (∀ i, i ∈ sch → (i < Z.to_nat parallelism)%nat → joined c = true).
Proof.
  intros Hmax c.
  assert (max_depth ≤ 0) as Hle by lia.
  split; [|split; [|split]].
  - destruct (reachable_at_bound start_url parallelism c Hle) as [->|[i ->]];
      [by exists sch|done..].
  - destruct (reachable_at_bound start_url parallelism c Hle) as [->|[i ->]];
      [by exists sch|done..].
  - destruct (reachable_at_bound start_url parallelism c Hle) as [->|[i ->]];
      [by exists sch|done|].
    intros _. cbn. apply insert_empty.
  - unfold c. clear c. induction sch as [|j sch IH] using rev_ind;
      intros i Hi Hlt; [by apply elem_of_nil in Hi|].
    rewrite run_snoc.
    destruct (reachable_at_bound start_url parallelism
                (run sch (crawl_init start_url parallelism)) Hle)
      as [Heq|[k Heq]]; [by exists sch|..]; rewrite Heq.
    + apply elem_of_app in Hi as [Hi|Hi%list_elem_of_singleton].
      * specialize (IH i Hi Hlt). by rewrite Heq in IH.
      * subst j. rewrite first_step, decide_True by done.
        by destruct (Z.ltb_spec 0 max_depth); [lia|].
    + by rewrite step_when_done.
Qed.

(** ** Further properties of the crawl *)

(** *** The cases of a step *)

Lemma consume_step_case i c : step_case i c (consume_step i c).
Proof.
  unfold consume_step.
  destruct (consumers c !! i) as [[|link|e]|] eqn:Hi; try apply sc_idle.
  - destruct (queue (shared c)) as [|link q] eqn:Hq; [apply sc_idle|].
    rewrite consume_begin_eq.
    destruct (Z.ltb_spec (depth link) max_depth) as [Hlt|Hge].
    + by apply sc_fetch.
    + pose proof (finish_item_outcome i link (taken i link q (shared c)))
        as Hout.
      destruct (finish_item i link (taken i link q (shared c)))
        as [[[]|e] s'];
        exact (sc_leaf i c link q _ s' Hi Hq Hge Hout).
  - unfold consume_resume, bind, lift.
    destruct (fetch_links (url link)) as [cands|e] eqn:Hfetch;
      [|by eapply sc_fetch_error].
    destruct (for_each cands (process_candidate link) (shared c))
      as [[[]|e] s1] eqn:Hloop; [|by eapply sc_loop_error].
    pose proof (finish_item_outcome i link s1) as Hout.
    destruct (finish_item i link s1) as [[[]|e] s'];
      exact (sc_done i c link cands s1 _ s' Hi Hfetch Hloop Hout).
Qed.

(** A loop whose body never raises on the elements of the list ends
    without an exception. *)
Lemma for_each_ok {A} (body : A → M unit) (l : list A) :
  (∀ x s, x ∈ l → (body x s).1 = Ok ()) →
  ∀ s, (for_each l body s).1 = Ok ().
Proof.
  induction l as [|x l IH]; intros Hbody s; [done|].
  cbn [for_each]. unfold bind.
  pose proof (Hbody x s ltac:(by left)) as Hx.
  destruct (body x s) as [r s1]; cbn in Hx; subst r.
  apply IH. intros y s' Hy. apply Hbody. by right.
Qed.

(** When the loop ends without an exception, every element was handled,
    and what its handling established still holds at the end if every
    later iteration keeps it. *)
Lemma for_each_all {A} (body : A → M unit) (Q : A → world → Prop) :
  (∀ x s, (body x s).1 = Ok () → Q x (body x s).2) →
  (∀ x y s, Q x s → Q x (body y s).2) →
  ∀ l s, (for_each l body s).1 = Ok () →
         ∀ x, x ∈ l → Q x (for_each l body s).2.
Proof.
  intros Hpost Hkeep l. induction l as [|y l IH]; intros s Hok x Hx;
    [by apply elem_of_nil in Hx|].
  cbn [for_each] in *. unfold bind in *.
  pose proof (Hpost y s) as Hy.
  destruct (body y s) as [[[]|e] s1] eqn:Hbody; [|done]. cbn in Hy.
  apply elem_of_cons in Hx as [->|Hx]; [|by apply IH].
  apply (for_each_preserves (Q y) body (λ z s', Hkeep y z s')).
  by apply Hy.
Qed.

(** *** What the loop over the candidates does *)

Lemma grown_frontier_candidate link s x s1 :
  grown_frontier link s s1 →
  grown_frontier link s (process_candidate link x s1).2.
Proof.
  intros (Hv & Hdeq & Hreq & added & Hq & Henq & Hto & Hadded).
  destruct (process_candidate_outcome link x s1)
    as [ | |u e _ _|u _ _|u Hre Hdom Hnv Hnt].
  1-2: by split; [|split; [|split; [|exists added]]].
  1-2: split; [done|]; split; [done|]; split; [done|];
       exists added; split; [done|]; split; [done|]; split; [done|];
       intros l Hl; destruct (Hadded l Hl) as (? & ? & ?);
       split; [done|]; split; [cbn; set_solver | done].
  split; [done|]. split; [done|]. split; [done|].
  exists (added ++ [mkLink (depth link + 1) u]).
  split; [cbn; by rewrite Hq, app_assoc|].
  split; [unfold enqueued in *; cbn; by rewrite Henq, rev_unit|].
  split.
  - intros u'. cbn. rewrite fmap_app, elem_of_app, elem_of_union, Hto.
    cbn. rewrite list_elem_of_singleton, elem_of_singleton. tauto.
  - intros l [Hl|Hl%list_elem_of_singleton]%elem_of_app.
    + destruct (Hadded l Hl) as (? & ? & ?).
      split; [done|]. split; [cbn; set_solver | done].
    + subst l. cbn. split; [done|]. split; [set_solver|].
      split; [intros Hu; apply Hnt, Hto; by left|].
      split; [by rewrite <-Hv | done].
Qed.

Lemma loop_grown_frontier link cands s :
  grown_frontier link s (for_each cands (process_candidate link) s).2.
Proof.
  apply (for_each_preserves (grown_frontier link s)).
  - intros x s1. apply grown_frontier_candidate.
  - split; [done|]. split; [done|]. split; [done|].
    exists []. split; [by rewrite app_nil_r|]. split; [done|].
    split; [|by intros l ?%elem_of_nil].
    intros u. cbn. rewrite elem_of_nil. tauto.
Qed.

Lemma grown_graph_candidate link s x s1 :
  url link ∈ dom (nodes (graph s)) →
  grown_graph link s s1 →
  grown_graph link s (process_candidate link x s1).2.
Proof.
  intros Hparent (Hedges & Hdom & Hnew & Hnodes).
  assert (url link ∈ dom (nodes (graph s1))) as Hparent1 by set_solver.
  assert (∀ u, re_match (Some u) = Ok true →
            grown_graph link s (discovered link u s1)) as Hdisc.
  { intros u Hre. unfold grown_graph.
    rewrite (discovered_nodes link u s1 Hparent1), dom_insert_L.
    cbn [discovered set_graph graph nx_add_edge edges].
    split; [set_solver|]. split; [set_solver|]. split.
    - intros e [->%elem_of_singleton|He]%elem_of_union.
      + right. exists u. split; [done|]. split; [done|]. set_solver.
      + destruct (Hnew e He) as [?|(u0 & ? & ? & ?)]; [by left|].
        right. exists u0. split; [done|]. split; [done|]. set_solver.
    - intros u' o. destruct (decide (u = u')) as [<-|Hne].
      + rewrite lookup_insert_eq. intros [= <-]. right. set_solver.
      + rewrite lookup_insert_ne by done. intros Ho.
        destruct (Hnodes u' o Ho) as [?|[? ?]]; [by left|].
        right. set_solver. }
  destruct (process_candidate_outcome link x s1)
    as [ | |u e Hre _|u Hre _|u Hre _ _ _]; try done; by apply Hdisc.
Qed.

Lemma loop_grown_graph link cands s :
  url link ∈ dom (nodes (graph s)) →
  grown_graph link s (for_each cands (process_candidate link) s).2.
Proof.
  intros Hparent. apply (for_each_preserves (grown_graph link s)).
  - intros x s1. by apply grown_graph_candidate.
  - split; [done|]. split; [done|]. split; [by left | by left].
Qed.

(** *** The queue is first in, first out *)

Lemma fifo_reachable start_url parallelism c :
  reachable start_url parallelism c → fifo (shared c).
Proof.
  apply (shared_invariant start_url parallelism fifo).
  - done.
  - intros i link q s Hs Hq. apply consume_begin_preserves.
    + unfold fifo, enqueued, dequeued in *; cbn in *.
      rewrite Hq in Hs. by rewrite Hs, <-app_assoc.
    + done.
    + intros s1 Hs1. by destruct (finish_item_outcome i link s1).
  - intros i link. apply consume_resume_preserves.
    + intros x s Hs.
      destruct (process_candidate_outcome link x s)
        as [ | | | |u _ _ _ _]; try done.
      unfold fifo, enqueued, dequeued in *; cbn in *.
      by rewrite Hs, app_assoc.
    + intros s Hs. by destruct (finish_item_outcome i link s).
Qed.

(** *** The two sets hold the URLs that were put on the queue *)

Lemma frontier_exact_reachable start_url parallelism c :
  reachable start_url parallelism c → frontier_exact (shared c).
Proof.
  assert (∀ i link s, frontier_exact s →
            frontier_exact (finish_item i link s).2) as Hfinish.
  { intros i link s Hs.
    destruct (finish_item_outcome i link s) as [ |Hin _|Hin _]; [done|..].
    all: intros u; rewrite <-(Hs u); cbn.
    all: destruct (decide (u = url link)) as [->|]; set_solver. }
  apply (shared_invariant start_url parallelism frontier_exact).
  - intros u. unfold enqueued; cbn. rewrite list_elem_of_singleton. set_solver.
  - intros i link q s Hs _. apply consume_begin_preserves; [done..|].
    intros s1. apply Hfinish.
  - intros i link. apply consume_resume_preserves; [|apply Hfinish].
    intros x s Hs.
    destruct (process_candidate_outcome link x s)
      as [ | | | |u _ _ _ _]; try done.
    intros u'. unfold enqueued; cbn. rewrite elem_of_cons.
    specialize (Hs u'). unfold enqueued in Hs. rewrite <-Hs. cbn. set_solver.
Qed.

(** *** The links in flight *)

Lemma NoDup_fmap_app_ne {A B} (f : A → B) (l1 l2 : list A) (x y : A) :
  NoDup (f <$> (l1 ++ l2)) → x ∈ l1 → y ∈ l2 → f x ≠ f y.
Proof.
  rewrite fmap_app. intros (_ & Hdisj & _)%NoDup_app Hx Hy Heq.
  apply (Hdisj (f x)); [by apply list_elem_of_fmap_2|].
  rewrite Heq. by apply list_elem_of_fmap_2.
Qed.

Lemma NoDup_fmap_same {A B} (f : A → B) (l : list A) (x y : A) :
  NoDup (f <$> l) → x ∈ l → y ∈ l → f x = f y → x = y.
Proof.
  induction l as [|a l IH]; intros Hdup Hx Hy Heq;
    [by apply elem_of_nil in Hx|].
  cbn in Hdup. apply NoDup_cons in Hdup as [Ha Hdup].
  apply elem_of_cons in Hx as [->|Hx], Hy as [->|Hy]; [done|..].
  - exfalso. apply Ha. rewrite Heq. by apply list_elem_of_fmap_2.
  - exfalso. apply Ha. rewrite <-Heq. by apply list_elem_of_fmap_2.
  - by apply IH.
Qed.

(** The links taken from the queue and the links still in it have
    pairwise different URLs. *)
Lemma flight_NoDup start_url parallelism c :
  reachable start_url parallelism c →
  NoDup (url <$> (dequeued (shared c) ++ queue (shared c))).
Proof.
  intros Hc. destruct (accounted_reachable _ _ _ Hc) as (Hperm & Hdup & _).
  by rewrite <-Hperm.
Qed.

Lemma set_task_fetching i j t c l :
  <[i := t]> (consumers c) !! j = Some (Fetching l) →
  (j = i ∧ t = Fetching l) ∨ (j ≠ i ∧ consumers c !! j = Some (Fetching l)).
Proof.
  intros [(<- & <- & _)|(? & ?)]%list_lookup_insert_Some;
    [by left | right; by split].
Qed.

Lemma set_task_no_failed i t c s :
  consumers c !! i = Some t →
  (∀ e, t ≠ Failed e) →
  no_failed (consumers (set_task i Waiting c s)) → no_failed (consumers c).
Proof.
  intros Hi Ht Hnf j e Hj. destruct (decide (j = i)) as [->|Hne].
  - rewrite Hi in Hj. injection Hj as ->. by apply (Ht e).
  - apply (Hnf j e). cbn. by rewrite list_lookup_insert_ne.
Qed.

Lemma set_task_failed i e c s t :
  consumers c !! i = Some t →
  ¬ no_failed (consumers (set_task i (Failed e) c s)).
Proof.
  intros Hi Hnf. apply (Hnf i e). cbn.
  apply list_lookup_insert_eq. by apply lookup_lt_Some in Hi.
Qed.

Lemma busy_holds ts i t : ts !! i = Some t → holds_item t ≤ busy ts.
Proof.
  revert i. induction ts as [|t1 ts IH]; intros [|i] Hi; try done;
    rewrite busy_cons.
  - injection Hi as ->. pose proof (busy_nonneg ts). lia.
  - specialize (IH i Hi). destruct t1; cbn [holds_item]; lia.
Qed.

(** The end of an iteration, in a crawl: the URL of the link is in
    [urls_to_visit] and a task is unfinished, so neither [set.remove] nor
    [queue.task_done] raises. *)
Lemma finish_outcome_ok i link s r s' :
  url link ∈ urls_to_visit s → 0 < unfinished s →
  finish_outcome i link s r s' →
  r = Ok () ∧ s' = task_done i (moved (url link) s).
Proof. intros Hin Hpos [?|? ?|? ?]; [done|lia|done]. Qed.

Lemma holding_step start_url parallelism i c :
  reachable start_url parallelism c →
  holding c → holding (consume_step i c).
Proof.
  intros Hc (G1 & G2 & G3 & G4 & G5).
  pose proof (flight_NoDup _ _ _ Hc) as Hnd.
  pose proof (unfinished_accounted _ _ _ Hc) as Hload.
  pose proof (busy_nonneg (consumers c)) as Hbusy.
  unfold load in Hload.
  destruct (consume_step_case i c)
    as [|link q Hi Hq Hlt|link q r s' Hi Hq Hge Hout|link e Hi Hfetch
        |link cands e s1 Hi Hfetch Hloop|link cands s1 r s' Hi Hfetch Hloop Hout].
  - done.
  - (* the link is taken and requested *)
    assert (∀ l, l ∈ q → l ∈ queue (shared c)) as Hq_in
      by (intros l Hl; rewrite Hq; by right).
    assert (link ∈ queue (shared c)) as Hlink by (rewrite Hq; by left).
    split; [|split; [|split; [|split]]].
    + intros l Hl. cbn in *. auto.
    + intros j l [[-> [= <-]]|[Hne Hj]]%set_task_fetching; cbn.
      * split; [by apply G1|]. unfold dequeued, requested; cbn.
        split; [by left|]. split; [by left | done].
      * destruct (G2 j l Hj) as (? & ? & ? & ?).
        unfold dequeued, requested in *; cbn.
        split; [done|]. split; [by right|]. split; [by right | done].
    + intros j k l l' Hjk
        [[-> [= <-]]|[Hne Hj]]%set_task_fetching
        [[-> [= <-]]|[Hne' Hk]]%set_task_fetching; try done.
      * destruct (G2 k l' Hk) as (_ & Hl' & _).
        intros Heq.
        apply (NoDup_fmap_app_ne url _ _ l' link Hnd Hl' Hlink).
        by symmetry.
      * destruct (G2 j l Hj) as (_ & Hl & _).
        by apply (NoDup_fmap_app_ne url _ _ l link Hnd Hl Hlink).
      * by apply (G3 j k).
    + intros u Hu. unfold dequeued; cbn. rewrite elem_of_cons.
      right. by apply G4.
    + intros Hnf u Hu. cbn in Hu.
      assert (no_failed (consumers c)) as Hnf0.
      { intros j e' Hj. apply (Hnf j e'). cbn.
        rewrite list_lookup_insert_ne; [done|]. intros ->. congruence. }
      destruct (G5 Hnf0 u Hu) as [Hin|(j & l & Hj & <-)].
      * rewrite Hq in Hin. cbn in Hin.
        apply elem_of_cons in Hin as [->|Hin]; [|by left].
        right. exists i, link. split; [|done]. cbn.
        apply list_lookup_insert_eq. by apply lookup_lt_Some in Hi.
      * right. exists j, l. split; [|done]. cbn.
        rewrite list_lookup_insert_ne; [done|]. intros ->. congruence.
  - (* the link is at the depth bound: it is marked visited at once *)
    assert (link ∈ queue (shared c)) as Hlink by (rewrite Hq; by left).
    assert (length (queue (shared c)) ≠ 0%nat) as Hlen by by rewrite Hq.
    destruct (finish_outcome_ok i link (taken i link q (shared c)) r s'
                (G1 link Hlink) ltac:(cbn; lia) Hout) as [-> ->].
    assert (NoDup (url <$> queue (shared c))) as Hndq.
    { rewrite fmap_app in Hnd. by apply NoDup_app in Hnd as (_ & _ & ?). }
    assert (∀ l, l ∈ q → url l ≠ url link) as Hq_ne.
    { intros l Hl Heq. rewrite Hq in Hndq. cbn in Hndq.
      apply NoDup_cons in Hndq as [Hnot _]. apply Hnot.
      rewrite <-Heq. by apply list_elem_of_fmap_2. }
    split; [|split; [|split; [|split]]].
    + intros l Hl. cbn in *.
      apply elem_of_difference. split; [apply G1; rewrite Hq; by right|].
      rewrite elem_of_singleton. by apply Hq_ne.
    + intros j l [[-> [=]]|[Hne Hj]]%set_task_fetching.
      destruct (G2 j l Hj) as (? & Hl & ? & ?).
      unfold dequeued, requested in *; cbn.
      split; [|split; [by right|done]].
      apply elem_of_difference. split; [done|]. rewrite elem_of_singleton.
      by apply (NoDup_fmap_app_ne url _ _ l link Hnd Hl Hlink).
    + intros j k l l' Hjk
        [[-> [=]]|[Hne Hj]]%set_task_fetching
        [[-> [=]]|[Hne' Hk]]%set_task_fetching.
      by apply (G3 j k).
    + intros u. unfold dequeued; cbn. rewrite elem_of_cons.
      intros [->%elem_of_singleton|Hu]%elem_of_union; [by left|].
      right. by apply G4.
    + intros Hnf u. cbn.
      intros [Hu Hne%not_elem_of_singleton]%elem_of_difference.
      assert (no_failed (consumers c)) as Hnf0
        by (eapply (set_task_no_failed i Waiting c _ Hi); [done | exact Hnf]).
      destruct (G5 Hnf0 u Hu) as [Hin|(j & l & Hj & <-)].
      * rewrite Hq in Hin. cbn in Hin.
        apply elem_of_cons in Hin as [->|Hin]; [done | by left].
      * right. exists j, l. split; [|done].
        rewrite list_lookup_insert_ne; [done|]. intros ->. congruence.
  - (* the fetch raises *)
    split; [done|]. split; [|split; [|split; [done|]]].
    + intros j l [[-> [=]]|[Hne Hj]]%set_task_fetching. by apply (G2 j).
    + intros j k l l' Hjk
        [[-> [=]]|[Hne Hj]]%set_task_fetching
        [[-> [=]]|[Hne' Hk]]%set_task_fetching.
      by apply (G3 j k).
    + intros Hnf. by destruct (set_task_failed i e c (shared c) _ Hi).
  - (* a candidate raises *)
    pose proof (loop_grown_frontier link cands (shared c)) as Hgrown.
    rewrite Hloop in Hgrown. cbn [snd] in Hgrown.
    destruct Hgrown as (Hv & Hdeq & Hreq & added & Hqueue & _ & Hto & _).
    split; [|split; [|split; [|split]]].
    + intros l. cbn. rewrite Hqueue.
      intros [Hl|Hl]%elem_of_app; apply Hto;
        [left; by apply G1 | right; by apply list_elem_of_fmap_2].
    + intros j l [[-> [=]]|[Hne Hj]]%set_task_fetching. cbn.
      destruct (G2 j l Hj) as (? & ? & ? & ?).
      rewrite Hdeq, Hreq. split; [apply Hto; by left | done].
    + intros j k l l' Hjk
        [[-> [=]]|[Hne Hj]]%set_task_fetching
        [[-> [=]]|[Hne' Hk]]%set_task_fetching.
      by apply (G3 j k).
    + intros u. cbn. rewrite Hv, Hdeq. apply G4.
    + intros Hnf. by destruct (set_task_failed i e c s1 _ Hi).
  - (* the iteration ends *)
    pose proof (loop_grown_frontier link cands (shared c)) as Hgrown.
    rewrite Hloop in Hgrown. cbn [snd] in Hgrown.
    destruct Hgrown as (Hv & Hdeq & Hreq & added & Hqueue & _ & Hto & Hadded).
    destruct (G2 i link Hi) as (Hlink_to & Hlink_deq & _ & _).
    pose proof (busy_holds _ _ _ Hi) as Hbusy_i. cbn in Hbusy_i.
    pose proof (for_each_preserves (λ s', load s' = load (shared c))
                  (process_candidate link)
                  (λ x s' Hs', eq_trans (candidate_load link x s') Hs')
                  cands (shared c) eq_refl) as Hload1.
    rewrite Hloop in Hload1. cbn [snd] in Hload1. unfold load in Hload1.
    destruct (finish_outcome_ok i link s1 r s'
                ltac:(apply Hto; by left)
                ltac:(pose proof (Nat2Z.is_nonneg (length (queue s1))); lia)
                Hout) as [-> ->].
    split; [|split; [|split; [|split]]].
    + intros l. cbn. rewrite Hqueue.
      intros Hl. apply elem_of_difference. rewrite elem_of_singleton.
      apply elem_of_app in Hl as [Hl|Hl].
      * split; [apply Hto; left; by apply G1|].
        intros Heq.
        by apply (NoDup_fmap_app_ne url _ _ link l Hnd Hlink_deq Hl).
      * split; [apply Hto; right; by apply list_elem_of_fmap_2|].
        intros Heq. destruct (Hadded l Hl) as (_ & _ & Hnew & _).
        apply Hnew. by rewrite Heq.
    + intros j l [[-> [=]]|[Hne Hj]]%set_task_fetching. cbn.
      destruct (G2 j l Hj) as (? & ? & ? & ?).
      unfold dequeued, requested in *; cbn. rewrite Hdeq, Hreq.
      split; [|done].
      apply elem_of_difference. rewrite elem_of_singleton.
      split; [apply Hto; by left|]. by apply (G3 j i).
    + intros j k l l' Hjk
        [[-> [=]]|[Hne Hj]]%set_task_fetching
        [[-> [=]]|[Hne' Hk]]%set_task_fetching.
      by apply (G3 j k).
    + intros u. unfold dequeued; cbn. fold (dequeued s1). rewrite Hdeq.
      intros [->%elem_of_singleton|Hu]%elem_of_union.
      * by apply list_elem_of_fmap_2.
      * apply G4. by rewrite <-Hv.
    + intros Hnf u. cbn.
      intros [Hu Hne%not_elem_of_singleton]%elem_of_difference.
      assert (no_failed (consumers c)) as Hnf0
        by (eapply (set_task_no_failed i (Fetching link) c _ Hi);
            [done | exact Hnf]).
      rewrite Hqueue, fmap_app, elem_of_app.
      apply Hto in Hu as [Hu|Hu]; [|by left; right].
      destruct (G5 Hnf0 u Hu) as [Hin|(j & l & Hj & <-)]; [by left; left|].
      right. exists j, l. split; [|done].
      rewrite list_lookup_insert_ne; [done|]. intros ->.
      rewrite Hi in Hj. by injection Hj as ->.
Qed.

Lemma holding_reachable start_url parallelism c :
  reachable start_url parallelism c → holding c.
Proof.
  revert c. apply reachable_ind.
  - split; [|split; [|split; [|split]]].
    + intros l. cbn. intros ->%list_elem_of_singleton. cbn. set_solver.
    + intros i l. cbn. intros Hi.
      by apply lookup_replicate in Hi as [[=] _].
    + intros i j l l' _. cbn. intros Hi.
      by apply lookup_replicate in Hi as [[=] _].
    + intros u. cbn. by intros ?%elem_of_empty.
    + intros _ u. cbn. rewrite elem_of_union, elem_of_singleton.
      intros [->|?%elem_of_empty]; [|done]. left. by left.
  - intros i c Hc. by apply (holding_step start_url parallelism).
Qed.

(** *** The graph *)

Lemma elem_of_rev {A} (x : A) (l : list A) : x ∈ rev l ↔ x ∈ l.
Proof. by rewrite !list_elem_of_In, <-in_rev. Qed.

Lemma finish_outcome_same i link s r s' :
  finish_outcome i link s r s' →
  graph s' = graph s ∧ queue s' = queue s ∧
  enqueued s' = enqueued s ∧ dequeued s' = dequeued s ∧
  requested s' = requested s.
Proof. by intros [?|? ?|? ?]. Qed.

Lemma graph_sound_step start_url parallelism i c :
  reachable start_url parallelism c →
  graph_sound start_url c → graph_sound start_url (consume_step i c).
Proof.
  intros Hc (N1 & N2 & N3 & N4 & N5).
  destruct (holding_reachable _ _ _ Hc) as (_ & G2 & _).
  destruct (accounted_reachable _ _ _ Hc) as (Hperm & _).
  assert (∀ l, l ∈ queue (shared c) → l ∈ enqueued (shared c)) as Hq_enq.
  { intros l Hl. rewrite Hperm. apply elem_of_app. by right. }
  assert (∀ l, l ∈ dequeued (shared c) → l ∈ enqueued (shared c)) as Hd_enq.
  { intros l Hl. rewrite Hperm. apply elem_of_app. by left. }
  (* taking a link from the queue *)
  assert (∀ link q s' t,
    queue (shared c) = link :: q →
    graph s' = graph (taken i link q (shared c)) →
    enqueued s' = enqueued (shared c) →
    dequeued s' = link :: dequeued (shared c) →
    (∀ u, u ∈ requested (shared c) → u ∈ requested s') →
    (∀ l, t = Fetching l → l = link) →
    graph_sound start_url (set_task i t c s')) as Htake.
  { intros link q s' t Hq Hgraph Henq Hdeq Hreq Ht.
    assert (link ∈ enqueued (shared c)) as Hlink
      by (apply Hq_enq; rewrite Hq; by left).
    destruct (N4 link Hlink) as [Hdepth Horigin].
    unfold graph_sound. cbn [shared set_task consumers].
    rewrite Hgraph, Henq, Hdeq. cbn [graph taken set_graph emit nx_add_node
      nodes edges]. rewrite dom_insert_L.
    split; [|split; [|split; [|split]]].
    - intros u o. destruct (decide (url link = u)) as [<-|Hne].
      + rewrite lookup_insert_eq. intros [= <-]. by exists (depth link).
      + rewrite lookup_insert_ne by done. apply N1.
    - intros p u Hpu. destruct (N2 p u Hpu) as (? & ? & ? & ?).
      split; [set_solver|]. split; [set_solver|]. split; [auto | done].
    - intros u [->%elem_of_singleton|Hu]%elem_of_union; [|by apply N3].
      destruct Horigin as [->|(parent & _ & _ & _ & ?)]; [by left|].
      right. by exists (url parent).
    - intros l Hl. destruct (N4 l Hl) as [? [?|(parent & ? & ? & ? & ?)]];
        (split; [done|]); [by left|].
      right. exists parent. split; [by right | done].
    - intros j l [[-> Hl]|[Hne Hj]]%set_task_fetching.
      + rewrite (Ht l Hl). set_solver.
      + specialize (N5 j l Hj). set_solver. }
  (* the loop over the candidates of a held link *)
  assert (∀ link cands r1 s1 s' t,
    consumers c !! i = Some (Fetching link) →
    for_each cands (process_candidate link) (shared c) = (r1, s1) →
    graph s' = graph s1 → enqueued s' = enqueued s1 →
    dequeued s' = dequeued s1 → requested s' = requested s1 →
    (∀ l, t ≠ Fetching l) →
    graph_sound start_url (set_task i t c s')) as Hloop.
  { intros link cands r1 s1 s' t Hi Hrun Hgraph Henq Hdeq Hreq Ht.
    destruct (G2 i link Hi) as (_ & Hlink_deq & Hlink_req & Hlink_lt).
    destruct (N4 link (Hd_enq link Hlink_deq)) as [Hdepth _].
    pose proof (loop_grown_frontier link cands (shared c)) as Hf.
    pose proof (loop_grown_graph link cands (shared c) (N5 i link Hi)) as Hg.
    rewrite Hrun in Hf, Hg. cbn [snd] in Hf, Hg.
    destruct Hf as (_ & Hdeq1 & Hreq1 & added & _ & Henq1 & _ & Hadded).
    destruct Hg as (Hedges & Hdom & Hnew & Hnodes).
    unfold graph_sound. cbn [shared set_task consumers].
    rewrite Hgraph, Henq, Hdeq, Hreq, Hdeq1, Hreq1, Henq1.
    split; [|split; [|split; [|split]]].
    - intros u o Ho. destruct (Hnodes u o Ho) as [Hold|[-> _]];
        [by apply (N1 u) | exists (depth link + 1); split; [done | lia]].
    - intros p u Hpu. destruct (Hnew _ Hpu) as [Hold|(u0 & [= -> ->] & ? & ?)].
      + destruct (N2 p u Hold) as (? & ? & ? & ?).
        split; [set_solver|]. split; [set_solver | done].
      + split; [specialize (N5 i link Hi); set_solver | done].
    - intros u [o Ho]%elem_of_dom.
      destruct (Hnodes u o Ho) as [Hold|[_ ?]].
      + destruct (N3 u) as [?|[p ?]]; [apply elem_of_dom; by eexists|by left|].
        right. exists p. set_solver.
      + right. by exists (url link).
    - intros l [Hl|Hl]%elem_of_app.
      + apply (proj1 (elem_of_rev l added)) in Hl.
        destruct (Hadded l Hl) as (Hd & He & _).
        split; [lia|]. right. by exists link.
      + destruct (N4 l Hl) as [? [?|(parent & ? & ? & ? & ?)]];
          (split; [done|]); [by left|].
        right. exists parent. split; [done|]. split; [done|].
        split; [done | set_solver].
    - intros j l [[-> Hl]|[Hne Hj]]%set_task_fetching; [by destruct (Ht l)|].
      specialize (N5 j l Hj). set_solver. }
  destruct (consume_step_case i c)
    as [|link q Hi Hq Hlt|link q r s' Hi Hq Hge Hout|link e Hi Hfetch
        |link cands e s1 Hi Hfetch Hrun|link cands s1 r s' Hi Hfetch Hrun Hout].
  - by split; [|split; [|split; [|split]]].
  - apply (Htake link q); try done.
    + intros u Hu. unfold requested; cbn. by right.
    + by intros l [= ->].
  - destruct (finish_outcome_same _ _ _ _ _ Hout) as (Hg & _ & He & Hd & Hr).
    apply (Htake link q); try done.
    + by rewrite Hr.
    + by destruct r.
  - split; [done|]. split; [done|]. split; [done|]. split; [done|].
    intros j l [[-> [=]]|[Hne Hj]]%set_task_fetching. by apply (N5 j).
  - by apply (Hloop link cands (Raise e) s1).
  - destruct (finish_outcome_same _ _ _ _ _ Hout) as (Hg & _ & He & Hd & Hr).
    apply (Hloop link cands (Ok ()) s1); try done.
    by destruct r.
Qed.

Lemma graph_sound_reachable start_url parallelism c :
  reachable start_url parallelism c → graph_sound start_url c.
Proof.
  revert c. apply reachable_ind.
  - split; [|split; [|split; [|split]]].
    + intros u o. cbn. by rewrite lookup_empty.
    + intros p u. cbn. by intros ?%elem_of_empty.
    + intros u. cbn. rewrite dom_empty_L. by intros ?%elem_of_empty.
    + intros l. unfold enqueued; cbn. intros ->%list_elem_of_singleton.
      split; [done | by left].
    + intros i l. cbn. intros Hi. by apply lookup_replicate in Hi as [[=] _].
  - intros i c Hc. by apply (graph_sound_step start_url parallelism).
Qed.

(** *** The pages of the visited links have been explored *)

Lemma candidate_grows link x s :
  edges (graph s) ⊆ edges (graph (process_candidate link x s).2) ∧
  urls_to_visit s ⊆ urls_to_visit (process_candidate link x s).2 ∧
  visited_urls (process_candidate link x s).2 = visited_urls s.
Proof.
  destruct (process_candidate_outcome link x s); cbn; set_solver.
Qed.

Lemma handled_candidate link x s :
  (process_candidate link x s).1 = Ok () →
  handled link x (process_candidate link x s).2.
Proof.
  intros Hok v -> Hre.
  pose proof (process_candidate_outcome link (Some v) s) as Hout.
  destruct (process_candidate link (Some v) s) as [r s']. cbn in *. subst r.
  inversion Hout as [ |? Hre'|? ? _ _|? _ Hrec|? _ _ _ _]; subst.
  - congruence.
  - split; [cbn; set_solver|]. intros Hdom. cbn.
    destruct Hrec as [?|[_ [?|?]]]; [congruence|set_solver..].
  - split; [cbn; set_solver|]. intros _. cbn. set_solver.
Qed.

Lemma handled_keep link x y s :
  handled link x s → handled link x (process_candidate link y s).2.
Proof.
  intros Hx v Hv Hre. destruct (Hx v Hv Hre) as [He Hs].
  destruct (candidate_grows link y s) as (Hedges & Hto & Hvis).
  split; [set_solver|]. intros Hdom. specialize (Hs Hdom).
  rewrite Hvis. set_solver.
Qed.

Lemma explored_step start_url parallelism i c :
  reachable start_url parallelism c →
  explored c → explored (consume_step i c).
Proof.
  intros Hc Hex.
  destruct (holding_reachable _ _ _ Hc) as (G1 & G2 & _).
  pose proof (flight_NoDup _ _ _ Hc) as Hnd.
  pose proof (frontier_reachable _ _ _ Hc) as Hdisj.
  unfold frontier_ok in Hdisj.
  pose proof (unfinished_accounted _ _ _ Hc) as Hload.
  pose proof (busy_nonneg (consumers c)) as Hbusy.
  unfold load in Hload.
  (* the links explored before stay explored *)
  assert (∀ l s',
    l ∈ dequeued (shared c) → url l ∈ visited_urls (shared c) →
    depth l < max_depth →
    edges (graph (shared c)) ⊆ edges (graph s') →
    urls_to_visit (shared c) ∪ visited_urls (shared c)
      ⊆ urls_to_visit s' ∪ visited_urls s' →
    ∃ cands,
      fetch_links (url l) = Ok cands ∧ (None ∉ cands) ∧
      ∀ v, Some v ∈ cands → re_match (Some v) = Ok true →
           (url l, v) ∈ edges (graph s') ∧
           (has_valid_domain (Some v) = Ok true →
            v ∈ urls_to_visit s' ∪ visited_urls s')) as Hold.
  { intros l s' Hl Hv Hlt Hedges Hsets.
    destruct (Hex l Hl Hv Hlt) as (cands & Hfetch & Hnone & Hcands).
    exists cands. split; [done|]. split; [done|].
    intros v Hin Hre. destruct (Hcands v Hin Hre) as [He Hs].
    split; [set_solver|]. intros Hdom. specialize (Hs Hdom). set_solver. }
  destruct (consume_step_case i c)
    as [|link q Hi Hq Hlt|link q r s' Hi Hq Hge Hout|link e Hi Hfetch
        |link cands e s1 Hi Hfetch Hloop|link cands s1 r s' Hi Hfetch Hloop Hout].
  - done.
  - assert (link ∈ queue (shared c)) as Hlink by (rewrite Hq; by left).
    intros l. unfold dequeued; cbn. fold (dequeued (shared c)).
    intros [->|Hl]%elem_of_cons Hv Hlt'.
    + specialize (G1 link Hlink). set_solver.
    + by apply (Hold l).
  - assert (link ∈ queue (shared c)) as Hlink by (rewrite Hq; by left).
    assert (length (queue (shared c)) ≠ 0%nat) as Hlen by by rewrite Hq.
    destruct (finish_outcome_ok i link (taken i link q (shared c)) r s'
                (G1 link Hlink) ltac:(cbn; lia) Hout) as [-> ->].
    intros l. unfold dequeued; cbn. fold (dequeued (shared c)).
    intros [->|Hl]%elem_of_cons Hv Hlt'; [lia|].
    apply elem_of_union in Hv as [Hv%elem_of_singleton|Hv].
    + by destruct (NoDup_fmap_app_ne url _ _ l link Hnd Hl Hlink).
    + apply (Hold l (task_done i (moved (url link)
                                    (taken i link q (shared c)))));
        [done..|].
      specialize (G1 link Hlink). intros u Hu. cbn.
      destruct (decide (u = url link)) as [->|]; set_solver.
  - done.
  - destruct (for_each_preserves
                (λ s', edges (graph (shared c)) ⊆ edges (graph s') ∧
                       urls_to_visit (shared c) ⊆ urls_to_visit s' ∧
                       visited_urls s' = visited_urls (shared c) ∧
                       dequeued s' = dequeued (shared c))
                (process_candidate link)) with cands (shared c)
      as (Hedges & Hto & Hvis & Hdeq).
    { intros x s (? & ? & ? & ?).
      destruct (candidate_grows link x s) as (? & ? & ?).
      split; [set_solver|]. split; [set_solver|]. split; [congruence|].
      destruct (loop_grown_frontier link [x] s) as (_ & Hd & _).
      cbn [for_each] in Hd. unfold bind in Hd.
      destruct (process_candidate link x s) as [[[]|?] ?]; cbn in *;
        congruence. }
    { done. }
    rewrite Hloop in Hedges, Hto, Hvis, Hdeq. cbn [snd] in *.
    intros l Hl Hv Hlt'. cbn [shared set_task] in Hl, Hv |- *.
    rewrite Hdeq in Hl. rewrite Hvis in Hv.
    apply (Hold l s1); [done..|]. rewrite Hvis. set_solver.
  - destruct (G2 i link Hi) as (Hlink_to & Hlink_deq & _ & Hlink_lt).
    pose proof (loop_grown_frontier link cands (shared c)) as Hgrown.
    rewrite Hloop in Hgrown. cbn [snd] in Hgrown.
    destruct Hgrown as (Hvis & Hdeq & _ & added & _ & _ & Hto & _).
    pose proof (busy_holds _ _ _ Hi) as Hbusy_i. cbn in Hbusy_i.
    pose proof (for_each_preserves (λ s', load s' = load (shared c))
                  (process_candidate link)
                  (λ x s' Hs', eq_trans (candidate_load link x s') Hs')
                  cands (shared c) eq_refl) as Hload1.
    rewrite Hloop in Hload1. cbn [snd] in Hload1. unfold load in Hload1.
    destruct (finish_outcome_ok i link s1 r s'
                ltac:(apply Hto; by left)
                ltac:(pose proof (Nat2Z.is_nonneg (length (queue s1))); lia)
                Hout) as [-> ->].
    assert (edges (graph (shared c)) ⊆ edges (graph s1)) as Hsub.
    { replace s1 with (for_each cands (process_candidate link) (shared c)).2
        by (by rewrite Hloop).
      apply (for_each_preserves
               (λ s', edges (graph (shared c)) ⊆ edges (graph s'))); [|done].
      intros x s Hs. destruct (candidate_grows link x s) as (? & _).
      set_solver. }
    intros l Hl Hv Hlt'. cbn [shared set_task] in Hl, Hv |- *.
    change (l ∈ dequeued s1) in Hl. rewrite Hdeq in Hl.
    change (url l ∈ {[ url link ]} ∪ visited_urls s1) in Hv.
    rewrite Hvis in Hv.
    apply elem_of_union in Hv as [Hv%elem_of_singleton|Hv].
    + assert (l = link) as -> by by apply (NoDup_fmap_same url
        (dequeued (shared c)));
        [rewrite fmap_app in Hnd; by apply NoDup_app in Hnd as (? & _)|..].
      exists cands. split; [done|].
      pose proof (for_each_all (process_candidate link) (handled link)
                    (handled_candidate link)
                    (λ x y s, handled_keep link x y s)
                    cands (shared c)) as Hall.
      rewrite Hloop in Hall. cbn in Hall. specialize (Hall eq_refl).
      split.
      * intros Hnone.
        pose proof (for_each_raises (process_candidate link) cands None
                      Hnone (candidate_none_raises link)
                      (shared c)) as [e He].
        rewrite Hloop in He. done.
      * intros v Hin Hre. destruct (Hall (Some v) Hin v eq_refl Hre) as [? Hs].
        split; [done|]. intros Hdom. specialize (Hs Hdom). cbn.
        destruct (decide (v = url link)) as [->|]; set_solver.
    + apply (Hold l (task_done i (moved (url link) s1))); [done..|].
      intros u Hu. cbn. rewrite Hvis.
      assert (u ∈ urls_to_visit s1 ∪ visited_urls (shared c)) as Hu1.
      { apply elem_of_union in Hu as [Hu|Hu]; [|set_solver].
        apply elem_of_union. left. apply Hto. by left. }
      destruct (decide (u = url link)) as [->|]; set_solver.
Qed.

Lemma explored_reachable start_url parallelism c :
  reachable start_url parallelism c → explored c.
Proof.
  revert c. apply reachable_ind.
  - intros l. cbn. by intros ?%elem_of_nil.
  - intros i c Hc. by apply (explored_step start_url parallelism).
Qed.

(** *** The queue and its count of unfinished tasks *)

Lemma busy_all_waiting ts :
  (∀ i t, ts !! i = Some t → t = Waiting) → busy ts = 0.
Proof.
  induction ts as [|t ts IH]; intros Hall; [done|].
  rewrite busy_cons, IH.
  - by rewrite (Hall 0%nat t eq_refl).
  - intros i t' Hi. by apply (Hall (S i)).
Qed.

Lemma step_idle i c :
  queue (shared c) = [] →
  (∀ j t, consumers c !! j = Some t → t = Waiting) →
  consume_step i c = c.
Proof.
  intros Hq Hall. unfold consume_step.
  destruct (consumers c !! i) as [t|] eqn:Hi; [|done].
  by rewrite (Hall i t Hi), Hq.
Qed.

(** X3. The links are taken from the queue in the order in which they
    were put on it: in the order of the calls, the links put are the
    links taken followed by the links that are still queued. *)
Theorem queue_is_fifo (start_url : string) (parallelism : Z) (c : config) :
  reachable start_url parallelism c →
  rev (enqueued (shared c)) = rev (dequeued (shared c)) ++ queue (shared c).
Proof. apply fifo_reachable. Qed.

(** X4. The queue's count of unfinished tasks is the number of queued
    links plus the number of consumers that hold one, so [queue.join()]
    returns exactly when the queue is empty and every consumer is waiting
    in [queue.get()]. *)
Theorem join_iff_idle (start_url : string) (parallelism : Z) (c : config) :
  reachable start_url parallelism c →
  unfinished (shared c)
    = Z.of_nat (length (queue (shared c))) + busy (consumers c) ∧
  (joined c = true ↔
   queue (shared c) = [] ∧
   ∀ i t, consumers c !! i = Some t → t = Waiting).
Proof.
  intros Hc. pose proof (unfinished_accounted _ _ _ Hc) as Hload.
  unfold load in Hload. split; [lia|]. split.
  - by apply (joined_idle start_url parallelism).
  - intros [Hq Hall]. unfold joined. apply Z.eqb_eq.
    rewrite (busy_all_waiting _ Hall), Hq in Hload. cbn in Hload. lia.
Qed.

(** X5. Once [queue.join()] has returned nothing is left to do: whichever
    consumers the event loop resumes, nothing changes any more, so the
    cancellation of the consumers loses no work. *)
Theorem after_join_quiescent (start_url : string) (parallelism : Z)
    (c : config) (sch : list nat) :
  reachable start_url parallelism c →
  joined c = true →
  run sch c = c.
Proof.
  intros Hc Hj. destruct (joined_idle _ _ _ Hc Hj) as [Hq Hall].
  induction sch as [|i sch IH] using rev_ind; [done|].
  rewrite run_snoc, IH. by apply step_idle.
Qed.

(** X6. Without a consumer ([--parallelism] zero or negative) nothing is
    ever taken from the queue: the crawl stays in its initial
    configuration and [queue.join()] never returns. *)
Theorem no_consumers_no_crawl (start_url : string) (parallelism : Z)
    (sch : list nat) :
  parallelism ≤ 0 →
  run sch (crawl_init start_url parallelism) = crawl_init start_url parallelism ∧
  joined (run sch (crawl_init start_url parallelism)) = false.
Proof.
  intros Hp.
  assert (run sch (crawl_init start_url parallelism)
            = crawl_init start_url parallelism) as ->; [|done].
  induction sch as [|i sch IH] using rev_ind; [done|].
  rewrite run_snoc, IH. unfold consume_step, crawl_init. cbn [consumers].
  replace (Z.to_nat parallelism) with 0%nat by lia. done.
Qed.

(** *** The two sets and the links in flight *)

(** X7. The two sets hold exactly the URLs that were put on the queue;
    every visited URL was taken from the queue; and the URL of every link
    that is queued or held by a consumer is in [urls_to_visit]. *)
Theorem frontier_is_enqueued (start_url : string) (parallelism : Z)
    (c : config) :
  reachable start_url parallelism c →
  (∀ u, u ∈ urls_to_visit (shared c) ∪ visited_urls (shared c) ↔
        u ∈ url <$> enqueued (shared c)) ∧
  (∀ u, u ∈ visited_urls (shared c) → u ∈ url <$> dequeued (shared c)) ∧
  (∀ l, l ∈ queue (shared c) → url l ∈ urls_to_visit (shared c)) ∧
  (∀ i l, consumers c !! i = Some (Fetching l) →
          url l ∈ urls_to_visit (shared c)).
Proof.
  intros Hc. destruct (holding_reachable _ _ _ Hc) as (G1 & G2 & _ & G4 & _).
  split; [by apply (frontier_exact_reachable start_url parallelism)|].
  split; [done|]. split; [done|].
  intros i l Hi. by destruct (G2 i l Hi).
Qed.

(** X8. As long as no consumer has ended with an exception,
    [urls_to_visit] holds exactly the URLs of the links that are queued
    or held by a consumer, and no two consumers hold the same URL. *)
Theorem urls_to_visit_in_flight (start_url : string) (parallelism : Z)
    (c : config) :
  reachable start_url parallelism c →
  (no_failed (consumers c) →
   ∀ u, u ∈ urls_to_visit (shared c) ↔
        u ∈ url <$> queue (shared c) ∨
        ∃ i l, consumers c !! i = Some (Fetching l) ∧ url l = u) ∧
  (∀ i j l l', i ≠ j →
               consumers c !! i = Some (Fetching l) →
               consumers c !! j = Some (Fetching l') →
               url l ≠ url l').
Proof.
  intros Hc. destruct (holding_reachable _ _ _ Hc) as (G1 & G2 & G3 & _ & G5).
  split; [|done]. intros Hnf u. split; [by apply G5|].
  intros [(l & -> & Hl)%list_elem_of_fmap|(i & l & Hi & <-)]; [by apply G1|].
  by destruct (G2 i l Hi).
Qed.

(** X9. When [queue.join()] returns, [urls_to_visit] is empty and
    [visited_urls] is exactly the set of the URLs that were put on the
    queue. *)
Theorem frontier_at_join (start_url : string) (parallelism : Z)
    (c : config) :
  reachable start_url parallelism c →
  joined c = true →
  urls_to_visit (shared c) = ∅ ∧
  ∀ u, u ∈ visited_urls (shared c) ↔ u ∈ url <$> enqueued (shared c).
Proof.
  intros Hc Hj. destruct (joined_idle _ _ _ Hc Hj) as [Hq Hall].
  destruct (holding_reachable _ _ _ Hc) as (_ & _ & _ & _ & G5).
  assert (urls_to_visit (shared c) = ∅) as Hempty.
  { apply elem_of_equiv_empty_L. intros u Hu.
    destruct (G5 ltac:(intros i e Hi; by specialize (Hall i _ Hi)) u Hu)
      as [Hin|(i & l & Hi & _)].
    - rewrite Hq in Hin. by apply elem_of_nil in Hin.
    - by specialize (Hall i _ Hi). }
  split; [done|]. intros u.
  rewrite <-(frontier_exact_reachable start_url parallelism c Hc u), Hempty.
  set_solver.
Qed.

(** *** Iterations that complete *)

(** X10. When the page of the link that consumer [i] holds is fetched
    and no candidate raises ([re.match] raises on none of them, so the
    pattern is a regular expression unless the page has no candidate,
    and no candidate is absent; and the domain of every candidate that
    matches can be computed), the iteration completes: neither
    [set.remove] nor [queue.task_done] raises, the URL moves from
    [urls_to_visit] to [visited_urls], [queue.task_done] is called and
    the consumer waits for the next link. *)
Theorem iteration_completes (start_url : string) (parallelism : Z)
    (c : config) (i : nat) (link : Link) (cands : list (option string)) :
  reachable start_url parallelism c →
  consumers c !! i = Some (Fetching link) →
  fetch_links (url link) = Ok cands →
  (∀ x, x ∈ cands →
        ¬ raises (re_match x) ∧
        ∀ u, x = Some u → re_match x = Ok true →
             ¬ raises (has_valid_domain (Some u))) →
  let c' := consume_step i c in
  consumers c' !! i = Some Waiting ∧
  url link ∈ visited_urls (shared c') ∧
  (url link ∉ urls_to_visit (shared c')) ∧
  head (trace (shared c')) = Some (QDone i) ∧
  load (shared c') = load (shared c) - 1.
Proof.
  intros Hc Hi Hfetch Hcands c'.
  destruct (holding_reachable _ _ _ Hc) as (_ & G2 & _).
  destruct (G2 i link Hi) as (Hlink_to & _).
  pose proof (unfinished_accounted _ _ _ Hc) as Hload.
  pose proof (busy_holds _ _ _ Hi) as Hbusy_i. cbn in Hbusy_i.
  pose proof (for_each_ok (process_candidate link) cands) as Hok.
  specialize (Hok ltac:(
    intros x s Hx; destruct (Hcands x Hx) as [Hmatch Hdomain];
    destruct (process_candidate_outcome link x s)
      as [x e Hre| |u e Hre Hdom| | ]; try done;
    [destruct Hmatch; by exists e
    |destruct (Hdomain u eq_refl Hre); by exists e]) (shared c)).
  pose proof (loop_grown_frontier link cands (shared c)) as Hgrown.
  pose proof (for_each_preserves (λ s', load s' = load (shared c))
                (process_candidate link)
                (λ x s' Hs', eq_trans (candidate_load link x s') Hs')
                cands (shared c) eq_refl) as Hload1.
  assert (c' = set_task i Waiting c
                 (task_done i (moved (url link)
                    (for_each cands (process_candidate link) (shared c)).2)))
    as ->.
  { unfold c', consume_step. rewrite Hi.
    unfold consume_resume, bind, lift. rewrite Hfetch.
    destruct (for_each cands (process_candidate link) (shared c))
      as [r s1]; cbn in *. subst r.
    destruct Hgrown as (_ & _ & _ & added & _ & _ & Hto & _).
    rewrite finish_item_ok; [done|by apply Hto; left|].
    unfold load in *.
    pose proof (Nat2Z.is_nonneg (length (queue s1))). lia. }
  set (s1 := (for_each cands (process_candidate link) (shared c)).2) in *.
  split; [cbn; apply list_lookup_insert_eq; by apply lookup_lt_Some in Hi|].
  split; [cbn; set_solver|]. split; [cbn; set_solver|]. split; [done|].
  unfold load in *. cbn. lia.
Qed.

(** X11. A link taken from the queue at the depth bound or above is
    finished at once: it becomes a node, no request is sent, its URL
    moves to [visited_urls], [queue.task_done] is called and the consumer
    goes back to waiting.  Nothing raises. *)
Theorem leaf_iteration_completes (start_url : string) (parallelism : Z)
    (c : config) (i : nat) (link : Link) (q : list Link) :
  reachable start_url parallelism c →
  consumers c !! i = Some Waiting →
  queue (shared c) = link :: q →
  max_depth ≤ depth link →
  let c' := consume_step i c in
  consumers c' = consumers c ∧
  queue (shared c') = q ∧
  requested (shared c') = requested (shared c) ∧
  nodes (graph (shared c')) !! url link = Some (Some (depth link)) ∧
  url link ∈ visited_urls (shared c') ∧
  (url link ∉ urls_to_visit (shared c')) ∧
  unfinished (shared c') = unfinished (shared c) - 1.
Proof.
  intros Hc Hi Hq Hge c'.
  destruct (holding_reachable _ _ _ Hc) as (G1 & _).
  pose proof (unfinished_accounted _ _ _ Hc) as Hload.
  pose proof (busy_nonneg (consumers c)) as Hbusy.
  unfold load in Hload. rewrite Hq in Hload. cbn [length] in Hload.
  assert (c' = set_task i Waiting c
                 (task_done i (moved (url link) (taken i link q (shared c)))))
    as ->.
  { unfold c', consume_step. rewrite Hi, Hq, consume_begin_eq.
    destruct (Z.ltb_spec (depth link) max_depth); [lia|].
    rewrite finish_item_ok; [done|cbn; apply G1; rewrite Hq; by left|cbn; lia]. }
  split; [cbn; by apply list_insert_id|].
  split; [done|]. split; [done|].
  split; [cbn; by rewrite lookup_insert_eq|].
  split; [cbn; set_solver|]. split; [cbn; set_solver|]. done.
Qed.

(** *** The graph that the crawl builds *)

Lemma requested_dequeued start_url parallelism c p :
  reachable start_url parallelism c →
  p ∈ requested (shared c) →
  ∃ parent, parent ∈ dequeued (shared c) ∧ url parent = p ∧
            depth parent < max_depth.
Proof.
  intros Hc Hp. destruct (accounted_reachable _ _ _ Hc) as (_ & _ & _ & Hreq).
  rewrite Hreq in Hp. apply list_elem_of_fmap in Hp as (l & -> & Hl).
  apply list_elem_of_filter in Hl as [Hd Hl]. by exists l.
Qed.

(** X12. The graph of a crawl is well formed: every node carries a depth
    that is not negative; both ends of an edge are nodes, its source is
    the URL of a link that was taken from the queue below the depth bound
    and requested, and its target matches the URL pattern; and every node
    is the start URL or the target of an edge. *)
Theorem graph_well_formed (start_url : string) (parallelism : Z)
    (c : config) :
  reachable start_url parallelism c →
  (∀ u o, nodes (graph (shared c)) !! u = Some o → ∃ d, o = Some d ∧ 0 ≤ d) ∧
  (∀ p u, (p, u) ∈ edges (graph (shared c)) →
          p ∈ dom (nodes (graph (shared c))) ∧
          u ∈ dom (nodes (graph (shared c))) ∧
          re_match (Some u) = Ok true ∧
          p ∈ requested (shared c) ∧
          ∃ parent, parent ∈ dequeued (shared c) ∧ url parent = p ∧
                    depth parent < max_depth) ∧
  (∀ u, u ∈ dom (nodes (graph (shared c))) →
        u = start_url ∨ ∃ p, (p, u) ∈ edges (graph (shared c))).
Proof.
  intros Hc.
  destruct (graph_sound_reachable _ _ _ Hc) as (N1 & N2 & N3 & _).
  split; [done|]. split; [|done].
  intros p u He. destruct (N2 p u He) as (Hp & Hu & Hreq & Hre).
  repeat (split; [done|]).
  by apply (requested_dequeued start_url parallelism).
Qed.

(** X13. Every link that was put on the queue is the start link at
    depth 0, or it is exactly one level below a link that was taken from
    the queue below the depth bound, and the graph has the edge from that
    link to it.  So the depth of a link is the length of a chain of edges
    from the start URL. *)
Theorem links_have_parents (start_url : string) (parallelism : Z)
    (c : config) (l : Link) :
  reachable start_url parallelism c →
  l ∈ enqueued (shared c) →
  0 ≤ depth l ∧
  (l = mkLink 0 start_url ∨
   ∃ parent, parent ∈ dequeued (shared c) ∧
             parent ∈ enqueued (shared c) ∧
             depth parent < max_depth ∧
             depth l = depth parent + 1 ∧
             (url parent, url l) ∈ edges (graph (shared c)) ∧
             re_match (Some (url l)) = Ok true).
Proof.
  intros Hc Hl.
  destruct (graph_sound_reachable _ _ _ Hc) as (_ & N2 & _ & N4 & _).
  destruct (N4 l Hl) as [Hd [->|(parent & Hp & Hlt & Hdep & He)]];
    (split; [done|]); [by left|].
  right. exists parent. repeat (split; [done|]).
  split; [|split; [done|split; [done|split; [done|]]]].
  - destruct (accounted_reachable _ _ _ Hc) as (Hperm & _).
    rewrite Hperm. apply elem_of_app. by left.
  - by destruct (N2 _ _ He) as (_ & _ & _ & ?).
Qed.

(** X14. A visited link below the depth bound has been explored in full:
    its page was fetched, none of the candidates was absent, every
    candidate that matches the pattern has its edge and is a node, and
    every such candidate in an allowed domain is in one of the two sets.
    When [queue.join()] has returned this holds for every link that was
    put on the queue, and the candidates in an allowed domain are all
    visited. *)
Theorem crawl_explores_everything (start_url : string) (parallelism : Z)
    (c : config) :
  reachable start_url parallelism c →
  (∀ l, l ∈ dequeued (shared c) →
        url l ∈ visited_urls (shared c) →
        depth l < max_depth →
        ∃ cands,
          fetch_links (url l) = Ok cands ∧
          (None ∉ cands) ∧
          ∀ v, Some v ∈ cands → re_match (Some v) = Ok true →
               (url l, v) ∈ edges (graph (shared c)) ∧
               v ∈ dom (nodes (graph (shared c))) ∧
               (has_valid_domain (Some v) = Ok true →
                v ∈ urls_to_visit (shared c) ∪ visited_urls (shared c))) ∧
  (joined c = true →
   ∀ l, l ∈ enqueued (shared c) →
        depth l < max_depth →
        ∃ cands,
          fetch_links (url l) = Ok cands ∧
          (None ∉ cands) ∧
          ∀ v, Some v ∈ cands → re_match (Some v) = Ok true →
               (url l, v) ∈ edges (graph (shared c)) ∧
               (has_valid_domain (Some v) = Ok true →
                v ∈ visited_urls (shared c))).
Proof.
  intros Hc. pose proof (explored_reachable _ _ _ Hc) as Hexp.
  destruct (graph_sound_reachable _ _ _ Hc) as (_ & N2 & _).
  split.
  - intros l Hl Hv Hd. destruct (Hexp l Hl Hv Hd) as (cands & Hf & Hn & Hall).
    exists cands. split; [done|]. split; [done|].
    intros v Hin Hre. destruct (Hall v Hin Hre) as [He Hs].
    split; [done|]. split; [|done]. by destruct (N2 _ _ He) as (_ & ? & _).
  - intros Hj l Hl Hd.
    destruct (joined_idle _ _ _ Hc Hj) as [Hq Hidle].
    destruct (holding_reachable _ _ _ Hc) as (_ & _ & _ & _ & G5).
    assert (∀ u, u ∉ urls_to_visit (shared c)) as Hempty.
    { intros u Hu.
      destruct (G5 ltac:(intros i e Hi; by specialize (Hidle i _ Hi)) u Hu)
        as [Hin|(i & l' & Hi & _)].
      - rewrite Hq in Hin. by apply elem_of_nil in Hin.
      - by specialize (Hidle i _ Hi). }
    destruct (accounted_reachable _ _ _ Hc) as (Hperm & _ & Hsets & _).
    assert (l ∈ dequeued (shared c)) as Hdeq.
    { rewrite Hperm, Hq, app_nil_r in Hl. done. }
    assert (url l ∈ visited_urls (shared c)) as Hv.
    { specialize (Hsets l Hl). apply elem_of_union in Hsets as [Ht|]; [|done].
      by destruct (Hempty _ Ht). }
    destruct (Hexp l Hdeq Hv Hd) as (cands & Hf & Hn & Hall).
    exists cands. split; [done|]. split; [done|].
    intros v Hin Hre. destruct (Hall v Hin Hre) as [He Hs].
    split; [done|]. intros Hdom. specialize (Hs Hdom).
    apply elem_of_union in Hs as [Ht|]; [|done]. by destruct (Hempty _ Ht).
Qed.

(** *** Nothing is lost *)

Lemma dom_nx_touch n (m : gmap string (option Z)) :
  dom (nx_touch n m) = {[ n ]} ∪ dom m.
Proof.
  unfold nx_touch. destruct (m !! n) as [o|] eqn:Hn.
  - assert (n ∈ dom m) as Hin by (apply elem_of_dom; by exists o).
    clear -Hin. set_solver.
  - by rewrite dom_insert_L.
Qed.

Lemma extends_refl s : extends s s.
Proof. by repeat split. Qed.

Lemma extends_trans s1 s2 s3 : extends s1 s2 → extends s2 s3 → extends s1 s3.
Proof.
  intros (? & ? & ? & ? & ?) (? & ? & ? & ? & ?).
  repeat split; try (etrans; eassumption).
Qed.

Lemma extends_discovered link u s : extends s (discovered link u s).
Proof.
  repeat split; try done; cbn; [set_solver|].
  rewrite !dom_nx_touch, dom_insert_L. set_solver.
Qed.

Lemma extends_produced l s : extends s (produced l s).
Proof.
  repeat split; try done; cbn; [set_solver|]. by apply suffix_cons_r.
Qed.

Lemma extends_candidate link x s : extends s (process_candidate link x s).2.
Proof.
  destruct (process_candidate_outcome link x s);
    try apply extends_refl; try apply extends_discovered.
  eapply extends_trans; [apply extends_discovered|apply extends_produced].
Qed.

Lemma extends_moved u s : extends s (moved u s).
Proof.
  repeat split; try done; cbn; [set_solver|].
  intros x. rewrite !elem_of_union, elem_of_difference, elem_of_singleton.
  destruct (decide (x = u)); tauto.
Qed.

Lemma extends_task_done i s : extends s (task_done i s).
Proof. repeat split; try done. cbn. by apply suffix_cons_r. Qed.

Lemma extends_finish i link s : extends s (finish_item i link s).2.
Proof.
  destruct (finish_item_outcome i link s);
    [apply extends_refl|apply extends_moved|].
  eapply extends_trans; [apply extends_moved|apply extends_task_done].
Qed.

Lemma extends_taken i link q s :
  extends s (taken i link q s).
Proof.
  repeat split; try done; cbn.
  - rewrite dom_insert_L. set_solver.
  - by apply suffix_cons_r.
Qed.

(** X15. A crawl only adds: whatever the consumers do from any
    configuration on, no visited URL, no URL of the two sets, no edge, no
    node and no recorded call is ever lost.  (A node can get another
    depth, and a URL can move from [urls_to_visit] to [visited_urls].) *)
Theorem crawl_only_grows (sch : list nat) (c : config) :
  extends (shared c) (shared (run sch c)).
Proof.
  apply (run_preserves (extends (shared c))); [..|apply extends_refl].
  - intros i link q s Hs _. apply consume_begin_preserves.
    + eapply extends_trans; [exact Hs|apply extends_taken].
    + intros s1 Hs1. eapply extends_trans; [exact Hs1|].
      repeat split; try done. cbn. by apply suffix_cons_r.
    + intros s1 Hs1. eapply extends_trans; [exact Hs1|apply extends_finish].
  - intros i link. apply consume_resume_preserves.
    + intros x s1 Hs1.
      eapply extends_trans; [exact Hs1|apply extends_candidate].
    + intros s1 Hs1. eapply extends_trans; [exact Hs1|apply extends_finish].
Qed.

(** *** The consumers *)

Lemma busy_le_length ts : busy ts ≤ Z.of_nat (length ts).
Proof.
  induction ts as [|t ts IH]; [done|].
  rewrite busy_cons. cbn [length]. destruct t; cbn [holds_item]; lia.
Qed.

Lemma consume_step_length i c :
  length (consumers (consume_step i c)) = length (consumers c).
Proof.
  destruct (consume_step_kind i c); [done|..]; cbn; by rewrite length_insert.
Qed.

(** X16. The number of consumers never changes: it is [parallelism] (none
    when that is negative), so at most [parallelism] links are held, and
    at most that many requests are awaited, at any time; the position of
    a consumer that does not exist is never resumed. *)
Theorem parallelism_bounds_consumers (start_url : string) (parallelism : Z)
    (c : config) :
  reachable start_url parallelism c →
  length (consumers c) = Z.to_nat parallelism ∧
  busy (consumers c) ≤ Z.max 0 parallelism ∧
  ∀ i, (Z.to_nat parallelism ≤ i)%nat → consume_step i c = c.
Proof.
  intros Hc.
  assert (length (consumers c) = Z.to_nat parallelism) as Hlen.
  { revert c Hc. apply reachable_ind.
    - cbn. by rewrite length_replicate.
    - intros i c _ Hc. by rewrite consume_step_length. }
  split; [done|]. split.
  - pose proof (busy_le_length (consumers c)). lia.
  - intros i Hi. unfold consume_step.
    rewrite (lookup_ge_None_2 (consumers c) i); [done|lia].
Qed.

(** *** The links of a page *)

Lemma rmap_Forall2 {A B} (f : A → result B) (l : list A) (l' : list B) :
  rmap f l = Ok l' ↔ Forall2 (λ x y, f x = Ok y) l l'.
Proof.
  revert l'. induction l as [|x l IH]; intros l'; cbn [rmap].
  - split; [intros [= <-]; constructor | by intros ->%Forall2_nil_inv_l].
  - split.
    + destruct (f x) as [y|e] eqn:Hx; [|done]. cbn.
      destruct (rmap f l) as [ys|e]; [|done]. cbn. intros [= <-].
      constructor; [done|by apply IH].
    + intros (y & ys & Hy & Hys & ->)%Forall2_cons_inv_l.
      apply IH in Hys. by rewrite Hy, Hys.
Qed.

(** X17. When [fetch_links] returns, it returns one candidate for each
    anchor of the page, in the order of the page: [None] for an anchor
    without [href]; the [href] itself when it has a network location;
    and the [href] joined to the URL of the page when its network
    location is the empty string. *)
Theorem fetch_links_resolves (u : string)
    (hrefs cands : list (option string)) :
  http_get u = Ok hrefs →
  fetch_links u = Ok cands →
  length cands = length hrefs ∧
  ∀ k h, hrefs !! k = Some h →
         match h with
         | None => cands !! k = Some None
         | Some r =>
             ∃ d, urlparse_netloc r = Ok d ∧
                  if decide (d = EmptyString)
                  then ∃ j, urljoin u r = Ok j ∧ cands !! k = Some (Some j)
                  else cands !! k = Some (Some r)
         end.
Proof.
  intros Hget. unfold fetch_links. rewrite Hget. cbn [rbind].
  intros Hmap%rmap_Forall2. split; [symmetry; by eapply Forall2_length|].
  intros k h Hk.
  destruct (Forall2_lookup_l _ _ _ _ _ Hmap Hk) as (y & Hy & Hres).
  destruct h as [r|]; [|by injection Hres as <-].
  unfold resolve_href, is_relative_url, get_domain in Hres.
  destruct (urlparse_netloc r) as [d|e]; [|done]. cbn in Hres.
  exists d. split; [done|].
  destruct (String.eqb_spec d EmptyString) as [Hd|Hne].
  - rewrite decide_True by done.
    destruct (urljoin u r) as [j|e]; [|done]. cbn in Hres.
    injection Hres as <-. by exists j.
  - rewrite decide_False by done. by injection Hres as <-.
Qed.

(** *** The filters *)

(** X18. The loop body puts a candidate on the queue exactly when it
    matches the pattern, its domain is allowed and it is in neither set;
    in every other case the queue, [urls_to_visit], the count of
    unfinished tasks and the recorded calls stay as they are.  A
    candidate that matches the pattern becomes a node one level below
    the link, with an edge from the link, also when its domain is not
    allowed or it is known already; one that does not match changes
    nothing, and neither does one on which [re.match] raises, which ends
    the loop with that exception.  [visited_urls] is never changed. *)
Theorem candidate_filter (link : Link) (u : string) (s : world) :
  let r := (process_candidate link (Some u) s).1 in
  let s' := (process_candidate link (Some u) s).2 in
  let wanted :=
    re_match (Some u) = Ok true ∧ has_valid_domain (Some u) = Ok true ∧
    (u ∉ visited_urls s) ∧ (u ∉ urls_to_visit s) in
  (wanted →
   r = Ok () ∧
   queue s' = queue s ++ [mkLink (depth link + 1) u] ∧
   urls_to_visit s' = {[ u ]} ∪ urls_to_visit s ∧
   unfinished s' = unfinished s + 1 ∧
   trace s' = QPut (mkLink (depth link + 1) u) :: trace s) ∧
  (¬ wanted →
   queue s' = queue s ∧ urls_to_visit s' = urls_to_visit s ∧
   unfinished s' = unfinished s ∧ trace s' = trace s) ∧
  (re_match (Some u) = Ok true →
   nodes (graph s') !! u = Some (Some (depth link + 1)) ∧
   (url link, u) ∈ edges (graph s') ∧
   url link ∈ dom (nodes (graph s'))) ∧
  (re_match (Some u) = Ok false → r = Ok () ∧ s' = s) ∧
  (∀ e, re_match (Some u) = Raise e → r = Raise e ∧ s' = s) ∧
  visited_urls s' = visited_urls s.
Proof.
  intros r s' wanted. subst r s' wanted.
  pose proof (process_candidate_outcome link (Some u) s) as Hout.
  destruct (process_candidate link (Some u) s) as [r s']. cbn [fst snd] in *.
  assert (∀ s0, nodes (graph (discovered link u s0)) !! u
                  = Some (Some (depth link + 1)) ∧
                (url link, u) ∈ edges (graph (discovered link u s0)) ∧
                url link ∈ dom (nodes (graph (discovered link u s0))))
    as Hdisc.
  { intros s0. split; [|split].
    - apply discovered_child.
    - cbn. apply elem_of_union_l. by apply elem_of_singleton.
    - cbn. rewrite !dom_nx_touch.
      apply elem_of_union_r, elem_of_union_l. by apply elem_of_singleton. }
  inversion Hout
    as [? e Hre|? Hre|? e Hre Hdom|? Hre Hrec|? Hre Hdom Hv Ht]; subst.
  - split; [intros (? & _); congruence|]. split; [done|].
    split; [congruence|]. split; [congruence|].
    split; [|done]. intros e' He'. split; [congruence|done].
  - split; [intros (? & _); congruence|]. split; [done|].
    split; [congruence|]. split; [done|]. split; [congruence|done].
  - split; [intros (_ & ? & _); congruence|]. split; [done|].
    split; [intros _; apply Hdisc|]. split; [congruence|].
    split; [congruence|done].
  - split.
    { intros (_ & Hd & Hv & Ht).
      destruct Hrec as [?|[_ [?|?]]]; [congruence|done..]. }
    split; [done|]. split; [intros _; apply Hdisc|].
    split; [congruence|]. split; [congruence|done].
  - split; [done|]. split; [intros Hnot; by destruct Hnot|].
    split; [intros _; apply (Hdisc s)|]. split; [congruence|].
    split; [congruence|done].
Qed.

(** *** The domain of a candidate *)

(** X22. The three functions on the network location raise together,
    with the exception of [urlparse].  An absent [href] is neither
    relative nor in an allowed domain, and none of them raises on it.  A
    URL is in an allowed domain exactly when its network location is in
    the list; so a relative URL is one only when the empty string is in
    the list. *)
Theorem domain_predicates (x : option string) :
  (∀ e, has_valid_domain x = Raise e ↔ get_domain urlparse_netloc x = Raise e) ∧
  (∀ e, is_relative_url urlparse_netloc x = Raise e ↔ get_domain urlparse_netloc x = Raise e) ∧
  (x = None → has_valid_domain x = Ok false ∧ is_relative_url urlparse_netloc x = Ok false) ∧
  (∀ u, x = Some u →
        (has_valid_domain x = Ok true ↔
         ∃ d, urlparse_netloc u = Ok d ∧ d ∈ allowed_domains) ∧
        (is_relative_url urlparse_netloc x = Ok true ↔ urlparse_netloc u = Ok EmptyString)) ∧
  (is_relative_url urlparse_netloc x = Ok true →
   has_valid_domain x = Ok (bool_decide (EmptyString ∈ allowed_domains))).
Proof.
  unfold has_valid_domain, is_relative_url, get_domain.
  destruct x as [u|]; cbn.
  - destruct (urlparse_netloc u) as [d|e'] eqn:Hu; cbn.
    + do 2 (split; [intros e0; split; intros [=]|]).
      split; [done|]. split.
      * intros ? [= <-]. rewrite Hu. split.
        -- split.
           ++ intros [= Hd%bool_decide_eq_true]. by exists d.
           ++ intros (d' & [= <-] & Hd). by rewrite bool_decide_eq_true_2.
        -- destruct (String.eqb_spec d EmptyString) as [Hd|Hd];
             split; congruence.
      * destruct (String.eqb_spec d EmptyString) as [Hd|Hd]; [|done].
        by rewrite Hd.
    + do 2 (split; [intros e0; split; intros [= ->]; reflexivity|]).
      split; [done|]. split; [|done].
      intros ? [= <-]. rewrite Hu. split; split; try done.
      by intros (? & ? & _).
  - do 2 (split; [intros e0; split; intros [=]|]).
    split; [done|]. split; done.
Qed.

(** *** Progress *)

Lemma busy_pos ts :
  0 < busy ts → ∃ i t, ts !! i = Some t ∧ t ≠ Waiting.
Proof.
  induction ts as [|t ts IH]; [done|]. rewrite busy_cons.
  destruct t as [|link|e].
  - cbn [holds_item]. intros Hpos.
    destruct IH as (i & t & Hi & Ht); [lia|]. by exists (S i), t.
  - intros _. by exists 0%nat, (Fetching link).
  - intros _. by exists 0%nat, (Failed e).
Qed.

(** X23. The crawl is never stuck: as long as [queue.join()] has not
    returned and no consumer has ended with an exception, some consumer
    can be resumed and does something, that is, a link is queued and a
    consumer waits for one, or a consumer waits for a response. *)
Theorem crawl_never_stuck (start_url : string) (parallelism : Z)
    (c : config) :
  reachable start_url parallelism c →
  0 < parallelism →
  joined c = false →
  no_failed (consumers c) →
  ∃ i, (i < Z.to_nat parallelism)%nat ∧ consume_step i c ≠ c.
Proof.
  intros Hc Hpar Hj Hnf.
  pose proof (unfinished_accounted _ _ _ Hc) as Hload. unfold load in Hload.
  assert (length (consumers c) = Z.to_nat parallelism) as Hlen.
  { clear Hj Hnf Hload. revert c Hc. apply reachable_ind.
    - cbn. by rewrite length_replicate.
    - intros i c _ Hc. by rewrite consume_step_length. }
  unfold joined in Hj. apply Z.eqb_neq in Hj.
  pose proof (busy_nonneg (consumers c)) as Hbusy.
  destruct (decide (busy (consumers c) = 0)) as [Hzero|Hpos].
  - (* every consumer waits, and the queue is not empty *)
    assert (consumers c !! 0%nat = Some Waiting) as H0.
    { destruct (lookup_lt_is_Some_2 (consumers c) 0%nat ltac:(lia))
        as [t Ht].
      by rewrite Ht, (busy_zero _ _ _ Hzero Ht). }
    destruct (queue (shared c)) as [|link q] eqn:Hq;
      [cbn [length] in Hload; lia|].
    exists 0%nat. split; [lia|]. intros Heq.
    assert (length (trace (shared (consume_step 0 c)))
              ≤ length (trace (shared c)))%nat as Hle by by rewrite Heq.
    unfold consume_step in Hle. rewrite H0, Hq, consume_begin_eq in Hle.
    destruct (depth link <? max_depth); [cbn in Hle; lia|].
    pose proof (extends_finish 0 link (taken 0 link q (shared c)))
      as (_ & _ & _ & _ & Hsuf%suffix_length).
    destruct (finish_item 0 link _) as [[[]|e] s']; cbn in *; lia.
  - destruct (busy_pos (consumers c)) as (i & t & Hi & Ht); [lia|].
    destruct t as [|link|e]; [done| |by destruct (Hnf i e)].
    exists i. split; [apply lookup_lt_Some in Hi; lia|]. intros Heq.
    assert (consumers (consume_step i c) !! i = Some (Fetching link))
      as Hi' by by rewrite Heq.
    unfold consume_step in Hi'. rewrite Hi in Hi'.
    destruct (consume_resume i link (shared c)) as [[[]|e] s'];
      cbn in Hi'; rewrite list_lookup_insert_eq in Hi';
      try done; by apply lookup_lt_Some in Hi.
Qed.

(** *** C3 *)

Lemma leaves_visited_step start_url parallelism i c :
  reachable start_url parallelism c →
  (∀ l, l ∈ dequeued (shared c) → max_depth ≤ depth l →
        url l ∈ visited_urls (shared c)) →
  ∀ l, l ∈ dequeued (shared (consume_step i c)) → max_depth ≤ depth l →
       url l ∈ visited_urls (shared (consume_step i c)).
Proof.
  intros Hc Hinv.
  destruct (holding_reachable _ _ _ Hc) as (G1 & G2 & _).
  pose proof (unfinished_accounted _ _ _ Hc) as Hload.
  pose proof (busy_nonneg (consumers c)) as Hbusy.
  unfold load in Hload.
  destruct (consume_step_case i c)
    as [|link q Hi Hq Hlt|link q r s' Hi Hq Hge Hout|link e Hi Hfetch
        |link cands e s1 Hi Hfetch Hloop|link cands s1 r s' Hi Hfetch Hloop Hout].
  - done.
  - intros l. unfold dequeued; cbn. fold (dequeued (shared c)).
    intros [->|Hl]%elem_of_cons Hge; [lia | by apply Hinv].
  - assert (link ∈ queue (shared c)) as Hlink by (rewrite Hq; by left).
    assert (length (queue (shared c)) ≠ 0%nat) as Hlen by by rewrite Hq.
    destruct (finish_outcome_ok i link (taken i link q (shared c)) r s'
                (G1 link Hlink) ltac:(cbn; lia) Hout) as [-> ->].
    intros l. unfold dequeued; cbn. fold (dequeued (shared c)).
    intros [->|Hl]%elem_of_cons Hd; apply elem_of_union;
      [left; by apply elem_of_singleton | right; by apply Hinv].
  - done.
  - pose proof (loop_grown_frontier link cands (shared c)) as Hgrown.
    rewrite Hloop in Hgrown. cbn [snd] in Hgrown.
    destruct Hgrown as (Hv & Hdeq & _).
    intros l. cbn. rewrite Hv, Hdeq. apply Hinv.
  - pose proof (loop_grown_frontier link cands (shared c)) as Hgrown.
    rewrite Hloop in Hgrown. cbn [snd] in Hgrown.
    destruct Hgrown as (Hv & Hdeq & _ & added & _ & _ & Hto & _).
    pose proof (busy_holds _ _ _ Hi) as Hbusy_i. cbn in Hbusy_i.
    pose proof (for_each_preserves (λ s', load s' = load (shared c))
                  (process_candidate link)
                  (λ x s' Hs', eq_trans (candidate_load link x s') Hs')
                  cands (shared c) eq_refl) as Hload1.
    rewrite Hloop in Hload1. cbn [snd] in Hload1. unfold load in Hload1.
    destruct (G2 i link Hi) as (Hlink_to & _).
    destruct (finish_outcome_ok i link s1 r s'
                ltac:(apply Hto; by left)
                ltac:(pose proof (Nat2Z.is_nonneg (length (queue s1))); lia)
                Hout) as [-> ->].
    intros l. unfold dequeued; cbn. fold (dequeued s1). rewrite Hdeq, Hv.
    intros Hl Hd. apply elem_of_union. right. by apply Hinv.
Qed.

Lemma leaves_visited_reachable start_url parallelism c :
  reachable start_url parallelism c →
  ∀ l, l ∈ dequeued (shared c) → max_depth ≤ depth l →
       url l ∈ visited_urls (shared c).
Proof.
  revert c.
  apply (reachable_ind start_url parallelism
           (λ c, ∀ l, l ∈ dequeued (shared c) → max_depth ≤ depth l →
                      url l ∈ visited_urls (shared c))).
  - intros l. unfold dequeued; cbn. by intros ?%elem_of_nil.
  - intros i c Hc. by apply (leaves_visited_step start_url parallelism).
Qed.

(** C3, amended. In every configuration of a crawl: no URL has been put
    on the queue twice; every link taken from the queue had been put on
    it, and no URL has been taken twice; no URL has been requested twice,
    and the requests are exactly the links taken from the queue with a
    depth below [max_depth]; when [queue.join()] returns, every link put
    has been taken.  A candidate that matches the pattern, lies in an
    allowed domain and is in neither set is recorded with its edge and
    put on the queue, one level below its parent; and every link put on
    the queue but the start link is one level below a link that was
    taken from the queue below the bound, with the edge from it.  A link
    taken from the queue at depth [max_depth] or more is marked visited
    and never requested, and when [queue.join()] returns every link put
    is marked visited.  For every visited link below the bound, each
    candidate of its page that matches the pattern is a node with a
    depth and has the edge from that link, so a URL that is a candidate
    of two such links is one node with an edge from each; and when its
    domain is allowed, exactly one link with its URL has been put on the
    queue. *)
Theorem crawled_at_most_once (start_url : string) (parallelism : Z)
    (c : config) :
  reachable start_url parallelism c →
  NoDup (url <$> enqueued (shared c)) ∧
  NoDup (url <$> dequeued (shared c)) ∧
  dequeued (shared c) ⊆ enqueued (shared c) ∧
  NoDup (requested (shared c)) ∧
  requested (shared c)
    = url <$> filter (λ l, depth l < max_depth) (dequeued (shared c)) ∧
  (joined c = true → dequeued (shared c) ≡ₚ enqueued (shared c)) ∧
  (∀ link u s,
     re_match (Some u) = Ok true →
     has_valid_domain (Some u) = Ok true →
     u ∉ visited_urls s → u ∉ urls_to_visit s →
     ∃ s', process_candidate link (Some u) s = (Ok (), s') ∧
           enqueued s' = mkLink (depth link + 1) u :: enqueued s ∧
           queue s' = queue s ++ [mkLink (depth link + 1) u] ∧
           u ∈ urls_to_visit s' ∧
           (url link, u) ∈ edges (graph s')) ∧
  (∀ l, l ∈ enqueued (shared c) →
        l = mkLink 0 start_url ∨
        ∃ parent, parent ∈ dequeued (shared c) ∧
                  depth parent < max_depth ∧
                  depth l = depth parent + 1 ∧
                  (url parent, url l) ∈ edges (graph (shared c))) ∧
  (∀ l, l ∈ dequeued (shared c) → max_depth ≤ depth l →
        url l ∈ visited_urls (shared c) ∧
        (url l ∉ requested (shared c))) ∧
  (joined c = true →
   ∀ l, l ∈ enqueued (shared c) → url l ∈ visited_urls (shared c)) ∧
  (∀ parent, parent ∈ dequeued (shared c) →
     url parent ∈ visited_urls (shared c) →
     depth parent < max_depth →
     ∃ cands,
       fetch_links (url parent) = Ok cands ∧
       ∀ v, Some v ∈ cands → re_match (Some v) = Ok true →
            (url parent, v) ∈ edges (graph (shared c)) ∧
            (∃ d, nodes (graph (shared c)) !! v = Some (Some d)) ∧
            (has_valid_domain (Some v) = Ok true →
             ∃ l, l ∈ enqueued (shared c) ∧ url l = v ∧
                  ∀ l', l' ∈ enqueued (shared c) → url l' = v → l' = l)).
Proof.
  intros Hc.
  destruct (accounted_reachable _ _ _ Hc) as (Hperm & Hdup & Hsets & Hreq).
  assert (NoDup (url <$> dequeued (shared c))) as Hdup'.
  { rewrite Hperm, fmap_app in Hdup. by apply NoDup_app in Hdup as (? & _ & _). }
  destruct (graph_sound_reachable _ _ _ Hc) as (N1 & N2 & _ & N4 & _).
  destruct (holding_reachable _ _ _ Hc) as (_ & _ & _ & _ & G5).
  split; [done|]. split; [done|]. split.
  { intros l Hl. rewrite Hperm. apply elem_of_app. by left. }
  split.
  { rewrite Hreq. apply (sublist_NoDup _ _ Hdup').
    apply fmap_sublist, sublist_filter. }
  split; [done|]. split.
  { intros Hj. destruct (joined_idle _ _ _ Hc Hj) as [Hq _].
    by rewrite Hperm, Hq, app_nil_r. }
  split.
  { intros link u s Hre Hdom Hv Ht.
    eexists; split; [by apply process_candidate_new|]. cbn.
    split; [done|]. split; [done|]. set_solver. }
  split.
  { intros l Hl. by destruct (N4 l Hl) as [_ ?]. }
  split.
  { intros l Hl Hge.
    split; [by apply (leaves_visited_reachable start_url parallelism)|].
    rewrite Hreq.
    intros (l' & Heq & [Hlt Hl']%list_elem_of_filter)%list_elem_of_fmap.
    assert (l = l') as <-
      by exact (NoDup_fmap_same url _ l l' Hdup' Hl Hl' Heq).
    lia. }
  split.
  { intros Hj l Hl.
    destruct (joined_idle _ _ _ Hc Hj) as [Hq Hidle].
    specialize (Hsets l Hl).
    apply elem_of_union in Hsets as [Ht|]; [|done].
    destruct (G5 ltac:(intros i e Hi; by specialize (Hidle i _ Hi)) _ Ht)
      as [Hin|(i & l' & Hi & _)].
    - rewrite Hq in Hin. by apply elem_of_nil in Hin.
    - by specialize (Hidle i _ Hi). }
  intros parent Hp Hv Hd.
  destruct (explored_reachable _ _ _ Hc parent Hp Hv Hd)
    as (cands & Hf & _ & Hall).
  exists cands. split; [done|].
  intros v Hin Hre. destruct (Hall v Hin Hre) as [He Hs].
  split; [done|]. split.
  { destruct (N2 _ _ He) as (_ & [o Ho]%elem_of_dom & _).
    destruct (N1 v o Ho) as (d & -> & _). by exists d. }
  intros Hdom. specialize (Hs Hdom).
  apply (frontier_exact_reachable start_url parallelism c Hc) in Hs.
  apply list_elem_of_fmap in Hs as (l & -> & Hl).
  exists l. split; [done|]. split; [done|].
  intros l' Hl' Heq.
  exact (NoDup_fmap_same url _ l' l Hdup Hl' Hl Heq).
Qed.

(** *** C6 *)

(** The loop ends with the exception of the first element on which its
    body raises. *)
Lemma for_each_first_raise {A} (body : A → M unit) (l : list A)
    (k : nat) (x : A) (e : exn) :
  l !! k = Some x →
  (∀ j y s, (j < k)%nat → l !! j = Some y → (body y s).1 = Ok ()) →
  (∀ s, (body x s).1 = Raise e) →
  ∀ s, (for_each l body s).1 = Raise e.
Proof.
  revert k. induction l as [|y l IH]; intros k Hk Hbefore Hx s; [done|].
  cbn [for_each]. unfold bind. destruct k as [|k].
  - injection Hk as ->. specialize (Hx s).
    destruct (body x s) as [r s1]; cbn in Hx. by subst r.
  - pose proof (Hbefore 0%nat y s ltac:(lia) eq_refl) as Hy.
    destruct (body y s) as [r s1]; cbn in Hy; subst r.
    apply (IH k); [done| |done].
    intros j z s2 Hj Hz. apply (Hbefore (S j)); [lia | done].
Qed.

Lemma rmap_first_raise {A B} (f : A → result B) (l : list A)
    (k : nat) (x : A) (e : exn) :
  l !! k = Some x →
  (∀ j y, (j < k)%nat → l !! j = Some y → ¬ raises (f y)) →
  f x = Raise e →
  rmap f l = Raise e.
Proof.
  revert k. induction l as [|y l IH]; intros k Hk Hbefore Hx; [done|].
  cbn [rmap]. destruct k as [|k].
  - injection Hk as ->. by rewrite Hx.
  - pose proof (Hbefore 0%nat y ltac:(lia) eq_refl) as Hy.
    destruct (f y) as [b|e']; [|destruct Hy; by exists e']. cbn.
    rewrite (IH k); [done|done| |done].
    intros j z Hj Hz. apply (Hbefore (S j)); [lia | done].
Qed.

(** The loop body never calls [queue.task_done]. *)
Lemma candidate_finished link x s :
  finished (process_candidate link x s).2 = finished s.
Proof. by destruct (process_candidate_outcome link x s). Qed.

Lemma candidate_no_raise link x s :
  ¬ raises (re_match x) →
  (∀ u, x = Some u → re_match x = Ok true →
        ¬ raises (has_valid_domain (Some u))) →
  (process_candidate link x s).1 = Ok ().
Proof.
  intros Hmatch Hdomain.
  destruct (process_candidate_outcome link x s)
    as [x e Hre| |u e Hre Hdom| | ]; try done.
  - destruct Hmatch. by exists e.
  - destruct (Hdomain u eq_refl Hre). by exists e.
Qed.

(** C6, amended. A candidate that is absent or cannot be parsed is not
    rejected silently.  When the page fetched for the link that consumer
    [i] holds has such an [href], the consumer ends with an exception,
    the link is not marked visited and stays in [urls_to_visit],
    [queue.task_done] is not called and [queue.join()] never returns.
    The exception is the one that [fetch_links] raises, when it raises,
    and then nothing has changed; it is the exception of [urlparse] on
    the first [href] that cannot be resolved, when that is one that
    [urlparse] refuses.  When [fetch_links] returns, the exception is
    the one raised at the first candidate at which the loop body raises:
    at an absent candidate before which nothing raises this is the
    exception of [re.match], which is [TypeError] when the pattern is a
    regular expression.  Such a candidate is still never put on the
    queue and never fetched: every link put on the queue, other than the
    start link, has a URL that parses, with an allowed domain, and only
    URLs put on the queue are requested. *)
Theorem bad_href_ends_consumer (start_url : string) (parallelism : Z)
    (c : config) (i : nat) (link : Link) (hrefs : list (option string)) :
  reachable start_url parallelism c →
  consumers c !! i = Some (Fetching link) →
  http_get (url link) = Ok hrefs →
  None ∈ hrefs ∨ (∃ h, Some h ∈ hrefs ∧ raises (urlparse_netloc h)) →
  let c' := consume_step i c in
  (∃ e, consumers c' !! i = Some (Failed e)) ∧
  visited_urls (shared c') = visited_urls (shared c) ∧
  url link ∈ urls_to_visit (shared c') ∧
  finished (shared c') = finished (shared c) ∧
  (∀ e, fetch_links (url link) = Raise e →
        consumers c' !! i = Some (Failed e) ∧ shared c' = shared c) ∧
  (∀ k h e,
     hrefs !! k = Some (Some h) →
     urlparse_netloc h = Raise e →
     (∀ j x, (j < k)%nat → hrefs !! j = Some x →
             ¬ raises (resolve_href urlparse_netloc urljoin (url link) x)) →
     fetch_links (url link) = Raise e ∧
     consumers c' !! i = Some (Failed e)) ∧
  (∀ cands k,
     fetch_links (url link) = Ok cands →
     cands !! k = Some None →
     (∀ j y, (j < k)%nat → cands !! j = Some y →
             ¬ raises (re_match y) ∧
             ∀ u, y = Some u → re_match y = Ok true →
                  ¬ raises (has_valid_domain (Some u))) →
     ∃ e, re_match None = Raise e ∧
          consumers c' !! i = Some (Failed e) ∧
          (is_Some url_regex → e = TypeError)) ∧
  ∀ sch,
    joined (run sch c') = false ∧
    (∀ l, l ∈ enqueued (shared (run sch c')) →
          l = mkLink 0 start_url ∨
          ∃ d, urlparse_netloc (url l) = Ok d ∧ d ∈ allowed_domains) ∧
    (∀ u, u ∈ requested (shared (run sch c')) →
          u = start_url ∨ ∃ d, urlparse_netloc u = Ok d).
Proof.
  intros Hc Hi Hget Hbad c'.
  destruct (holding_reachable _ _ _ Hc) as (_ & G2 & _).
  destruct (G2 i link Hi) as (Hlink_to & _).
  assert (i < length (consumers c))%nat as Hlt by by apply lookup_lt_Some in Hi.
  (* the exception of the first [href] that [urlparse] refuses *)
  assert (∀ k h e,
            hrefs !! k = Some (Some h) →
            urlparse_netloc h = Raise e →
            (∀ j x, (j < k)%nat → hrefs !! j = Some x →
                    ¬ raises (resolve_href urlparse_netloc urljoin
                                (url link) x)) →
            fetch_links (url link) = Raise e) as Hfirst.
  { intros k h e Hk Hh Hbefore. unfold fetch_links. rewrite Hget. cbn [rbind].
    apply (rmap_first_raise _ hrefs k (Some h) e Hk Hbefore).
    unfold resolve_href, is_relative_url, get_domain. by rewrite Hh. }
  (* the configuration after the step, and what the step has kept *)
  assert (∃ e s1,
            c' = set_task i (Failed e) c s1 ∧
            visited_urls s1 = visited_urls (shared c) ∧
            url link ∈ urls_to_visit s1 ∧
            finished s1 = finished (shared c) ∧
            (∀ e', fetch_links (url link) = Raise e' →
                   e = e' ∧ s1 = shared c) ∧
            (∀ cands, fetch_links (url link) = Ok cands →
                      (for_each cands (process_candidate link) (shared c)).1
                        = Raise e))
    as (e & s1 & Hc' & Hvis & Hto & Hfin & Hfetch & Hloop).
  { unfold c', consume_step. rewrite Hi.
    unfold consume_resume, bind, lift.
    destruct (fetch_links (url link)) as [cands|e] eqn:Hf.
    - assert (None ∈ cands) as Hnone.
      { unfold fetch_links in Hf. rewrite Hget in Hf. cbn [rbind] in Hf.
        destruct Hbad as [Hnone|(h & Hh & Hraise)].
        - destruct (rmap_elem _ _ _ _ Hf Hnone) as (y & Hy & Hin).
          rewrite resolve_href_none in Hy. by injection Hy as <-.
        - destruct (rmap_raises
                      (resolve_href urlparse_netloc urljoin (url link))
                      hrefs (Some h) Hh
                      (resolve_href_unparsable (url link) h Hraise))
            as [e He].
          congruence. }
      pose proof (for_each_raises (process_candidate link) cands None Hnone
                    (candidate_none_raises link) (shared c)) as [e He].
      pose proof (loop_grown_frontier link cands (shared c))
        as (Hv & _ & _ & added & _ & _ & Hto & _).
      pose proof (for_each_preserves
                    (λ s', finished s' = finished (shared c))
                    (process_candidate link)
                    (λ x s' Hs', eq_trans (candidate_finished link x s') Hs')
                    cands (shared c) eq_refl) as Hfin.
      destruct (for_each cands (process_candidate link) (shared c))
        as [r s1] eqn:Hrun; cbn [fst snd] in *; subst r.
      exists e, s1. split; [done|]. split; [done|].
      split; [apply Hto; by left|]. split; [done|].
      split; [done|]. intros ? [= <-]. by rewrite Hrun.
    - exists e, (shared c). split; [done|]. split; [done|].
      split; [done|]. split; [done|].
      split; [by intros ? [= <-] | done]. }
  assert (consumers c' !! i = Some (Failed e)) as Hfailed.
  { rewrite Hc'. cbn. by apply list_lookup_insert_eq. }
  assert (reachable start_url parallelism c') as Hreach
    by apply (reachable_run _ _ _ [i] Hc).
  split; [by exists e|]. split; [by rewrite Hc'|].
  split; [by rewrite Hc'|]. split; [by rewrite Hc'|].
  split.
  { intros e' He'. destruct (Hfetch e' He') as [<- Hs1].
    split; [done|]. by rewrite Hc', Hs1. }
  split.
  { intros k h e' Hk Hh Hbefore.
    pose proof (Hfirst k h e' Hk Hh Hbefore) as Hf. split; [done|].
    by destruct (Hfetch e' Hf) as [<- _]. }
  split.
  { intros cands k Hf Hk Hbefore.
    destruct (process_candidate_none link (shared c)) as (e0 & He0 & _).
    exists e0. split; [done|]. split.
    - assert ((for_each cands (process_candidate link) (shared c)).1
                = Raise e0) as Hloop0.
      { apply (for_each_first_raise _ cands k None e0 Hk).
        - intros j y s Hj Hy. destruct (Hbefore j y Hj Hy) as [? ?].
          by apply candidate_no_raise.
        - intros s.
          destruct (process_candidate_none link s) as (e1 & He1 & ->).
          cbn. congruence. }
      rewrite (Hloop cands Hf) in Hloop0. by injection Hloop0 as ->.
    - intros [m Hm]. revert He0. unfold re_match. rewrite Hm.
      by intros [= <-]. }
  intros sch.
  pose proof (reachable_run _ _ _ sch Hreach) as Hreach'.
  split; [by apply (failed_never_joined start_url parallelism c' i e)|].
  pose proof (in_scope_reachable _ _ _ Hreach') as Hscope.
  split; [done|].
  destruct (accounted_reachable _ _ _ Hreach') as (Hperm & _ & _ & Hreq).
  intros u. rewrite Hreq.
  intros (l & -> & [_ Hl]%list_elem_of_filter)%list_elem_of_fmap.
  destruct (Hscope l) as [->|(d & Hd & _)].
  - rewrite Hperm. apply elem_of_app. by left.
  - by left.
  - right. by exists d.
Qed.

End Properties.

(** ** The start URL *)

(** *** C10 *)

Lemma for_each_ext {A} (body body' : A → M unit) (l : list A) :
  (∀ x s, x ∈ l → body x s = body' x s) →
  ∀ s, for_each l body s = for_each l body' s.
Proof.
  induction l as [|x l IH]; intros Hext s; [done|].
  cbn [for_each]. unfold bind. rewrite <-(Hext x s) by by left.
  destruct (body x s) as [[[]|e] s1]; [|done].
  apply IH. intros y s2 Hy. apply Hext. by right.
Qed.

(** The loop body consults the filters on the candidate only. *)
Lemma process_candidate_agree
    (urlparse_netloc : string → result string)
    (allowed allowed' : list string)
    (url_regex url_regex' : option (string → bool))
    (link : Link) (x : option string) (s : world) :
  re_match url_regex x = re_match url_regex' x →
  (re_match url_regex x = Ok true →
   has_valid_domain urlparse_netloc allowed x
     = has_valid_domain urlparse_netloc allowed' x) →
  process_candidate urlparse_netloc allowed url_regex link x s
    = process_candidate urlparse_netloc allowed' url_regex' link x s.
Proof.
  intros Hre Hdom. unfold process_candidate, bind, lift. rewrite <-Hre.
  destruct (re_match url_regex x) as [[]|e]; [|done..]. cbn [negb].
  destruct x as [u|]; [|done]. by rewrite (Hdom eq_refl).
Qed.

Lemma consume_step_agree
    (urlparse_netloc : string → result string)
    (urljoin : string → string → result string)
    (http_get : string → result (list (option string)))
    (max_depth : Z) (allowed allowed' : list string)
    (url_regex url_regex' : option (string → bool))
    (i : nat) (c : config) :
  filters_agree urlparse_netloc urljoin http_get allowed allowed'
    url_regex url_regex' →
  consume_step urlparse_netloc urljoin http_get allowed max_depth
    url_regex i c
  = consume_step urlparse_netloc urljoin http_get allowed' max_depth
      url_regex' i c.
Proof.
  intros Hagree. unfold consume_step.
  destruct (consumers c !! i) as [[|link|e]|]; [done| |done..].
  unfold consume_resume, bind, lift.
  destruct (fetch_links urlparse_netloc urljoin http_get (url link))
    as [cands|e] eqn:Hfetch; [|done].
  rewrite (for_each_ext
             (process_candidate urlparse_netloc allowed url_regex link)
             (process_candidate urlparse_netloc allowed' url_regex' link));
    [done|].
  intros x s Hx. destruct (Hagree (url link) cands x Hfetch Hx).
  by apply process_candidate_agree.
Qed.

(** C10, amended. The start URL is seeded without a look at the filters;
    the first consumer that is resumed takes it from the queue and makes
    it a node at depth 0; it is then requested when [max_depth] is
    positive, and marked visited without a request otherwise.  None of
    this consults the URL pattern or the allowed domains: the step is the
    same for any two patterns and any two lists of allowed domains.  The
    filters are applied to the candidates of the fetched pages only: two
    settings of the filters that give the same answers on every
    candidate of every page give the same crawl, whatever they say about
    the start URL.  So a start URL that no filter accepts is crawled like
    any other. *)
Theorem start_url_unfiltered
    (urlparse_netloc : string → result string)
    (urljoin : string → string → result string)
    (http_get : string → result (list (option string)))
    (max_depth : Z) (start_url : string) (parallelism : Z) (i : nat)
    (allowed_domains allowed_domains' : list string)
    (url_regex url_regex' : option (string → bool)) :
  let c0 := crawl_init start_url parallelism in
  let c1 := consume_step urlparse_netloc urljoin http_get allowed_domains
              max_depth url_regex i c0 in
  queue (shared c0) = [mkLink 0 start_url] ∧
  start_url ∈ urls_to_visit (shared c0) ∧
  c1 = consume_step urlparse_netloc urljoin http_get allowed_domains'
         max_depth url_regex' i c0 ∧
  ((i < Z.to_nat parallelism)%nat →
     dequeued (shared c1) = [mkLink 0 start_url] ∧
     nodes (graph (shared c1)) = {[ start_url := Some 0 ]} ∧
     (0 < max_depth →
        requested (shared c1) = [start_url] ∧
        consumers c1 !! i = Some (Fetching (mkLink 0 start_url))) ∧
     (max_depth ≤ 0 →
        requested (shared c1) = [] ∧
        start_url ∈ visited_urls (shared c1))) ∧
  (filters_agree urlparse_netloc urljoin http_get
     allowed_domains allowed_domains' url_regex url_regex' →
   ∀ schedule,
     run urlparse_netloc urljoin http_get allowed_domains max_depth
       url_regex schedule c0
     = run urlparse_netloc urljoin http_get allowed_domains' max_depth
         url_regex' schedule c0).
Proof.
  intros c0 c1.
  split; [done|]. split; [cbn; set_solver|].
  split; [unfold c1, c0; by rewrite !first_step|].
  split.
  - intros Hi. unfold c1, c0. rewrite first_step, decide_True by done.
    destruct (Z.ltb_spec 0 max_depth) as [Hlt|Hle].
    + split; [done|]. split; [apply insert_empty|].
      split; [|lia]. intros _. split; [done|]. cbn.
      apply list_lookup_insert_eq. by rewrite length_replicate.
    + split; [done|]. split; [apply insert_empty|].
      split; [lia|]. intros _. split; [done|]. cbn. set_solver.
  - intros Hagree schedule. generalize c0. clear c0 c1.
    unfold run. induction schedule as [|j schedule IH]; intros c; [done|].
    cbn [foldl].
    rewrite (consume_step_agree _ _ _ _ _ _ _ _ j c Hagree). apply IH.
Qed.

(** * The crawl on concrete sites *)

Import PyLib Sites.

(** Decides a closed statement by evaluation. *)
Ltac by_eval :=
  lazymatch goal with
  | |- ¬ _ => apply (bool_decide_eq_false_1 _); vm_compute; reflexivity
  | |- _ => apply (bool_decide_unpack _); vm_compute; exact I
  end.

Lemma crawl_a_test_site t parallelism max_depth schedule :
  crawl_site t a_test parallelism max_depth schedule
    = crawl_a_test t parallelism max_depth schedule.
Proof. reflexivity. Qed.

(** The scenario of the specification: the out-of-scope URL is a node
    with an edge, and it is neither put on the queue nor requested. *)
Example scenario_graph :
  let c := crawl_a_test site_scenario 2 1 [0; 0; 0; 1; 0; 1]%nat in
  joined c = true ∧
  nodes (graph (shared c))
    = {[ a_test := Some 0; "https://a.test/b" := Some 1;
         "https://a.test/c" := Some 1; "https://other.test/x" := Some 1 ]} ∧
  edges (graph (shared c))
    = {[ (a_test, "https://a.test/b"); (a_test, "https://a.test/c");
         (a_test, "https://other.test/x") ]} ∧
  requested (shared c) = [a_test] ∧
  url <$> enqueued (shared c)
    = ["https://a.test/c"; "https://a.test/b"; a_test].
Proof.
  cbv zeta. split; [vm_compute; reflexivity|].
  split; [by_eval|]. split; [by_eval|].
  split; vm_compute; reflexivity.
Qed.

Example two_parents :
  let c := crawl_a_test site_two_parents 2 3 [0; 0; 0; 1; 0; 1; 0; 0]%nat in
  joined c = true ∧
  nodes (graph (shared c)) !! "https://a.test/x" = Some (Some 2) ∧
  filter (λ e, e.2 = "https://a.test/x") (elements (edges (graph (shared c))))
    = [("https://a.test/q", "https://a.test/x");
       ("https://a.test/p", "https://a.test/x")] ∧
  filter (λ l, url l = "https://a.test/x") (enqueued (shared c))
    = [mkLink 2 "https://a.test/x"] ∧
  filter (λ u, u = "https://a.test/x") (requested (shared c))
    = ["https://a.test/x"].
Proof. cbv zeta. repeat (split; [vm_compute; reflexivity|]). by_eval. Qed.

(** A page that links to itself: the start URL, first recorded at depth
    0, ends at depth 1. *)
Example depth_rewritten_in_crawl :
  let t := [(a_test, [Some a_test])] in
  joined (crawl_a_test t 1 1 [0; 0]%nat) = true ∧
  nodes (graph (shared (crawl_a_test t 1 1 [0]%nat))) !! a_test
    = Some (Some 0) ∧
  nodes (graph (shared (crawl_a_test t 1 1 [0; 0]%nat))) !! a_test
    = Some (Some 1).
Proof. cbv zeta. repeat (split; [vm_compute; reflexivity|]). by_eval. Qed.

(** ** C1 *)



(** ** C2 *)

Lemma frontier_sets_disjoint_witness :
  let c := crawl_a_test site_scenario 2 1 [0; 0]%nat in
  let c' := run py_netloc py_urljoin_str (site_links site_scenario)
              ["a.test"] 1 default_pattern [0; 1]%nat c in
  urls_to_visit (shared c) ## visited_urls (shared c) ∧
  a_test ∈ visited_urls (shared c') ∧
  a_test ∉ urls_to_visit (shared c').
Proof.
  intros c c'.
  pose proof (frontier_sets_disjoint py_netloc py_urljoin_str
                (site_links site_scenario) ["a.test"] 1 default_pattern
                a_test 2 [0; 0]%nat [0; 1]%nat) as H.
  cbv zeta in H. destruct H as [Hdisj Hlater].
  split; [exact Hdisj|].
  destruct (Hlater a_test) as (Hv & Ht & _); [by_eval|].
  split; [exact Hv | exact Ht].
Defined.

(** ** C3 *)

(** C3, as the claim states it, fails: with [max_depth = 1] the child
    passes both filters and is new; it is put on the queue once and
    taken once, the crawl completes, and the child is never requested. *)
Lemma child_at_bound_not_fetched :
  let c := crawl_a_test site_one_child 1 1 [0; 0; 0]%nat in
  default_regex "https://a.test/b" = true ∧
  py_netloc "https://a.test/b" = Ok "a.test" ∧
  joined c = true ∧
  enqueued (shared c) = [mkLink 1 "https://a.test/b"; mkLink 0 a_test] ∧
  dequeued (shared c) = [mkLink 1 "https://a.test/b"; mkLink 0 a_test] ∧
  requested (shared c) = [a_test] ∧
  "https://a.test/b" ∉ requested (shared c).
Proof.
  cbv zeta. do 6 (split; [vm_compute; reflexivity|]). by_eval.
Qed.

Lemma crawled_at_most_once_witness :
  let c := crawl_a_test site_two_parents 2 3 [0; 0; 0; 1; 0; 1; 0; 0]%nat in
  let x := "https://a.test/x" in
  NoDup (url <$> enqueued (shared c)) ∧
  NoDup (requested (shared c)) ∧
  dequeued (shared c) ≡ₚ enqueued (shared c) ∧
  (∀ l, l ∈ enqueued (shared c) → url l ∈ visited_urls (shared c)) ∧
  ("https://a.test/p", x) ∈ edges (graph (shared c)) ∧
  ("https://a.test/q", x) ∈ edges (graph (shared c)) ∧
  (∃ d, nodes (graph (shared c)) !! x = Some (Some d)) ∧
  ∃ l, l ∈ enqueued (shared c) ∧ url l = x ∧
       ∀ l', l' ∈ enqueued (shared c) → url l' = x → l' = l.
Proof.
  intros c x.
  pose proof (crawled_at_most_once py_netloc py_urljoin_str
                (site_links site_two_parents) ["a.test"] 3 default_pattern
                a_test 2 c) as H.
  destruct H
    as (Hput & _ & _ & Hreq & _ & Hjoin & _ & _ & _ & Hvis & Hpage).
  - exists [0; 0; 0; 1; 0; 1; 0; 0]%nat. reflexivity.
  - assert (joined c = true) as Hj by (vm_compute; reflexivity).
    split; [exact Hput|]. split; [exact Hreq|].
    split; [exact (Hjoin Hj)|]. split; [exact (Hvis Hj)|].
    destruct (Hpage (mkLink 1 "https://a.test/p")) as (cp & Hfp & Hp);
      [by_eval | by_eval | cbn; lia |].
    destruct (Hpage (mkLink 1 "https://a.test/q")) as (cq & Hfq & Hq);
      [by_eval | by_eval | cbn; lia |].
    vm_compute in Hfp. injection Hfp as <-.
    vm_compute in Hfq. injection Hfq as <-.
    destruct (Hp x) as (Hep & Hnode & Hone);
      [by left | vm_compute; reflexivity |].
    destruct (Hq x) as (Heq & _ & _);
      [by left | vm_compute; reflexivity |].
    split; [exact Hep|]. split; [exact Heq|]. split; [exact Hnode|].
    apply Hone. vm_compute. reflexivity.
Defined.

(** ** C5 *)

(** C5, as the claim states it, fails for a negative bound, which
    [--max-depth] accepts: the crawl completes with the start URL as a
    node at depth 0. *)
Lemma negative_bound_exceeded :
  let c := crawl_a_test [] 1 (-1) [0]%nat in
  joined c = true ∧
  ∃ d, nodes (graph (shared c)) !! a_test = Some (Some d) ∧ ¬ (d ≤ -1).
Proof.
  cbv zeta. split; [vm_compute; reflexivity|].
  exists 0. split; [by_eval | lia].
Qed.

Lemma node_depths_bounded_witness :
  let c := crawl_a_test site_scenario 2 1 [0; 0; 0; 1; 0; 1]%nat in
  ∃ d, nodes (graph (shared c)) !! "https://other.test/x" = Some (Some d) ∧
       d ≤ 1.
Proof.
  intros c.
  pose proof (node_depths_bounded py_netloc py_urljoin_str
                (site_links site_scenario) ["a.test"] 1 default_pattern
                a_test 2 c) as H.
  destruct H as (Hnodes & _).
  - lia.
  - exists [0; 0; 0; 1; 0; 1]%nat. reflexivity.
  - destruct (Hnodes "https://other.test/x" (Some 1)) as (d & Hd & Hle);
      [by_eval|].
    exists d. split; [|exact Hle].
    injection Hd as <-. by_eval.
Defined.

(** ** C6 *)

(** C6, as the claim states it, fails: an absent [href] ends the consumer
    with [TypeError], an unparsable one with [ValueError]; in both crawls
    the start URL stays in [urls_to_visit] and [queue.join()] does not
    return. *)
Lemma bad_href_not_silent :
  let c1 := crawl_a_test site_absent_href 1 1 [0; 0]%nat in
  let c2 := crawl_a_test site_unparsable_href 1 1 [0; 0]%nat in
  py_netloc "http://[" = Raise ValueError ∧
  consumers c1 = [Failed TypeError] ∧
  consumers c2 = [Failed ValueError] ∧
  a_test ∈ urls_to_visit (shared c1) ∧
  a_test ∈ urls_to_visit (shared c2) ∧
  joined c1 = false ∧ joined c2 = false.
Proof.
  cbv zeta. do 3 (split; [vm_compute; reflexivity|]).
  split; [by_eval|]. split; [by_eval|]. split; vm_compute; reflexivity.
Qed.

Lemma bad_href_ends_consumer_witness :
  let c := crawl_a_test site_absent_href 1 1 [0]%nat in
  let c' := consume_step py_netloc py_urljoin_str
              (site_links site_absent_href) ["a.test"] 1 default_pattern 0 c in
  consumers c' !! 0%nat = Some (Failed TypeError) ∧
  visited_urls (shared c') = visited_urls (shared c) ∧
  a_test ∈ urls_to_visit (shared c') ∧
  finished (shared c') = finished (shared c).
Proof.
  intros c c'.
  pose proof (bad_href_ends_consumer py_netloc py_urljoin_str
                (site_links site_absent_href) ["a.test"] 1 default_pattern
                a_test 1 c 0%nat (mkLink 0 a_test)
                [Some "/b"; None; Some "/c"]) as H.
  destruct H as (_ & Hvisited & Hto & Hfin & _ & _ & Habsent & _).
  - exists [0%nat]. reflexivity.
  - vm_compute. reflexivity.
  - vm_compute. reflexivity.
  - left. by_eval.
  - destruct (Habsent [Some "https://a.test/b"; None; Some "https://a.test/c"]
                1%nat) as (e & _ & Hfailed & Htype).
    + vm_compute. reflexivity.
    + reflexivity.
    + intros j y Hj Hy. destruct j as [|j]; [|lia]. injection Hy as <-.
      split; [intros [e He]; vm_compute in He; discriminate He|].
      intros u [= <-] _ [e He]. vm_compute in He. discriminate He.
    + rewrite (Htype (mk_is_Some _ _ eq_refl)) in Hfailed.
      split; [exact Hfailed|]. split; [exact Hvisited|].
      split; [exact Hto | exact Hfin].
Defined.

(** ** C8 *)

Lemma depth_zero_crawl_witness :
  let c := crawl_a_test site_scenario 2 0 [1; 0]%nat in
  requested (shared c) = [] ∧
  edges (graph (shared c)) = ∅ ∧
  nodes (graph (shared c)) = {[ a_test := Some 0 ]}.
Proof.
  intros c.
  pose proof (depth_zero_crawl py_netloc py_urljoin_str
                (site_links site_scenario) ["a.test"] 0 default_pattern
                a_test 2 [1; 0]%nat eq_refl) as H.
  cbv zeta in H. destruct H as (Hreq & Hedges & Hnodes & Hjoin).
  split; [exact Hreq|]. split; [exact Hedges|].
  apply Hnodes. apply (Hjoin 0%nat); [by_eval | lia].
Defined.

(** ** C10 *)

(** C10, as the claim states it, fails: with [max_depth = 0] the crawl
    completes and the start URL has not been fetched. *)
Lemma start_not_fetched_at_depth_zero :
  let c := crawl_a_test site_scenario 1 0 [0]%nat in
  joined c = true ∧
  requested (shared c) = [] ∧
  nodes (graph (shared c)) !! a_test = Some (Some 0).
Proof. cbv zeta. do 2 (split; [vm_compute; reflexivity|]). by_eval. Qed.

(** A start URL that the pattern rejects, outside the allowed domain:
    it is crawled as it is with filters that accept it. *)
Lemma start_url_unfiltered_witness :
  let c1 := consume_step py_netloc py_urljoin_str
              (site_links site_ftp) ["a.test"] 1 default_pattern 0
              (crawl_init ftp_start 1) in
  default_regex ftp_start = false ∧
  py_netloc ftp_start = Ok "files.test" ∧
  with_ftp ftp_start = true ∧
  dequeued (shared c1) = [mkLink 0 ftp_start] ∧
  nodes (graph (shared c1)) = {[ ftp_start := Some 0 ]} ∧
  requested (shared c1) = [ftp_start] ∧
  ∀ schedule,
    run py_netloc py_urljoin_str (site_links site_ftp) ["a.test"] 1
      default_pattern schedule (crawl_init ftp_start 1)
    = run py_netloc py_urljoin_str (site_links site_ftp)
        ["a.test"; "files.test"] 1 (Some with_ftp) schedule
        (crawl_init ftp_start 1).
Proof.
  intros c1.
  pose proof (start_url_unfiltered py_netloc py_urljoin_str
                (site_links site_ftp) 1 ftp_start 1 0%nat
                ["a.test"] ["a.test"; "files.test"]
                default_pattern (Some with_ftp)) as H.
  cbv zeta in H. destruct H as (_ & _ & _ & H & Hrun).
  destruct H as (Hget & Hnode & Hfetch & _); [lia|].
  do 3 (split; [vm_compute; reflexivity|]).
  split; [exact Hget|]. split; [exact Hnode|].
  split; [exact (proj1 (Hfetch ltac:(lia)))|].
  apply Hrun. intros u cands x Hf Hx.
  unfold fetch_links, site_ftp in Hf. cbn [site_links] in Hf.
  destruct (String.eqb u ftp_start); [|discriminate Hf].
  vm_compute in Hf. injection Hf as <-.
  apply list_elem_of_singleton in Hx as ->.
  split; [vm_compute; reflexivity|]. intros _. vm_compute. reflexivity.
Defined.

(** * Further properties *)

(** ** The order on links *)

Lemma string_ltb_leb (s1 s2 : string) :
  String.ltb s1 s2 = true ↔ String.leb s1 s2 = true ∧ s1 ≠ s2.
Proof.
  unfold String.ltb, String.leb.
  destruct (String.compare s1 s2) eqn:Hcmp.
  - apply String.compare_eq_iff in Hcmp. split; [done | by intros [_ ?]].
  - split; [|done]. intros _. split; [done|].
    intros ->. pose proof (string_ltb_irrefl s2) as Hirr.
    unfold String.ltb in Hirr. by rewrite Hcmp in Hirr.
  - split; [done | by intros [? _]].
Qed.

Lemma string_ltb_trans (s1 s2 s3 : string) :
  String.ltb s1 s2 = true → String.ltb s2 s3 = true →
  String.ltb s1 s3 = true.
Proof.
  rewrite !string_ltb_leb. intros [H12 Hne12] [H23 Hne23].
  assert (String.le s1 s3) as H13.
  { transitivity s2; unfold String.le; by apply Is_true_true. }
  split; [by apply Is_true_true|].
  intros ->. apply Hne12. by apply String.leb_antisym.
Qed.

Lemma string_ltb_total (s1 s2 : string) :
  String.ltb s1 s2 = true ∨ s1 = s2 ∨ String.ltb s2 s1 = true.
Proof.
  unfold String.ltb. rewrite (String.compare_antisym s2 s1).
  destruct (String.compare s1 s2) eqn:Hcmp; cbn; auto.
  right; left. by apply String.compare_eq_iff.
Qed.

(** X1. The generated [__lt__] is a strict total order on links: no link
    is below itself, the order is transitive, and of two different links
    exactly one is below the other. *)
Theorem Link_ltb_strict_total :
  (∀ a, Link_ltb a a = false) ∧
  (∀ a b c, Link_ltb a b = true → Link_ltb b c = true →
            Link_ltb a c = true) ∧
  (∀ a b, Link_ltb a b = true ∨ a = b ∨ Link_ltb b a = true) ∧
  (∀ a b, Link_ltb a b = true → Link_ltb b a = false).
Proof.
  assert (∀ a b, Link_ltb a b = true ↔
            depth a < depth b ∨
            (depth a = depth b ∧ String.ltb (url a) (url b) = true)) as Hlt.
  { intros [da ua] [db ub]. unfold Link_ltb; cbn [depth url].
    destruct (Z.eqb_spec da db) as [->|Hne]; cbn [negb].
    - destruct (String.eqb_spec ua ub) as [->|Hu]; cbn [negb].
      + rewrite string_ltb_irrefl. split; [done|].
        intros [?|[_ ?]]; [lia | done].
      + split; [by right | intros [?|[_ ?]]; [lia | done]].
    - rewrite Z.ltb_lt. split; [by left | intros [?|[? _]]; [done | lia]]. }
  assert (∀ a, Link_ltb a a = false) as Hirr.
  { intros a. destruct (Link_ltb a a) eqn:Haa; [|done].
    apply Hlt in Haa as [?|[_ Hu]]; [lia|].
    by rewrite string_ltb_irrefl in Hu. }
  assert (∀ a b c, Link_ltb a b = true → Link_ltb b c = true →
            Link_ltb a c = true) as Htrans.
  { intros a b c [?|[Hab Hu]]%Hlt [?|[Hbc Hu']]%Hlt; apply Hlt;
      [left; lia..|].
    right. split; [lia|]. by apply (string_ltb_trans _ (url b)). }
  split; [done|]. split; [done|]. split.
  - intros [da ua] [db ub].
    destruct (Z.lt_trichotomy da db) as [?|[->|?]].
    + left. apply Hlt. by left.
    + destruct (string_ltb_total ua ub) as [?|[->|?]].
      * left. apply Hlt. by right.
      * by right; left.
      * right; right. apply Hlt. by right.
    + right; right. apply Hlt. by left.
  - intros a b Hab. destruct (Link_ltb b a) eqn:Hba; [|done].
    by rewrite <-(Hirr a), <-(Htrans a b a Hab Hba).
Qed.

(** X2. The four generated comparisons agree: [a <= b] is [a < b] or
    [a == b], [a > b] is [b < a], and [a >= b] is the negation of
    [a < b]. *)
Theorem Link_comparisons_agree (a b : Link) :
  Link_leb a b = Link_ltb a b || Link_eqb a b ∧
  Link_gtb a b = Link_ltb b a ∧
  Link_geb a b = negb (Link_ltb a b).
Proof.
  destruct a as [da ua], b as [db ub].
  unfold Link_leb, Link_gtb, Link_geb, Link_ltb, Link_eqb; cbn [depth url].
  rewrite (Z.eqb_sym db da), (String.eqb_sym ub ua).
  destruct (Z.eqb_spec da db) as [->|Hne]; cbn [negb andb].
  - destruct (String.eqb_spec ua ub) as [->|Hu]; cbn [negb].
    + done.
    + rewrite orb_false_r.
      unfold String.leb, String.ltb.
      rewrite (String.compare_antisym ub ua).
      destruct (String.compare ua ub) eqn:Hcmp; cbn; try done.
      by apply String.compare_eq_iff in Hcmp.
  - rewrite orb_false_r. split; [|split].
    + destruct (Z.leb_spec da db), (Z.ltb_spec da db); lia || done.
    + rewrite Z.gtb_ltb. done.
    + rewrite Z.geb_leb.
      destruct (Z.leb_spec db da), (Z.ltb_spec da db); lia || done.
Qed.

(** ** The edges of the graph *)

Lemma nx_touch_lookup_ne n k (m : gmap string (option Z)) :
  n ≠ k → nx_touch k m !! n = m !! n.
Proof.
  intros Hne. unfold nx_touch. destruct (m !! k); [done|].
  by rewrite lookup_insert_ne.
Qed.

Lemma nx_touch_new n (m : gmap string (option Z)) :
  m !! n = None → nx_touch n m !! n = Some None.
Proof. intros Hn. unfold nx_touch. by rewrite Hn, lookup_insert_eq. Qed.

(** X19. [add_edge] adds the edge and makes its two ends nodes.  It
    never changes the depth of a node that exists, and a node that it
    has to create has no depth.  Adding the same edge again changes
    nothing, and nothing but the graph is touched. *)
Theorem add_edge_spec (a b : Link) (s : world) :
  let s' := (add_edge a b s).2 in
  (add_edge a b s).1 = Ok () ∧
  edges (graph s') = {[ (url a, url b) ]} ∪ edges (graph s) ∧
  dom (nodes (graph s')) = {[ url a; url b ]} ∪ dom (nodes (graph s)) ∧
  (∀ u o, nodes (graph s) !! u = Some o → nodes (graph s') !! u = Some o) ∧
  (∀ u, u ∉ dom (nodes (graph s)) → u ∈ dom (nodes (graph s')) →
        nodes (graph s') !! u = Some None) ∧
  (add_edge a b s').2 = s' ∧
  s' = set_graph (λ _, graph s') s.
Proof.
  intros s'. subst s'. cbn.
  split; [done|]. split; [done|].
  split.
  { rewrite !dom_nx_touch. apply set_eq. intros x.
    rewrite !elem_of_union, !elem_of_singleton. tauto. }
  split; [intros u o Hu; by do 2 apply nx_touch_lookup|].
  split.
  - intros u Hu. rewrite !dom_nx_touch.
    apply not_elem_of_dom in Hu.
    destruct (decide (u = url a)) as [->|Hna].
    { intros _. apply nx_touch_lookup. by apply nx_touch_new. }
    rewrite !elem_of_union, !elem_of_singleton, elem_of_dom.
    rewrite Hu. intros [->|[?|[? [=]]]]; [|done].
    apply nx_touch_new. by rewrite nx_touch_lookup_ne.
  - split; [|done]. unfold set_graph, nx_add_edge. cbn. f_equal.
    f_equal.
    2:{ apply set_eq. intros x. rewrite !elem_of_union. tauto. }
    set (m := nx_touch (url b) (nx_touch (url a) (nodes (graph s)))).
    assert (url a ∈ dom m ∧ url b ∈ dom m) as [Ha Hb].
    { unfold m. rewrite !dom_nx_touch, !elem_of_union, !elem_of_singleton.
      tauto. }
    rewrite (nx_touch_present (url a) m) by by apply elem_of_dom.
    by rewrite nx_touch_present by by apply elem_of_dom.
Qed.

(** ** The command line *)

(** X20. When [crawl_main] gets to the crawl, the start URL has a
    network location, and every URL that is put on the queue, requested
    or visited has that same network location: the crawl stays on the
    domain of the start URL. *)
Theorem crawl_main_stays_on_domain
    (urlparse_netloc : string → result string)
    (urljoin : string → string → result string)
    (http_get : string → result (list (option string)))
    (args : Args) (schedule : list nat) (c : config) :
  crawl_main urlparse_netloc urljoin http_get args schedule = Ok c →
  ∃ d, urlparse_netloc (arg_start_url args) = Ok d ∧
       (∀ l, l ∈ enqueued (shared c) → urlparse_netloc (url l) = Ok d) ∧
       (∀ u, u ∈ requested (shared c) → urlparse_netloc u = Ok d) ∧
       (∀ u, u ∈ visited_urls (shared c) → urlparse_netloc u = Ok d).
Proof.
  unfold crawl_main, get_domain.
  destruct (urlparse_netloc (arg_start_url args)) as [d|e] eqn:Hstart;
    [|done].
  cbn. intros [= <-]. exists d. split; [done|].
  set (c := run _ _ _ _ _ _ _ _).
  assert (reachable urlparse_netloc urljoin http_get [d]
            (arg_max_depth args) (arg_url_regex args)
            (arg_start_url args) (arg_parallelism args) c) as Hc.
  { by exists schedule. }
  pose proof (in_scope_reachable _ _ _ _ _ _ _ _ _ Hc) as Hscope.
  destruct (accounted_reachable _ _ _ _ _ _ _ _ _ Hc)
    as (Hperm & _ & _ & Hreq).
  destruct (holding_reachable _ _ _ _ _ _ _ _ _ Hc)
    as (_ & _ & _ & Hvis & _).
  assert (∀ l, l ∈ enqueued (shared c) → urlparse_netloc (url l) = Ok d)
    as Henq.
  { intros l Hl.
    destruct (Hscope l Hl) as [->|(d' & Hd' & Hin)]; [done|].
    by apply list_elem_of_singleton in Hin as ->. }
  assert (∀ l, l ∈ dequeued (shared c) → urlparse_netloc (url l) = Ok d)
    as Hdeq.
  { intros l Hl. apply Henq. rewrite Hperm. apply elem_of_app. by left. }
  split; [done|]. split.
  - intros u Hu. rewrite Hreq in Hu.
    apply list_elem_of_fmap in Hu as (l & -> & Hl).
    apply list_elem_of_filter in Hl as [_ Hl]. by apply Hdeq.
  - intros u Hu. apply Hvis in Hu.
    apply list_elem_of_fmap in Hu as (l & -> & Hl). by apply Hdeq.
Qed.

(** X21. [crawl_main] raises exactly when the network location of the
    start URL cannot be computed, and then with the exception of
    [urlparse]: the allowed domains are computed before the event loop
    is started, so nothing has been crawled. *)
Theorem crawl_main_bad_start
    (urlparse_netloc : string → result string)
    (urljoin : string → string → result string)
    (http_get : string → result (list (option string)))
    (args : Args) (schedule : list nat) (e : exn) :
  crawl_main urlparse_netloc urljoin http_get args schedule = Raise e ↔
  urlparse_netloc (arg_start_url args) = Raise e.
Proof.
  unfold crawl_main, get_domain.
  destruct (urlparse_netloc (arg_start_url args)) as [d|e']; cbn.
  - split; intros [=].
  - split; intros [= ->]; reflexivity.
Qed.

(** ** The further properties on the scenario site *)

Lemma queue_is_fifo_witness :
  let c := crawl_a_test site_scenario 2 1 [0; 0; 0]%nat in
  rev (enqueued (shared c)) = rev (dequeued (shared c)) ++ queue (shared c).
Proof.
  intros c.
  apply (queue_is_fifo py_netloc py_urljoin_str (site_links site_scenario)
           ["a.test"] 1 default_pattern a_test 2 c).
  exists [0; 0; 0]%nat. reflexivity.
Defined.

Lemma join_iff_idle_witness :
  let c := crawl_a_test site_scenario 2 1 [0; 0; 0]%nat in
  unfinished (shared c)
    = Z.of_nat (length (queue (shared c))) + busy (consumers c) ∧
  (joined c = true ↔
   queue (shared c) = [] ∧
   ∀ i t, consumers c !! i = Some t → t = Waiting).
Proof.
  intros c.
  apply (join_iff_idle py_netloc py_urljoin_str (site_links site_scenario)
           ["a.test"] 1 default_pattern a_test 2 c).
  exists [0; 0; 0]%nat. reflexivity.
Defined.

Lemma after_join_quiescent_witness :
  let c := crawl_a_test site_scenario 2 1 [0; 0; 0; 1]%nat in
  run py_netloc py_urljoin_str (site_links site_scenario) ["a.test"] 1
    default_pattern [1; 0; 1]%nat c = c.
Proof.
  intros c.
  apply (after_join_quiescent py_netloc py_urljoin_str
           (site_links site_scenario) ["a.test"] 1 default_pattern a_test 2 c).
  - exists [0; 0; 0; 1]%nat. reflexivity.
  - vm_compute. reflexivity.
Defined.

Lemma no_consumers_no_crawl_witness :
  let c := crawl_a_test site_scenario 0 1 [0; 1]%nat in
  c = crawl_init a_test 0 ∧ joined c = false.
Proof.
  intros c.
  apply (no_consumers_no_crawl py_netloc py_urljoin_str
           (site_links site_scenario) ["a.test"] 1 default_pattern a_test 0
           [0; 1]%nat).
  lia.
Defined.

Lemma frontier_is_enqueued_witness :
  let c := crawl_a_test site_scenario 2 1 [0; 0; 0]%nat in
  (∀ u, u ∈ urls_to_visit (shared c) ∪ visited_urls (shared c) ↔
        u ∈ url <$> enqueued (shared c)) ∧
  (∀ u, u ∈ visited_urls (shared c) → u ∈ url <$> dequeued (shared c)) ∧
  (∀ l, l ∈ queue (shared c) → url l ∈ urls_to_visit (shared c)) ∧
  (∀ i l, consumers c !! i = Some (Fetching l) →
          url l ∈ urls_to_visit (shared c)).
Proof.
  intros c.
  apply (frontier_is_enqueued py_netloc py_urljoin_str
           (site_links site_scenario) ["a.test"] 1 default_pattern a_test 2 c).
  exists [0; 0; 0]%nat. reflexivity.
Defined.

Lemma urls_to_visit_in_flight_witness :
  let c := crawl_a_test site_two_parents 2 3 [0; 0; 0; 1]%nat in
  (no_failed (consumers c) →
   ∀ u, u ∈ urls_to_visit (shared c) ↔
        u ∈ url <$> queue (shared c) ∨
        ∃ i l, consumers c !! i = Some (Fetching l) ∧ url l = u) ∧
  (∀ i j l l', i ≠ j →
               consumers c !! i = Some (Fetching l) →
               consumers c !! j = Some (Fetching l') →
               url l ≠ url l').
Proof.
  intros c.
  apply (urls_to_visit_in_flight py_netloc py_urljoin_str
           (site_links site_two_parents) ["a.test"] 3 default_pattern
           a_test 2 c).
  exists [0; 0; 0; 1]%nat. reflexivity.
Defined.

Lemma frontier_at_join_witness :
  let c := crawl_a_test site_scenario 2 1 [0; 0; 0; 1]%nat in
  urls_to_visit (shared c) = ∅ ∧
  ∀ u, u ∈ visited_urls (shared c) ↔ u ∈ url <$> enqueued (shared c).
Proof.
  intros c.
  apply (frontier_at_join py_netloc py_urljoin_str
           (site_links site_scenario) ["a.test"] 1 default_pattern a_test 2 c).
  - exists [0; 0; 0; 1]%nat. reflexivity.
  - vm_compute. reflexivity.
Defined.

Lemma iteration_completes_witness :
  let c := crawl_a_test site_scenario 2 1 [0]%nat in
  let c' := consume_step py_netloc py_urljoin_str
              (site_links site_scenario) ["a.test"] 1 default_pattern 0 c in
  consumers c' !! 0%nat = Some Waiting ∧
  a_test ∈ visited_urls (shared c') ∧
  (a_test ∉ urls_to_visit (shared c')) ∧
  head (trace (shared c')) = Some (QDone 0) ∧
  load (shared c') = load (shared c) - 1.
Proof.
  intros c c'.
  apply (iteration_completes py_netloc py_urljoin_str
           (site_links site_scenario) ["a.test"] 1 default_pattern a_test 2 c
           0%nat (mkLink 0 a_test)
           [Some "https://a.test/b"; Some "https://a.test/c";
            Some "https://other.test/x"]).
  - exists [0]%nat. reflexivity.
  - vm_compute. reflexivity.
  - vm_compute. reflexivity.
  - intros x Hx. rewrite !elem_of_cons, elem_of_nil in Hx.
    destruct Hx as [->|[->|[->|[]]]];
      (split; [intros [e He]; vm_compute in He; discriminate He|]);
      intros u [= <-] _ [e He]; vm_compute in He; discriminate He.
Defined.

Lemma leaf_iteration_completes_witness :
  let c := crawl_a_test site_scenario 2 1 [0; 0]%nat in
  let c' := consume_step py_netloc py_urljoin_str
              (site_links site_scenario) ["a.test"] 1 default_pattern 1 c in
  let link := mkLink 1 "https://a.test/b" in
  consumers c' = consumers c ∧
  queue (shared c') = [mkLink 1 "https://a.test/c"] ∧
  requested (shared c') = requested (shared c) ∧
  nodes (graph (shared c')) !! url link = Some (Some (depth link)) ∧
  url link ∈ visited_urls (shared c') ∧
  (url link ∉ urls_to_visit (shared c')) ∧
  unfinished (shared c') = unfinished (shared c) - 1.
Proof.
  intros c c' link.
  apply (leaf_iteration_completes py_netloc py_urljoin_str
           (site_links site_scenario) ["a.test"] 1 default_pattern a_test 2 c
           1%nat link [mkLink 1 "https://a.test/c"]).
  - exists [0; 0]%nat. reflexivity.
  - vm_compute. reflexivity.
  - vm_compute. reflexivity.
  - cbn. lia.
Defined.

Lemma graph_well_formed_witness :
  let c := crawl_a_test site_two_parents 2 3 [0; 0; 0; 1; 0; 1]%nat in
  (∀ u o, nodes (graph (shared c)) !! u = Some o → ∃ d, o = Some d ∧ 0 ≤ d) ∧
  (∀ p u, (p, u) ∈ edges (graph (shared c)) →
          p ∈ dom (nodes (graph (shared c))) ∧
          u ∈ dom (nodes (graph (shared c))) ∧
          re_match default_pattern (Some u) = Ok true ∧
          p ∈ requested (shared c) ∧
          ∃ parent, parent ∈ dequeued (shared c) ∧ url parent = p ∧
                    depth parent < 3) ∧
  (∀ u, u ∈ dom (nodes (graph (shared c))) →
        u = a_test ∨ ∃ p, (p, u) ∈ edges (graph (shared c))).
Proof.
  intros c.
  apply (graph_well_formed py_netloc py_urljoin_str
           (site_links site_two_parents) ["a.test"] 3 default_pattern
           a_test 2 c).
  exists [0; 0; 0; 1; 0; 1]%nat. reflexivity.
Defined.

Lemma links_have_parents_witness :
  let c := crawl_a_test site_two_parents 2 3 [0; 0; 0; 1; 0; 1]%nat in
  let l := mkLink 2 "https://a.test/x" in
  0 ≤ depth l ∧
  (l = mkLink 0 a_test ∨
   ∃ parent, parent ∈ dequeued (shared c) ∧
             parent ∈ enqueued (shared c) ∧
             depth parent < 3 ∧
             depth l = depth parent + 1 ∧
             (url parent, url l) ∈ edges (graph (shared c)) ∧
             re_match default_pattern (Some (url l)) = Ok true).
Proof.
  intros c l.
  apply (links_have_parents py_netloc py_urljoin_str
           (site_links site_two_parents) ["a.test"] 3 default_pattern
           a_test 2 c l).
  - exists [0; 0; 0; 1; 0; 1]%nat. reflexivity.
  - by_eval.
Defined.

Lemma crawl_explores_everything_witness :
  let c := crawl_a_test site_scenario 2 1 [0; 0; 0; 1]%nat in
  joined c = true ∧
  ∀ l, l ∈ enqueued (shared c) →
       depth l < 1 →
       ∃ cands,
         fetch_links py_netloc py_urljoin_str (site_links site_scenario)
           (url l) = Ok cands ∧
         (None ∉ cands) ∧
         ∀ v, Some v ∈ cands → re_match default_pattern (Some v) = Ok true →
              (url l, v) ∈ edges (graph (shared c)) ∧
              (has_valid_domain py_netloc ["a.test"] (Some v) = Ok true →
               v ∈ visited_urls (shared c)).
Proof.
  intros c.
  assert (joined c = true) as Hj by (vm_compute; reflexivity).
  split; [exact Hj|].
  apply (crawl_explores_everything py_netloc py_urljoin_str
           (site_links site_scenario) ["a.test"] 1 default_pattern a_test 2 c).
  - exists [0; 0; 0; 1]%nat. reflexivity.
  - exact Hj.
Defined.

Lemma parallelism_bounds_consumers_witness :
  let c := crawl_a_test site_scenario 2 1 [0; 0; 0]%nat in
  length (consumers c) = Z.to_nat 2 ∧
  busy (consumers c) ≤ Z.max 0 2 ∧
  ∀ i, (Z.to_nat 2 ≤ i)%nat →
       consume_step py_netloc py_urljoin_str (site_links site_scenario)
         ["a.test"] 1 default_pattern i c = c.
Proof.
  intros c.
  apply (parallelism_bounds_consumers py_netloc py_urljoin_str
           (site_links site_scenario) ["a.test"] 1 default_pattern a_test 2 c).
  exists [0; 0; 0]%nat. reflexivity.
Defined.

Lemma fetch_links_resolves_witness :
  let hrefs := [Some "/b"; None; Some "https://other.test/x"] in
  let cands := [Some "https://a.test/b"; None;
                Some "https://other.test/x"] in
  length cands = length hrefs ∧
  ∀ k h, hrefs !! k = Some h →
         match h with
         | None => cands !! k = Some None
         | Some r =>
             ∃ d, py_netloc r = Ok d ∧
                  if decide (d = EmptyString)
                  then ∃ j, py_urljoin_str a_test r = Ok j ∧
                            cands !! k = Some (Some j)
                  else cands !! k = Some (Some r)
         end.
Proof.
  intros hrefs cands.
  apply (fetch_links_resolves py_netloc py_urljoin_str
           (site_links [(a_test, hrefs)]) a_test hrefs cands).
  - vm_compute. reflexivity.
  - vm_compute. reflexivity.
Defined.

Lemma crawl_main_stays_on_domain_witness :
  let c := crawl_a_test site_scenario 2 1 [0; 0; 0; 1]%nat in
  ∃ d, py_netloc a_test = Ok d ∧
       (∀ l, l ∈ enqueued (shared c) → py_netloc (url l) = Ok d) ∧
       (∀ u, u ∈ requested (shared c) → py_netloc u = Ok d) ∧
       (∀ u, u ∈ visited_urls (shared c) → py_netloc u = Ok d).
Proof.
  intros c.
  pose proof (crawl_main_stays_on_domain py_netloc py_urljoin_str
                (site_links site_scenario)
                (mkArgs a_test default_pattern "graph.gexf" 2 1)
                [0; 0; 0; 1]%nat c) as H.
  assert (py_netloc a_test = Ok "a.test") as Hd by (vm_compute; reflexivity).
  unfold crawl_main, get_domain in H.
  cbn [arg_start_url arg_max_depth arg_url_regex arg_parallelism] in H.
  rewrite Hd in H. cbn [rbind] in H.
  exact (H eq_refl).
Defined.

Lemma crawl_never_stuck_witness :
  let c := crawl_a_test site_scenario 2 1 [0]%nat in
  ∃ i, (i < Z.to_nat 2)%nat ∧
       consume_step py_netloc py_urljoin_str (site_links site_scenario)
         ["a.test"] 1 default_pattern i c ≠ c.
Proof.
  intros c.
  apply (crawl_never_stuck py_netloc py_urljoin_str
           (site_links site_scenario) ["a.test"] 1 default_pattern a_test 2 c).
  - exists [0]%nat. reflexivity.
  - lia.
  - vm_compute. reflexivity.
  - assert (consumers c = [Fetching (mkLink 0 a_test); Waiting]) as ->
      by (vm_compute; reflexivity).
    intros [|[|i]] e; discriminate.
Defined.
